(** * Campus route finder: [src/services/pathfinding.js]

    A shallow embedding of the [MinHeap] and [PathFinder] classes and of the
    part of the data layer they read, with the properties of the routing
    engine stated and proved over it.

    Conventions of the embedding.
    - JavaScript numbers are modelled by exact rationals ([Q]): finite values
      only, no rounding error.  Integer columns ([node_id], [floor_level],
      [edge_id]) are [Z].  JavaScript rounds every sum, product and quotient
      to 53 significant bits; the properties that rest on exact sums
      (shortest paths, totals against step sums, reversed headings, compass
      sectors) carry the premise under which the two agree
      ([whole_metres], [quarter_degrees]).
    - [Map]s are [gmap]s keyed by the integer id, the [Set] of visited nodes is
      a [gset], arrays are lists read with [!!] and written with [<[_:=_]>].
    - Mutation of [this] is explicit state passing.
    - The [await]ed data-layer reads are functions of a [DataLayer] value that
      is fixed for the duration of one call; node codes are compared as
      they are written.
    - Loops carry fuel; for each of them a lemma shows that the fuel given
      is enough, or that running out of it is a loop that never ends.

    - Strings are byte strings; [toFixed], the printing of integers in
      template literals and [trim] are parameters of [getDirections] and of
      the route handlers.

    The definitions come first (queue, data layer, engine, search, the
    vocabulary of the properties, concrete data, directions, the
    [POST /find-path] handlers of [routes/mobileApi.js] and of the web API),
    then the theory of the queue, of the search loop and of [buildGraph],
    then the properties. *)

From Stdlib Require Import QArith Qround Qabs Lqa Sorted.
From stdpp Require Import gmap strings list fin_maps pretty.

Local Open Scope Q_scope.
#[local] Set Warnings "-clear-no-such-hyp".

(** ** JavaScript arithmetic on the rational model *)

Module JS.

(** [x < y] on numbers. *)
Definition ltb (x y : Q) : bool := negb (Qle_bool y x).

(** [x <= y] on numbers. *)
Definition leb (x y : Q) : bool := Qle_bool x y.

(** [Math.floor]. *)
Definition Math_floor (x : Q) : Z := Qfloor x.

(** [Math.round]: nearest integer, halves go up. *)
Definition Math_round (x : Q) : Z := Qfloor (x + (1 # 2)).

(** Truncation towards zero, the integer quotient behind [%]. *)
Definition trunc (x : Q) : Z :=
  if Qle_bool 0 x then Qfloor x else Qceiling x.

(** [a % b] on numbers: the remainder takes the sign of the dividend. *)
Definition rem (a b : Q) : Q := a - b * inject_Z (trunc (a / b)).

End JS.

(** ** MinHeap *)

Record Entry := mkEntry { priority : Q; value : Z }.

(** [this.heap], the backing array. *)
Abbreviation MinHeap := (list Entry).

(** [Math.floor((index - 1) / 2)] for [index > 0]. *)
Definition parentOf (index : nat) : nat := ((index - 1) / 2)%nat.

(** [this.heap[a].priority < this.heap[b].priority], guarded by
    [a < this.heap.length] as in [bubbleDown]. *)
Definition priority_lt_at (h : MinHeap) (a b : nat) : bool :=
  match h !! a, h !! b with
  | Some x, Some y => JS.ltb (priority x) (priority y)
  | _, _ => false
  end.

(** The destructuring swap [[h[a], h[b]] = [h[b], h[a]]]: the right-hand side
    is read first, then [h[a]] and [h[b]] are written in that order. *)
Definition swap (h : MinHeap) (a b : nat) : MinHeap :=
  match h !! a, h !! b with
  | Some x, Some y => <[b := x]> (<[a := y]> h)
  | _, _ => h
  end.

(** [bubbleUp(index)].  Every iteration replaces [index] by its parent, so
    [index] iterations are enough; [push] passes [fuel = index] (lemma
    [bubbleUp_fuel]).  [push] calls it on the last cell, so [index] and its
    parent are cells of the array and the branch for a missing cell is never
    taken. *)
Fixpoint bubbleUp (fuel : nat) (h : MinHeap) (index : nat) : MinHeap :=
  match fuel with
  | O => h
  | S fuel' =>
      if (0 <? index)%nat then
        let parentIndex := parentOf index in
        match h !! parentIndex, h !! index with
        | Some p, Some c =>
            if JS.leb (priority p) (priority c) then h
            else bubbleUp fuel' (swap h parentIndex index) parentIndex
        | _, _ => h
        end
      else h
  end.

(** [push(priority, value)]. *)
Definition push (p : Q) (v : Z) (h : MinHeap) : MinHeap :=
  let h' := h ++ [mkEntry p v] in
  bubbleUp (length h' - 1) h' (length h' - 1).

(** [bubbleDown(index)].  Every iteration moves [index] to one of its
    children, so [heap.length] iterations are enough (lemma
    [bubbleDown_fuel]). *)
Fixpoint bubbleDown (fuel : nat) (h : MinHeap) (index : nat) : MinHeap :=
  match fuel with
  | O => h
  | S fuel' =>
      let leftChild := (2 * index + 1)%nat in
      let rightChild := (2 * index + 2)%nat in
      let smallest := index in
      let smallest :=
        if priority_lt_at h leftChild smallest then leftChild else smallest in
      let smallest :=
        if priority_lt_at h rightChild smallest then rightChild else smallest in
      if (smallest =? index)%nat then h
      else bubbleDown fuel' (swap h smallest index) smallest
  end.

(** [pop()]: [None] is the [null] returned on an empty heap; otherwise the
    removed entry together with the heap left behind. *)
Definition pop (h : MinHeap) : option (Entry * MinHeap) :=
  match h with
  | [] => None
  | [e] => Some (e, [])
  | min :: _ =>
      match last h with
      | Some l =>
          let h' := <[0%nat := l]> (take (length h - 1) h) in
          Some (min, bubbleDown (length h') h' 0)
      | None => None
      end
  end.

(** [isEmpty()]. *)
Definition isEmpty (h : MinHeap) : bool :=
  match h with [] => true | _ => false end.

(** *** Heap order *)

(** The min-heap ordering on the backing array: no cell has a smaller
    priority than its parent. *)
Definition heap_ok (h : MinHeap) : Prop :=
  forall j c p, (0 < j)%nat ->
    h !! j = Some c -> h !! parentOf j = Some p -> priority p <= priority c.

(** The ordering with one suspect cell [i] on its way up: every other cell
    respects its parent, and the children of [i] respect the parent of [i]. *)
Definition up_inv (h : MinHeap) (i : nat) : Prop :=
  (forall j c p, (0 < j)%nat -> j <> i ->
     h !! j = Some c -> h !! parentOf j = Some p -> priority p <= priority c) /\
  (forall j c g, (0 < i)%nat -> (0 < j)%nat -> parentOf j = i ->
     h !! j = Some c -> h !! parentOf i = Some g -> priority g <= priority c).

(** The ordering with one suspect cell [i] on its way down: every cell whose
    parent is not [i] respects its parent, and the children of [i] respect
    the parent of [i]. *)
Definition down_inv (h : MinHeap) (i : nat) : Prop :=
  (forall j c p, (0 < j)%nat -> parentOf j <> i ->
     h !! j = Some c -> h !! parentOf j = Some p -> priority p <= priority c) /\
  (forall j c g, (0 < i)%nat -> (0 < j)%nat -> parentOf j = i ->
     h !! j = Some c -> h !! parentOf i = Some g -> priority g <= priority c).

(** The index [bubbleDown] moves to: [smallest] after its two tests. *)
Definition select_smallest (h : MinHeap) (index : nat) : nat :=
  let smallest := index in
  let smallest :=
    if priority_lt_at h (2 * index + 1) smallest
    then (2 * index + 1)%nat else smallest in
  if priority_lt_at h (2 * index + 2) smallest
  then (2 * index + 2)%nat else smallest.

(** *** Clients of the queue *)

(** One call on a queue: [push(priority, value)] or [pop()]. *)
Inductive HeapOp :=
  | OpPush (p : Q) (v : Z)
  | OpPop.

(** The backing array after one call; a [pop()] on an empty queue returns
    [null] and leaves the array as it is. *)
Definition apply_op (h : MinHeap) (o : HeapOp) : MinHeap :=
  match o with
  | OpPush p v => push p v h
  | OpPop => match pop h with Some (_, h') => h' | None => h end
  end.

(** The backing array after a sequence of calls on [new MinHeap()]. *)
Definition run_ops (ops : list HeapOp) : MinHeap := foldl apply_op [] ops.

(** ** Data layer

    The Sequelize models [Nodes] and [Edges], reduced to the columns the
    engine reads and to the three queries it issues. *)

Module Nodes.

Record row := mk {
  node_id : Z;
  node_code : string;
  name : string;
  building : string;
  floor_level : Z;
  type_of_node : string;
  image360 : option string;
  map_x : option Q;
  map_y : option Q
}.

End Nodes.

Module Edges.

Record row := mk {
  edge_id : Z;
  from_node_id : Z;
  to_node_id : Z;
  distance : Q;
  compass_angle : Q;
  is_staircase : bool;
  is_active : bool
}.

End Edges.

(** The tables as one call sees them. *)
Record DataLayer := mkDataLayer {
  nodes_table : list Nodes.row;
  edges_table : list Edges.row
}.

(** [Nodes.findAll()]. *)
Definition Nodes_findAll (db : DataLayer) : list Nodes.row := nodes_table db.

(** [Edges.findAll({ where: { is_active: true }, ... })]. *)
Definition Edges_findAll_active (db : DataLayer) : list Edges.row :=
  List.filter Edges.is_active (edges_table db).

(** [Nodes.findOne({ where: { node_code: code } })]; [None] is [null]. *)
Definition Nodes_findOne (db : DataLayer) (code : string) : option Nodes.row :=
  List.find (fun n => bool_decide (Nodes.node_code n = code)) (nodes_table db).

(** ** PathFinder *)

(** An adjacency option, the object pushed on [this.graph.get(id)]. *)
Module EdgeInfo.

Record t := mk {
  to : Z;
  distance : Q;
  compass_angle : Q;
  is_staircase : bool;
  edge_id : Z
}.

End EdgeInfo.

(** The fields of [this]. *)
Record PathFinder := mkPathFinder {
  nodesCache : gmap Z Nodes.row;
  graph : gmap Z (list EdgeInfo.t);
  initialized : bool
}.

(** [new PathFinder()]. *)
Definition new_PathFinder : PathFinder :=
  {| nodesCache := ∅; graph := ∅; initialized := false |}.

(** [(edge.compass_angle + 180) % 360]. *)
Definition reverseAngle (compass_angle : Q) : Q :=
  JS.rem (compass_angle + 180) 360.

(** The first loop of [buildGraph]: one cache entry and one empty adjacency
    list per node. *)
Definition cache_node (acc : gmap Z Nodes.row * gmap Z (list EdgeInfo.t))
    (node : Nodes.row) : gmap Z Nodes.row * gmap Z (list EdgeInfo.t) :=
  (<[Nodes.node_id node := node]> acc.1, <[Nodes.node_id node := []]> acc.2).

(** The body of the second loop of [buildGraph]: the forward option on the
    list of [fromId] and the reverse option on the list of [toId], each only
    if [this.graph.has] the node. *)
Definition add_edge (g : gmap Z (list EdgeInfo.t)) (edge : Edges.row)
    : gmap Z (list EdgeInfo.t) :=
  let fromId := Edges.from_node_id edge in
  let toId := Edges.to_node_id edge in
  let g :=
    if decide (is_Some (g !! fromId)) then
      alter (fun l => l ++ [EdgeInfo.mk toId (Edges.distance edge)
                              (Edges.compass_angle edge)
                              (Edges.is_staircase edge)
                              (Edges.edge_id edge)]) fromId g
    else g in
  let reverseAngle := reverseAngle (Edges.compass_angle edge) in
  if decide (is_Some (g !! toId)) then
    alter (fun l => l ++ [EdgeInfo.mk fromId (Edges.distance edge)
                            reverseAngle
                            (Edges.is_staircase edge)
                            (Edges.edge_id edge)]) toId g
  else g.

(** [buildGraph()]: both maps are cleared, then filled from the tables. *)
Definition buildGraph (this : PathFinder) (db : DataLayer) : PathFinder :=
  let cleared : gmap Z Nodes.row * gmap Z (list EdgeInfo.t) := (∅, ∅) in
  let filled := foldl cache_node cleared (Nodes_findAll db) in
  {| nodesCache := filled.1;
     graph := foldl add_edge filled.2 (Edges_findAll_active db);
     initialized := true |}.

(** [heuristic(nodeAId, nodeBId)]. *)
Definition heuristic (this : PathFinder) (nodeAId nodeBId : Z) : Q :=
  match nodesCache this !! nodeAId, nodesCache this !! nodeBId with
  | Some nodeA, Some nodeB =>
      let floorDiff := Z.abs (Nodes.floor_level nodeA - Nodes.floor_level nodeB) in
      inject_Z floorDiff * 4
  | _, _ => 0
  end.

(** [reset()]. *)
Definition reset (this : PathFinder) : PathFinder :=
  {| nodesCache := ∅; graph := ∅; initialized := false |}.

(** *** The module-level singleton *)

(** [getPathfinder()] on the module variable [pathfinderInstance]: the
    instance handed out and the new value of the variable. *)
Definition getPathfinder (pathfinderInstance : option PathFinder)
    : PathFinder * option PathFinder :=
  match pathfinderInstance with
  | Some inst => (inst, Some inst)
  | None => (new_PathFinder, Some new_PathFinder)
  end.

(** [resetPathfinder()]: the instance is reset and then dropped. *)
Definition resetPathfinder (pathfinderInstance : option PathFinder)
    : option PathFinder := None.

(** *** Path steps and results *)

Module Step.

Record t := mk {
  node_id : Z;
  node_code : string;
  name : string;
  building : string;
  floor_level : Z;
  type : string;
  image360 : option string;
  map_x : option Q;
  map_y : option Q;
  distance_from_prev : Q;
  compass_angle : option Q;
  is_staircase : bool
}.

End Step.

(** The object returned on success ([success: true] is the constructor
    [Success] below). *)
Record PathResult := mkPathResult {
  path : list Step.t;
  total_distance : Q;
  num_nodes : nat;
  start : option Step.t;
  goal : option Step.t
}.

(** What a call of [findPath] can do: return a result object, return
    [{ error: msg }], throw a [TypeError] on reading a property of
    [undefined], or never return. *)
Inductive Outcome :=
  | Success (r : PathResult)
  | Error (msg : string)
  | Throws
  | Diverges.

(** [node.image360 || null]: the empty string is falsy. *)
Definition image_or_null (image : option string) : option string :=
  match image with
  | Some EmptyString => None
  | other => other
  end.

(** The step pushed for a node reached through [edge].  The coordinates are
    numbers or [null] in the row, and [parseFloat] of a number is that
    number. *)
Definition step_via (node : Nodes.row) (edge : EdgeInfo.t) : Step.t :=
  {| Step.node_id := Nodes.node_id node;
     Step.node_code := Nodes.node_code node;
     Step.name := Nodes.name node;
     Step.building := Nodes.building node;
     Step.floor_level := Nodes.floor_level node;
     Step.type := Nodes.type_of_node node;
     Step.image360 := image_or_null (Nodes.image360 node);
     Step.map_x := Nodes.map_x node;
     Step.map_y := Nodes.map_y node;
     Step.distance_from_prev := EdgeInfo.distance edge;
     Step.compass_angle := Some (EdgeInfo.compass_angle edge);
     Step.is_staircase := EdgeInfo.is_staircase edge |}.

(** The step pushed for the start node. *)
Definition step_start (startNode : Nodes.row) : Step.t :=
  {| Step.node_id := Nodes.node_id startNode;
     Step.node_code := Nodes.node_code startNode;
     Step.name := Nodes.name startNode;
     Step.building := Nodes.building startNode;
     Step.floor_level := Nodes.floor_level startNode;
     Step.type := Nodes.type_of_node startNode;
     Step.image360 := image_or_null (Nodes.image360 startNode);
     Step.map_x := Nodes.map_x startNode;
     Step.map_y := Nodes.map_y startNode;
     Step.distance_from_prev := 0;
     Step.compass_angle := None;
     Step.is_staircase := false |}.

(** How the [while] loop of [reconstructPath] ends. *)
Inductive WalkResult :=
  | WalkDone (path : list Step.t)
  | WalkThrows
  | WalkDiverges.

(** The [while (currentId !== startId)] loop of [reconstructPath].  Every
    iteration that goes on has found [currentId] among the keys of
    [cameFrom]; with [fuel] one more than the number of keys, running out of
    fuel means a key was seen twice, and then the loop of the source never
    ends (lemma [walk_back_diverges_for_ever]). *)
Fixpoint walk_back (fuel : nat) (this : PathFinder)
    (cameFrom : gmap Z (Z * EdgeInfo.t)) (startId currentId : Z)
    (path : list Step.t) : WalkResult :=
  match fuel with
  | O => WalkDiverges
  | S fuel' =>
      if decide (currentId = startId) then WalkDone path
      else
        match cameFrom !! currentId with
        | None => WalkDone path
        | Some (prev, edge) =>
            match nodesCache this !! currentId with
            | None => WalkThrows
            | Some node =>
                walk_back fuel' this cameFrom startId prev
                  (path ++ [step_via node edge])
            end
        end
  end.

(** [Math.round(totalDistance * 100) / 100]. *)
Definition round2 (totalDistance : Q) : Q :=
  inject_Z (JS.Math_round (totalDistance * 100)) / 100.

(** [reconstructPath(cameFrom, startId, goalId, totalDistance)]. *)
Definition reconstructPath (this : PathFinder)
    (cameFrom : gmap Z (Z * EdgeInfo.t)) (startId goalId : Z)
    (totalDistance : Q) : Outcome :=
  match walk_back (S (size cameFrom)) this cameFrom startId goalId [] with
  | WalkDiverges => Diverges
  | WalkThrows => Throws
  | WalkDone path =>
      match nodesCache this !! startId with
      | None => Throws
      | Some startNode =>
          let path := reverse (path ++ [step_start startNode]) in
          Success {| path := path;
                     total_distance := round2 totalDistance;
                     num_nodes := length path;
                     start := head path;
                     goal := last path |}
      end
  end.

(** *** The A* search of [findPath] *)

(** The local data structures of one call. *)
Record SearchState := mkSearchState {
  openSet : MinHeap;
  cameFrom : gmap Z (Z * EdgeInfo.t);
  gScore : gmap Z Q;
  fScore : gmap Z Q;
  visited : gset Z
}.

(** [gScore.get(id)] read as a number.  The source reads it for ids taken
    from the open set (and for the goal once it has been popped), which are
    keys of [gScore] (invariant [search_inv], lemma [search_inv_gScore]);
    the value on a missing key is never used. *)
Definition gScore_get (gScore : gmap Z Q) (id : Z) : Q :=
  default 0 (gScore !! id).

(** [!gScore.has(neighborId) || tentativeG < gScore.get(neighborId)]. *)
Definition improves (gScore : gmap Z Q) (neighborId : Z) (tentativeG : Q) : bool :=
  match gScore !! neighborId with
  | None => true
  | Some g => JS.ltb tentativeG g
  end.

(** The body of [for (const edgeInfo of neighbors)]. *)
Definition relax (this : PathFinder) (goalId : Z) (avoidStairs : bool)
    (currentId : Z) (st : SearchState) (edgeInfo : EdgeInfo.t) : SearchState :=
  let neighborId := EdgeInfo.to edgeInfo in
  if avoidStairs && EdgeInfo.is_staircase edgeInfo then st
  else
    let tentativeG := gScore_get (gScore st) currentId + EdgeInfo.distance edgeInfo in
    if improves (gScore st) neighborId tentativeG then
      let f := tentativeG + heuristic this neighborId goalId in
      {| openSet := push f neighborId (openSet st);
         cameFrom := <[neighborId := (currentId, edgeInfo)]> (cameFrom st);
         gScore := <[neighborId := tentativeG]> (gScore st);
         fScore := <[neighborId := f]> (fScore st);
         visited := visited st |}
    else st.

(** How the [while (!openSet.isEmpty())] loop ends: at the [return] inside
    it, with the state at that point, or by falling out of it. *)
Inductive SearchResult :=
  | GoalReached (st : SearchState)
  | OpenSetEmpty
  | OutOfFuel.

(** The [while (!openSet.isEmpty())] loop, one iteration per unit of fuel.
    The loop condition is read off [pop], which returns [null] exactly on the
    empty queue (lemma [isEmpty_pop]).  With [search_fuel] the fuel never
    runs out (lemma [search_loop_total]). *)
Fixpoint search_loop (fuel : nat) (this : PathFinder) (goalId : Z)
    (avoidStairs : bool) (st : SearchState) : SearchResult :=
  match fuel with
  | O => OutOfFuel
  | S fuel' =>
      match pop (openSet st) with
      | None => OpenSetEmpty
      | Some (entry, rest) =>
          let currentId := value entry in
          if decide (currentId ∈ visited st) then
            search_loop fuel' this goalId avoidStairs
              {| openSet := rest; cameFrom := cameFrom st; gScore := gScore st;
                 fScore := fScore st; visited := visited st |}
          else
            let st :=
              {| openSet := rest; cameFrom := cameFrom st; gScore := gScore st;
                 fScore := fScore st; visited := {[currentId]} ∪ visited st |} in
            if decide (currentId = goalId) then GoalReached st
            else
              let neighbors := default [] (graph this !! currentId) in
              search_loop fuel' this goalId avoidStairs
                (foldl (relax this goalId avoidStairs currentId) st neighbors)
      end
  end.

(** The adjacency options of the nodes that are not yet finalized, counted.
    Only the first pop of a node pushes, and at most one entry per option of
    that node. *)
Definition pending (g : gmap Z (list EdgeInfo.t)) (visited : gset Z) : nat :=
  sum_list_with (fun kv : Z * list EdgeInfo.t => length kv.2)
    (filter (fun kv : Z * list EdgeInfo.t => kv.1 ∉ visited) (map_to_list g)).

(** A bound on the iterations of the search loop: the start entry, one
    entry per adjacency option, and the last test of the loop condition. *)
Definition search_fuel (this : PathFinder) : nat :=
  (2 + pending (graph this) ∅)%nat.

(** The state before the loop. *)
Definition initial_state (this : PathFinder) (startId goalId : Z) : SearchState :=
  {| openSet := push 0 startId [];
     cameFrom := ∅;
     gScore := {[startId := 0]};
     fScore := {[startId := heuristic this startId goalId]};
     visited := ∅ |}.

(** The snapshot a call works on: built first if [!this.initialized]. *)
Definition ensure_built (this : PathFinder) (db : DataLayer) : PathFinder :=
  if initialized this then this else buildGraph this db.

(** The three messages of [{ error: ... }]. *)
Definition start_not_found (startCode : string) : string :=
  "Start node not found: " +:+ startCode.

Definition goal_not_found (goalCode : string) : string :=
  "Goal node not found: " +:+ goalCode.

Definition no_path_found : string :=
  "No path found between the specified nodes".

(** The search of [findPath] once both codes are resolved. *)
Definition search (this : PathFinder) (startId goalId : Z) (avoidStairs : bool)
    : Outcome :=
  match search_loop (search_fuel this) this goalId avoidStairs
          (initial_state this startId goalId) with
  | GoalReached st =>
      reconstructPath this (cameFrom st) startId goalId
        (gScore_get (gScore st) goalId)
  | OpenSetEmpty => Error no_path_found
  | OutOfFuel => Diverges
  end.

(** [findPath(startCode, goalCode, avoidStairs)]: the engine after the call
    and what the call does. *)
Definition findPath (this : PathFinder) (db : DataLayer)
    (startCode goalCode : string) (avoidStairs : bool) : PathFinder * Outcome :=
  let this := ensure_built this db in
  let startNode := Nodes_findOne db startCode in
  let goalNode := Nodes_findOne db goalCode in
  match startNode, goalNode with
  | None, _ => (this, Error (start_not_found startCode))
  | Some _, None => (this, Error (goal_not_found goalCode))
  | Some startNode, Some goalNode =>
      (this, search this (Nodes.node_id startNode) (Nodes.node_id goalNode)
               avoidStairs)
  end.

(** The two error objects of the interface, by name. *)
Definition NodeNotFound (o : Outcome) : Prop :=
  exists code, o = Error (start_not_found code) \/ o = Error (goal_not_found code).

Definition NoPathFound (o : Outcome) : Prop := o = Error no_path_found.

(** *** Compass words *)

Definition directions : list string :=
  [ "North"; "North-Northeast"; "Northeast"; "East-Northeast";
    "East"; "East-Southeast"; "Southeast"; "South-Southeast";
    "South"; "South-Southwest"; "Southwest"; "West-Southwest";
    "West"; "West-Northwest"; "Northwest"; "North-Northwest" ].

(** [directions[index]] for an integer-valued [index]; [None] is
    [undefined]. *)
Definition array_get {A} (l : list A) (index : Z) : option A :=
  if (index <? 0)%Z then None else l !! Z.to_nat index.

(** [Math.floor((angle + 11.25) / 22.5) % 16]: on integers [%] is the
    remainder that takes the sign of the dividend. *)
Definition compass_index (angle : Q) : Z :=
  Z.rem (JS.Math_floor ((angle + (1125 # 100)) / (225 # 10))) 16.

(** [compassToDirection(angle)]. *)
Definition compassToDirection (angle : Q) : option string :=
  array_get directions (compass_index angle).

(** *** Routes in a snapshot *)

(** An adjacency option the search may follow in this call: any option, or
    with [avoidStairs] only those that are not staircases. *)
Definition traversable (avoidStairs : bool) (o : EdgeInfo.t) : Prop :=
  avoidStairs && EdgeInfo.is_staircase o = false.

(** [route g avoidStairs a b]: node [b] can be reached from node [a] by
    following traversable adjacency options of the graph [g]. *)
Inductive route (g : gmap Z (list EdgeInfo.t)) (avoidStairs : bool) (a : Z)
    : Z -> Prop :=
  | route_here : route g avoidStairs a a
  | route_step b l o :
      route g avoidStairs a b ->
      g !! b = Some l -> o ∈ l -> traversable avoidStairs o ->
      route g avoidStairs a (EdgeInfo.to o).

(** What the search loop maintains: every node in the open set can be
    reached from the start and has a [gScore]; every predecessor link is a
    traversable adjacency option of the graph that leads to its key. *)
Definition search_inv (this : PathFinder) (startId : Z) (avoidStairs : bool)
    (st : SearchState) : Prop :=
  (forall e, e ∈ openSet st ->
     route (graph this) avoidStairs startId (value e) /\
     is_Some (gScore st !! value e)) /\
  (forall n prev o, cameFrom st !! n = Some (prev, o) ->
     traversable avoidStairs o /\ EdgeInfo.to o = n /\
     exists l, graph this !! prev = Some l /\ o ∈ l).

(** *** The predecessor chain of [reconstructPath] *)

(** One iteration of the [while] loop of [reconstructPath] that goes on:
    from [currentId] to [prev]. *)
Definition walk_next (this : PathFinder) (cameFrom : gmap Z (Z * EdgeInfo.t))
    (startId currentId : Z) : option Z :=
  if decide (currentId = startId) then None
  else
    match cameFrom !! currentId with
    | None => None
    | Some (prev, _) =>
        match nodesCache this !! currentId with
        | None => None
        | Some _ => Some prev
        end
    end.

(** The node the loop is at after [n] iterations that all went on. *)
Fixpoint walk_chain (this : PathFinder) (cameFrom : gmap Z (Z * EdgeInfo.t))
    (startId : Z) (n : nat) (currentId : Z) : option Z :=
  match n with
  | O => Some currentId
  | S n' =>
      match walk_next this cameFrom startId currentId with
      | None => None
      | Some prev => walk_chain this cameFrom startId n' prev
      end
  end.

(** What the search loop maintains between iterations, for completeness:
    the start has a [gScore]; every node with a [gScore] is finalized or
    still in the open set; every traversable option of a finalized node
    leads to a node with a [gScore]; the goal is not finalized. *)
Definition search_closed (this : PathFinder) (startId goalId : Z)
    (avoidStairs : bool) (st : SearchState) : Prop :=
  is_Some (gScore st !! startId) /\
  (forall n, is_Some (gScore st !! n) ->
     n ∈ visited st \/ exists e, e ∈ openSet st /\ value e = n) /\
  (forall v l o, v ∈ visited st -> graph this !! v = Some l -> o ∈ l ->
     traversable avoidStairs o -> is_Some (gScore st !! EdgeInfo.to o)) /\
  goalId ∉ visited st.

(** *** Costs along the search *)

(** The heuristic never overestimates one step: for every option of the
    snapshot the search may follow, the estimate at its source is at most
    its distance plus the estimate at its target. *)
Definition consistent_heuristic (this : PathFinder) (goalId : Z)
    (avoidStairs : bool) : Prop :=
  forall v l o, graph this !! v = Some l -> o ∈ l -> traversable avoidStairs o ->
    heuristic this v goalId <=
      EdgeInfo.distance o + heuristic this (EdgeInfo.to o) goalId.

(** The cost bookkeeping between iterations, with [B] the priority of the
    last node finalized: the open set is heap ordered and holds nothing
    below [B]; finalized nodes have estimated totals at most [B]; a node
    with a [gScore] that is not finalized has an entry at its current
    estimate; no entry is below the current estimate of its node. *)
Definition astar_inv (this : PathFinder) (goalId : Z) (B : Q)
    (st : SearchState) : Prop :=
  heap_ok (openSet st) /\
  (forall e, e ∈ openSet st -> B <= priority e) /\
  (forall v, v ∈ visited st ->
     exists g, gScore st !! v = Some g /\ g + heuristic this v goalId <= B) /\
  (forall n g, gScore st !! n = Some g -> n ∉ visited st ->
     exists e, e ∈ openSet st /\ value e = n /\
       priority e <= g + heuristic this n goalId) /\
  (forall e, e ∈ openSet st ->
     exists g, gScore st !! value e = Some g /\
       g + heuristic this (value e) goalId <= priority e).

(** The predecessor links between iterations, once the start is
    finalized: the start has cost 0 and no predecessor; every other node
    with a [gScore] has one; and the cost of a node is the cost of its
    predecessor plus the distance of the option taken. *)
Definition chain_inv (startId : Z) (st : SearchState) : Prop :=
  gScore st !! startId = Some 0 /\
  cameFrom st !! startId = None /\
  startId ∈ visited st /\
  (forall n g, gScore st !! n = Some g -> n <> startId ->
     is_Some (cameFrom st !! n)) /\
  (forall n prev o, cameFrom st !! n = Some (prev, o) ->
     prev ∈ visited st /\
     exists gp, gScore st !! prev = Some gp /\
       gScore st !! n = Some (gp + EdgeInfo.distance o)).

(** The state after the first iteration has added the start to [visited]. *)
Definition start_finalized (this : PathFinder) (startId goalId : Z)
    : SearchState :=
  {| openSet := [];
     cameFrom := ∅;
     gScore := {[startId := 0]};
     fScore := {[startId := heuristic this startId goalId]};
     visited := {[startId]} ∪ ∅ |}.

(** ** Vocabulary of the properties *)

(** The ids of the nodes in the data layer. *)
Definition node_ids (db : DataLayer) : list Z :=
  Nodes.node_id <$> nodes_table db.

(** The option [buildGraph] pushes on the list of [from_node_id]. *)
Definition forward_option (edge : Edges.row) : EdgeInfo.t :=
  EdgeInfo.mk (Edges.to_node_id edge) (Edges.distance edge)
    (Edges.compass_angle edge) (Edges.is_staircase edge) (Edges.edge_id edge).

(** The option [buildGraph] pushes on the list of [to_node_id]. *)
Definition reverse_option (edge : Edges.row) : EdgeInfo.t :=
  EdgeInfo.mk (Edges.from_node_id edge) (Edges.distance edge)
    (reverseAngle (Edges.compass_angle edge)) (Edges.is_staircase edge)
    (Edges.edge_id edge).

(** The adjacency list of [id] in the snapshot holds the option [o]. *)
Definition has_option (this : PathFinder) (id : Z) (o : EdgeInfo.t) : Prop :=
  exists l, graph this !! id = Some l /\ o ∈ l.

(** A walk in the snapshot graph: the adjacency options taken, in order. *)
Inductive walk (g : gmap Z (list EdgeInfo.t)) (a : Z)
    : list EdgeInfo.t -> Z -> Prop :=
  | walk_nil : walk g a [] a
  | walk_snoc os b l o :
      walk g a os b -> g !! b = Some l -> o ∈ l ->
      walk g a (os ++ [o]) (EdgeInfo.to o).

(** The id occurs nowhere in the snapshot: it has no cache entry, no
    adjacency list, and no adjacency option leads to it. *)
Definition absent_from_snapshot (this : PathFinder) (id : Z) : Prop :=
  nodesCache this !! id = None /\
  graph this !! id = None /\
  forall k l o, graph this !! k = Some l -> o ∈ l -> EdgeInfo.to o <> id.

(** The index of the compass word in the words of the specification:
    [floor((angle + 11.25) / 22.5) mod 16]. *)
Definition spec_compass_index (angle : Q) : Z :=
  (Qfloor ((angle + (1125 # 100)) / (225 # 10)) mod 16)%Z.

(** Summed step distances of a path. *)
Definition sum_distances (steps : list Step.t) : Q :=
  foldr (fun s acc => Step.distance_from_prev s + acc) 0 steps.

(** [a mod b] in the words of the specification: the floored remainder. *)
Definition spec_mod (a b : Q) : Q := a - b * inject_Z (Qfloor (a / b)).

(** Every adjacency option joins two cached nodes and is at least as long
    as the heuristic's guess for the floors between them. *)
Definition floors_respected (this : PathFinder) : Prop :=
  forall v l o, graph this !! v = Some l -> o ∈ l ->
    exists nodeA nodeB,
      nodesCache this !! v = Some nodeA /\
      nodesCache this !! EdgeInfo.to o = Some nodeB /\
      inject_Z (Z.abs (Nodes.floor_level nodeA - Nodes.floor_level nodeB)) * 4
        <= EdgeInfo.distance o.

(** ** Concrete data *)

(** A node row with only the columns the search looks at filled in. *)
Definition plain_node (id : Z) (code : string) (floor : Z) : Nodes.row :=
  Nodes.mk id code code "Main" floor "room" None None None.

(** An active edge row. *)
Definition plain_edge (id fromId toId : Z) (distance angle : Q)
    (staircase : bool) : Edges.row :=
  Edges.mk id fromId toId distance angle staircase true.

(** Nodes [A] (floor 0), [B] (floor 0), [C] (floor 1); edges [A -> B] of
    distance 10 at 90 degrees and [B -> C] of distance 5 at 0 degrees, a
    staircase. *)
Definition scenario_db : DataLayer :=
  {| nodes_table := [plain_node 1 "A" 0; plain_node 2 "B" 0; plain_node 3 "C" 1];
     edges_table := [plain_edge 1 1 2 10 90 false; plain_edge 2 2 3 5 0 true] |}.

(** Nodes [S], [Y], [G] on floor 0 and [X] on floor 1; [S - X] and [X - Y]
    are stairs of distance 1, [S - Y] has distance 3, [Y - G] distance 10. *)
Definition short_stairs_db : DataLayer :=
  {| nodes_table := [plain_node 1 "S" 0; plain_node 2 "X" 1;
                     plain_node 3 "Y" 0; plain_node 4 "G" 0];
     edges_table := [plain_edge 1 1 2 1 0 true; plain_edge 2 2 3 1 0 true;
                     plain_edge 3 1 3 3 0 false; plain_edge 4 3 4 10 0 false] |}.

(** The data layer when the snapshot was built, and after node [B] was
    added to it with no [reset()] in between. *)
Definition db_before : DataLayer :=
  {| nodes_table := [plain_node 1 "A" 0]; edges_table := [] |}.

Definition db_after : DataLayer :=
  {| nodes_table := [plain_node 1 "A" 0; plain_node 2 "B" 0];
     edges_table := [] |}.

Definition stale_engine : PathFinder := buildGraph new_PathFinder db_before.

(** ** Further vocabulary *)

(** What the search loop maintains about the predecessor links: every node
    in the open set, and every predecessor, is the start or has a
    predecessor of its own. *)
Definition link_inv (startId : Z) (st : SearchState) : Prop :=
  (forall e, e ∈ openSet st ->
     value e = startId \/ is_Some (cameFrom st !! value e)) /\
  (forall n prev o, cameFrom st !! n = Some (prev, o) ->
     prev = startId \/ is_Some (cameFrom st !! prev)).

(** The step [s] of a path is the one [reconstructPath] makes for the
    adjacency option [o]: the cached node the option leads to, with the
    distance, angle and staircase flag of the option. *)
Definition step_of_option (this : PathFinder) (s : Step.t) (o : EdgeInfo.t)
    : Prop :=
  exists node, nodesCache this !! EdgeInfo.to o = Some node /\
    s = step_via node o.

(** Summed distances of a list of adjacency options. *)
Definition option_cost (os : list EdgeInfo.t) : Q :=
  foldr (fun o acc => EdgeInfo.distance o + acc) 0 os.

(** Every traversable option of a node in [done] has been relaxed: its
    target has a cost, at most the cost of the node plus its distance. *)
Definition relaxed_on (this : PathFinder) (avoidStairs : bool)
    (done : gset Z) (st : SearchState) : Prop :=
  forall v l o, v ∈ done -> graph this !! v = Some l -> o ∈ l ->
    traversable avoidStairs o ->
    exists gv gx, gScore st !! v = Some gv /\
      gScore st !! EdgeInfo.to o = Some gx /\
      gx <= gv + EdgeInfo.distance o.

(** Popping until the queue is empty, as a client of [pop()] and
    [isEmpty()] does: the entries in the order they come out.  [fuel] bounds
    the number of pops; the length of the array is enough. *)
Fixpoint drain (fuel : nat) (h : MinHeap) : list Entry :=
  match fuel with
  | O => []
  | S fuel' =>
      match pop h with
      | None => []
      | Some (e, rest) => e :: drain fuel' rest
      end
  end.

(** The entries of a list come in non-decreasing priority. *)
Definition by_priority (l : list Entry) : Prop :=
  StronglySorted (fun a b => priority a <= priority b) l.

(** The size of the queue after one call, counted without the queue. *)
Definition count_op (n : nat) (o : HeapOp) : nat :=
  match o with
  | OpPush _ _ => S n
  | OpPop => Nat.pred n
  end.

(** What one edge row puts on the adjacency list of node [k]: the forward
    option if the edge leaves [k], then the reverse option if it arrives
    at [k]. *)
Definition options_of_edge (k : Z) (edge : Edges.row) : list EdgeInfo.t :=
  (if decide (Edges.from_node_id edge = k) then [forward_option edge] else []) ++
  (if decide (Edges.to_node_id edge = k) then [reverse_option edge] else []).

(** The same over a list of edge rows, in the order of the rows. *)
Definition options_of (k : Z) (edges : list Edges.row) : list EdgeInfo.t :=
  flat_map (options_of_edge k) edges.

(** The number of ends of an edge row that are rows of the node table. *)
Definition known_ends (db : DataLayer) (edge : Edges.row) : nat :=
  ((if decide (Edges.from_node_id edge ∈ node_ids db) then 1 else 0) +
   (if decide (Edges.to_node_id edge ∈ node_ids db) then 1 else 0))%nat.

(** The number of options of a snapshot, over all its adjacency lists. *)
Definition num_options (this : PathFinder) : nat := pending (graph this) ∅.

(** No active edge row of the data layer has node [k] at either end. *)
Definition isolated (db : DataLayer) (k : Z) : Prop :=
  forall edge, edge ∈ edges_table db -> Edges.is_active edge = true ->
    Edges.from_node_id edge <> k /\ Edges.to_node_id edge <> k.

(** The predecessor links never close a cycle: along every link the cost
    does not grow, and where it stays the same the time [stamp] of the last
    update goes down.  The start keeps cost 0 and gets no predecessor. *)
Definition rank_inv (startId : Z) (stamp : Z -> nat) (st : SearchState) : Prop :=
  gScore st !! startId = Some 0 /\
  cameFrom st !! startId = None /\
  (forall n g, gScore st !! n = Some g -> 0 <= g) /\
  (forall n prev o, cameFrom st !! n = Some (prev, o) ->
     exists gn gp, gScore st !! n = Some gn /\ gScore st !! prev = Some gp /\
       gp <= gn /\ (gp < gn \/ (stamp prev < stamp n)%nat)).

(** No option of the snapshot has a negative distance. *)
Definition distances_nonneg (this : PathFinder) : Prop :=
  forall v l o, graph this !! v = Some l -> o ∈ l -> 0 <= EdgeInfo.distance o.

(** Every node with an adjacency list is in the node cache. *)
Definition lists_cached (this : PathFinder) : Prop :=
  forall k, is_Some (graph this !! k) -> is_Some (nodesCache this !! k).

(** Every option of the snapshot that leads to a node with an adjacency
    list has a counterpart there that leads back, with the same distance
    and the same staircase flag. *)
Definition two_way (this : PathFinder) : Prop :=
  forall v l o, graph this !! v = Some l -> o ∈ l ->
    is_Some (graph this !! EdgeInfo.to o) ->
    exists l' o', graph this !! EdgeInfo.to o = Some l' /\ o' ∈ l' /\
      EdgeInfo.to o' = v /\
      EdgeInfo.distance o' = EdgeInfo.distance o /\
      EdgeInfo.is_staircase o' = EdgeInfo.is_staircase o.

(** No active edge row of the data layer has a negative distance. *)
Definition edges_nonneg (db : DataLayer) : Prop :=
  forall edge, edge ∈ edges_table db -> Edges.is_active edge = true ->
    0 <= Edges.distance edge.

(** *** Where the arithmetic of the model is that of JavaScript

    The model adds, multiplies and divides exactly; JavaScript's numbers
    round every result to 53 significant bits.  The two agree as long as
    the numbers are whole and stay below [2^53], or are multiples of a
    quarter of moderate size. *)

(** Distances are whole numbers up to [2^24], floor levels are within
    [2^24] of 0, and the snapshot has at most [2^20] options.  A cost of the
    search is the sum of the distances of options that are all different,
    so every cost, every estimate and one hundred times every cost is a
    whole number below [2^53]. *)
Definition whole_metres (this : PathFinder) : Prop :=
  (Z.of_nat (num_options this) <= 2 ^ 20)%Z /\
  (forall v l o, graph this !! v = Some l -> o ∈ l ->
     exists n : Z, EdgeInfo.distance o == inject_Z n /\ (0 <= n <= 2 ^ 24)%Z) /\
  (forall k node, nodesCache this !! k = Some node ->
     (Z.abs (Nodes.floor_level node) <= 2 ^ 24)%Z).

(** An angle that is a multiple of a quarter of a degree: its sums with
    180 and with 11.25 are exact, and its quotient by 22.5 is a whole
    number or at least 1/90 away from one. *)
Definition quarter_degrees (angle : Q) : Prop :=
  exists m : Z, angle == inject_Z m * (1 # 4).

(** ** Directions *)

(** What a call of [getDirections] can do: return the result object of
    [findPath] with [directions] added, return the error object of
    [findPath] as it is, throw, or never return. *)
Inductive DirectionsOutcome :=
  | WithDirections (r : PathResult) (directions : list string)
  | DirectionsError (msg : string)
  | DirectionsThrows
  | DirectionsDiverges.

Section directions.

(** The rendering of numbers is left open: [toFixed x digits] stands for
    [x.toFixed(digits)] and [show n] for the integer [n] inside a template
    literal.  [decimal_toFixed] and [decimal_show] below are the renderings
    of JavaScript for numbers under [10^21]. *)
Variable toFixed : Q -> nat -> string.
Variable show : Z -> string.

(** [compassDir] inside the template literal: [undefined] prints as
    its name. *)
Definition compass_word (compass_angle : option Q) : string :=
  match compass_angle with
  | Some angle => default "undefined" (compassToDirection angle)
  | None => "forward"
  end.

(** The line pushed for [i === 0]. *)
Definition start_line (step : Step.t) : string :=
  "Start at " +:+ Step.name step +:+ " (" +:+ Step.building step +:+
  ", Floor " +:+ show (Step.floor_level step) +:+ ")".

(** The line pushed for every other [i]. *)
Definition go_line (step : Step.t) : string :=
  let compassDir := compass_word (Step.compass_angle step) in
  let stairInfo := if Step.is_staircase step then " via stairs" else "" in
  let angle :=
    match Step.compass_angle step with
    | Some a => toFixed a 0
    | None => "0"
    end in
  "Go " +:+ compassDir +:+ " (" +:+ angle +:+ "°) for " +:+
  toFixed (Step.distance_from_prev step) 1 +:+ "m" +:+ stairInfo +:+
  " to " +:+ Step.name step.

(** The loop [for (let i = 0; i < result.path.length; i++)], from index
    [i] on. *)
Fixpoint direction_lines (i : nat) (path : list Step.t) : list string :=
  match path with
  | [] => []
  | step :: rest =>
      (match i with O => start_line step | S _ => go_line step end)
        :: direction_lines (S i) rest
  end.

(** [getDirections(startCode, goalCode, avoidStairs)]: the engine after
    the call and what the call does.  The messages of the error objects are
    not empty, so [result.error] is truthy exactly on them. *)
Definition getDirections (this : PathFinder) (db : DataLayer)
    (startCode goalCode : string) (avoidStairs : bool)
    : PathFinder * DirectionsOutcome :=
  let (this, result) := findPath this db startCode goalCode avoidStairs in
  match result with
  | Error msg => (this, DirectionsError msg)
  | Success r => (this, WithDirections r (direction_lines 0 (path r)))
  | Throws => (this, DirectionsThrows)
  | Diverges => (this, DirectionsDiverges)
  end.

End directions.

(** *** Numbers as JavaScript prints them, under [10^21] *)

(** An integer inside a template literal. *)
Definition decimal_show (n : Z) : string := pretty n.

(** [digits] decimal digits of the natural number [n], zeros in front. *)
Fixpoint decimal_digits (digits : nat) (n : Z) : string :=
  match digits with
  | O => ""
  | S digits' =>
      decimal_digits digits' (n / 10) +:+ pretty (n mod 10)%Z
  end.

(** [x.toFixed(digits)]: the sign, then the integer [n] for which
    [n / 10^digits] is nearest to [|x|] (the larger one of two), written
    with [digits] digits after the point. *)
Definition decimal_toFixed (x : Q) (digits : nat) : string :=
  let scale := (10 ^ Z.of_nat digits)%Z in
  let n := Qfloor (Qabs x * inject_Z scale + (1 # 2)) in
  let sign := if JS.ltb x 0 then "-" else "" in
  let whole := pretty (n / scale)%Z in
  match digits with
  | O => sign +:+ whole
  | S _ => sign +:+ whole +:+ "." +:+ decimal_digits digits (n mod scale)
  end.

(** ** The handlers of [POST /find-path]

    [routes/mobileApi.js] and the internal web API.  A request is the part
    of [req] the handlers read, for a JSON body whose codes are strings or
    missing and whose [avoid_stairs] is a boolean or missing; [None] is
    [undefined]. *)

(** Truthiness of a string that may be missing: the empty string is
    falsy. *)
Definition truthy (s : option string) : bool :=
  match s with
  | Some EmptyString => false
  | Some _ => true
  | None => false
  end.

Module MobileRequest.

Record t := mk {
  protocol : string;
  host : string;
  start_code : option string;
  goal_code : option string;
  avoid_stairs : option bool
}.

End MobileRequest.

(** A step of the path as the mobile handler sends it: [image360] is
    overwritten and [has_360_image] is added. *)
Module MobileStep.

Record t := mk {
  step : Step.t;
  image360 : option string;
  has_360_image : bool
}.

End MobileStep.

(** [{ success: true, ...result }] after the loop over [result.path];
    [start] and [goal] are the objects [path[0]] and [path[path.length - 1]]
    themselves, so they change with them. *)
Record MobileResult := mkMobileResult {
  mobile_path : list MobileStep.t;
  mobile_total_distance : Q;
  mobile_num_nodes : nat;
  mobile_start : option MobileStep.t;
  mobile_goal : option MobileStep.t;
  mobile_directions : list string
}.

(** What the mobile handler answers: [{ success: false, error }] with a
    status, the result with status 200, the answer of the [catch] block
    (status 500, with the message of the exception), or nothing if the call
    never returns. *)
Inductive MobileResponse :=
  | MobileFailure (status : nat) (error : string)
  | MobileFound (r : MobileResult)
  | MobileCaught
  | MobileNoResponse.

Definition mobile_status (resp : MobileResponse) : option nat :=
  match resp with
  | MobileFailure status _ => Some status
  | MobileFound _ => Some 200%nat
  | MobileCaught => Some 500%nat
  | MobileNoResponse => None
  end.

Module WebRequest.

Record t := mk {
  start : option string;
  goal : option string;
  avoid_stairs : option bool
}.

End WebRequest.

(** What the web handler answers: [{ error }] with a status, the result
    object of [getDirections] with status 200, the answer of the [catch]
    block (status 500), or nothing. *)
Inductive WebResponse :=
  | WebError (status : nat) (error : string)
  | WebFound (r : PathResult) (directions : list string)
  | WebCaught
  | WebNoResponse.

Section handlers.

(** [String.prototype.trim] and the rendering of numbers are left open. *)
Variable trim : string -> string.
Variable toFixed : Q -> nat -> string.
Variable show : Z -> string.

(** [buildUrl(req, path)]. *)
Definition buildUrl (req : MobileRequest.t) (path : option string)
    : option string :=
  if negb (truthy path) || negb (truthy (trim <$> path)) then None
  else
    match path with
    | None => None
    | Some path =>
        if String.prefix "http://" path || String.prefix "https://" path
        then Some path
        else Some (MobileRequest.protocol req +:+ "://" +:+
                   MobileRequest.host req +:+ "/media/" +:+ path)
    end.

(** The body of [for (const node of result.path)]. *)
Definition decorate (req : MobileRequest.t) (node : Step.t) : MobileStep.t :=
  {| MobileStep.step := node;
     MobileStep.has_360_image :=
       truthy (Step.image360 node) && truthy (trim <$> Step.image360 node);
     MobileStep.image360 := buildUrl req (Step.image360 node) |}.

(** [router.post('/find-path', ...)] of the mobile API, on the module
    variable [pathfinderInstance] of the engine: the variable after the
    request and the answer.  The instance [getPathfinder()] hands out is the
    one the variable holds, so what [getDirections] does to it stays. *)
Definition mobile_find_path (pathfinderInstance : option PathFinder)
    (db : DataLayer) (req : MobileRequest.t)
    : option PathFinder * MobileResponse :=
  if negb (truthy (MobileRequest.start_code req)) ||
     negb (truthy (MobileRequest.goal_code req))
  then (pathfinderInstance,
        MobileFailure 400 "start_code and goal_code are required")
  else
    let start_code := default "" (MobileRequest.start_code req) in
    let goal_code := default "" (MobileRequest.goal_code req) in
    let (pathfinder, _) := getPathfinder pathfinderInstance in
    let (pathfinder, result) :=
      getDirections toFixed show pathfinder db start_code goal_code
        (default false (MobileRequest.avoid_stairs req)) in
    match result with
    | DirectionsError error => (Some pathfinder, MobileFailure 404 error)
    | WithDirections r directions =>
        let path := decorate req <$> path r in
        (Some pathfinder,
         MobileFound {| mobile_path := path;
                        mobile_total_distance := total_distance r;
                        mobile_num_nodes := num_nodes r;
                        mobile_start := head path;
                        mobile_goal := last path;
                        mobile_directions := directions |})
    | DirectionsThrows => (Some pathfinder, MobileCaught)
    | DirectionsDiverges => (Some pathfinder, MobileNoResponse)
    end.

(** [router.post('/find-path', ...)] of the internal web API, which sends
    whatever [getDirections] returns. *)
Definition web_find_path (pathfinderInstance : option PathFinder)
    (db : DataLayer) (req : WebRequest.t)
    : option PathFinder * WebResponse :=
  if negb (truthy (WebRequest.start req)) ||
     negb (truthy (WebRequest.goal req))
  then (pathfinderInstance, WebError 400 "Start and goal codes required")
  else
    let start := default "" (WebRequest.start req) in
    let goal := default "" (WebRequest.goal req) in
    let (pathfinder, _) := getPathfinder pathfinderInstance in
    let (pathfinder, result) :=
      getDirections toFixed show pathfinder db start goal
        (default false (WebRequest.avoid_stairs req)) in
    match result with
    | DirectionsError error => (Some pathfinder, WebError 200 error)
    | WithDirections r directions =>
        (Some pathfinder, WebFound r directions)
    | DirectionsThrows => (Some pathfinder, WebCaught)
    | DirectionsDiverges => (Some pathfinder, WebNoResponse)
    end.

End handlers.

(** Nodes [A], [B] and [D] on floor 0 with one edge [A -> B]: no edge
    touches [D]. *)
Definition lonely_db : DataLayer :=
  {| nodes_table := [plain_node 1 "A" 0; plain_node 2 "B" 0; plain_node 4 "D" 0];
     edges_table := [plain_edge 1 1 2 10 90 false] |}.

(** The two options a walk from [A] to [C] takes in [scenario_db]. *)
Definition scenario_A_to_B : EdgeInfo.t := EdgeInfo.mk 2 10 90 false 1.
Definition scenario_B_to_C : EdgeInfo.t := EdgeInfo.mk 3 5 0 true 2.

(** Requests for the way from [A] to [C]. *)
Definition scenario_mobile_request : MobileRequest.t :=
  MobileRequest.mk "http" "campus.example" (Some "A") (Some "C") None.

Definition scenario_web_request : WebRequest.t :=
  WebRequest.mk (Some "A") (Some "C") None.

(** What the two handlers answer to the same codes: status 400 from both;
    the error object of [getDirections], sent with status 404 by the mobile
    handler and with status 200 by the web handler; or the same result,
    with the image fields rewritten by the mobile handler. *)
Definition same_answer (trim : string -> string) (req : MobileRequest.t)
    (web : WebResponse) (mobile : MobileResponse) : Prop :=
  match web, mobile with
  | WebError web_status web_error, MobileFailure mobile_status mobile_error =>
      (web_status = 400%nat /\ mobile_status = 400%nat) \/
      (web_status = 200%nat /\ mobile_status = 404%nat /\
       web_error = mobile_error)
  | WebFound r directions, MobileFound m =>
      mobile_path m = decorate trim req <$> path r /\
      mobile_total_distance m = total_distance r /\
      mobile_num_nodes m = num_nodes r /\
      mobile_directions m = directions
  | WebCaught, MobileCaught => True
  | WebNoResponse, MobileNoResponse => True
  | _, _ => False
  end.

(** ** Heap theory *)

Section heap_theory.
Implicit Types (h : MinHeap) (e x y : Entry).

Lemma ltb_true (a b : Q) : JS.ltb a b = true <-> a < b.
Proof.
  unfold JS.ltb. rewrite negb_true_iff, <- not_true_iff_false, Qle_bool_iff.
  split; [apply Qnot_le_lt | apply Qlt_not_le].
Qed.

Lemma ltb_false (a b : Q) : JS.ltb a b = false <-> b <= a.
Proof.
  unfold JS.ltb. rewrite negb_false_iff. apply Qle_bool_iff.
Qed.

Lemma leb_true (a b : Q) : JS.leb a b = true <-> a <= b.
Proof. apply Qle_bool_iff. Qed.

Lemma leb_false (a b : Q) : JS.leb a b = false <-> b < a.
Proof.
  unfold JS.leb. rewrite <- not_true_iff_false, Qle_bool_iff.
  split; [apply Qnot_le_lt | apply Qlt_not_le].
Qed.

Lemma parentOf_lt (j : nat) : (0 < j)%nat -> (parentOf j < j)%nat.
Proof. unfold parentOf. intros. apply Nat.Div0.div_lt_upper_bound. lia. Qed.

Lemma parentOf_child (i j : nat) :
  (0 < j)%nat -> parentOf j = i <-> j = (2 * i + 1)%nat \/ j = (2 * i + 2)%nat.
Proof.
  unfold parentOf. intros Hj.
  pose proof (Nat.div_mod_eq (j - 1) 2) as Hd.
  pose proof (Nat.mod_upper_bound (j - 1) 2 ltac:(lia)) as Hm.
  split.
  - intros <-. lia.
  - intros [-> | ->].
    + replace (2 * i + 1 - 1)%nat with (i * 2)%nat by lia.
      apply Nat.div_mul. lia.
    + replace (2 * i + 2 - 1)%nat with (1 + i * 2)%nat by lia.
      rewrite Nat.div_add by lia. reflexivity.
Qed.

(** *** Swapping two cells *)

Lemma swap_length h a b : length (swap h a b) = length h.
Proof.
  unfold swap. destruct (h !! a), (h !! b); rewrite ?length_insert; done.
Qed.

Lemma swap_lookup h a b x y k :
  h !! a = Some x -> h !! b = Some y ->
  swap h a b !! k =
    if decide (k = b) then Some x
    else if decide (k = a) then Some y else h !! k.
Proof.
  intros Ha Hb. unfold swap. rewrite Ha, Hb.
  pose proof (lookup_lt_Some _ _ _ Ha). pose proof (lookup_lt_Some _ _ _ Hb).
  repeat case_decide; subst.
  - rewrite list_lookup_insert_eq; [done | by rewrite length_insert].
  - rewrite list_lookup_insert_ne by done.
    by rewrite list_lookup_insert_eq.
  - by rewrite !list_lookup_insert_ne.
Qed.

Lemma insert_head_Permutation (l : list Entry) i y z :
  l !! i = Some y -> y :: <[i := z]> l ≡ₚ z :: l.
Proof.
  revert i. induction l as [|w l IH]; intros [|i] Hi; simplify_eq/=.
  - apply perm_swap.
  - rewrite perm_swap, (IH _ Hi). apply perm_swap.
Qed.

Lemma insert_insert_Permutation (l : list Entry) a b x y :
  l !! a = Some x -> l !! b = Some y -> <[b := x]> (<[a := y]> l) ≡ₚ l.
Proof.
  revert a b. induction l as [|w l IH]; intros [|a] [|b] Ha Hb; simplify_eq/=.
  - done.
  - by apply insert_head_Permutation.
  - symmetry. rewrite <- (insert_head_Permutation l a x y) at 1 by done.
    done.
  - by rewrite IH.
Qed.

Lemma swap_Permutation h a b : swap h a b ≡ₚ h.
Proof.
  unfold swap. destruct (h !! a) eqn:Ha, (h !! b) eqn:Hb; try done.
  by apply insert_insert_Permutation.
Qed.

(** *** [bubbleUp] and [bubbleDown] reorder, they neither add nor drop *)

Lemma bubbleUp_Permutation fuel h i : bubbleUp fuel h i ≡ₚ h.
Proof.
  revert h i. induction fuel as [|fuel IH]; intros h i; simpl; [done|].
  destruct (0 <? i)%nat; [|done].
  destruct (h !! parentOf i), (h !! i); try done.
  destruct (JS.leb _ _); [done|].
  by rewrite IH, swap_Permutation.
Qed.

Lemma bubbleDown_Permutation fuel h i : bubbleDown fuel h i ≡ₚ h.
Proof.
  revert h i. induction fuel as [|fuel IH]; intros h i; simpl; [done|].
  destruct (_ =? i)%nat; [done|].
  by rewrite IH, swap_Permutation.
Qed.

Lemma push_Permutation p v h : push p v h ≡ₚ mkEntry p v :: h.
Proof.
  unfold push. rewrite bubbleUp_Permutation.
  by rewrite Permutation_app_comm.
Qed.

Lemma push_on_empty p v : push p v [] = [mkEntry p v].
Proof. reflexivity. Qed.

Lemma push_length p v h : length (push p v h) = S (length h).
Proof. by rewrite push_Permutation. Qed.

Lemma pop_cons_cons m e' t :
  pop (m :: e' :: t) =
    match last (m :: e' :: t) with
    | Some l =>
        let h' := <[0%nat := l]> (take (length (m :: e' :: t) - 1) (m :: e' :: t)) in
        Some (m, bubbleDown (length h') h' 0)
    | None => None
    end.
Proof. reflexivity. Qed.

Lemma pop_None h : pop h = None <-> h = [].
Proof.
  destruct h as [|e [|e' t]]; [done..|].
  rewrite pop_cons_cons.
  destruct (last_is_Some (e :: e' :: t)) as [_ [l Hl]]; [done|].
  rewrite Hl. done.
Qed.

Lemma isEmpty_pop h : isEmpty h = true <-> pop h = None.
Proof. rewrite pop_None. by destruct h. Qed.

Lemma pop_root h e h' : pop h = Some (e, h') -> h !! 0%nat = Some e.
Proof.
  destruct h as [|m [|e' t]]; [done| |].
  - by intros [= -> _].
  - rewrite pop_cons_cons. destruct (last _); [|done]. by intros [= -> _].
Qed.

Lemma pop_Permutation h e h' : pop h = Some (e, h') -> h ≡ₚ e :: h'.
Proof.
  destruct h as [|m [|e' t]]; [done| |].
  - by intros [= -> <-].
  - rewrite pop_cons_cons.
    destruct (last (m :: e' :: t)) as [l|] eqn:Hl; [|done].
    cbv zeta. set (R := bubbleDown _ _ _). intros [= -> <-]. subst R.
    rewrite bubbleDown_Permutation.
    apply last_Some in Hl as [front Hfront].
    rewrite Hfront.
    replace (length (front ++ [l]) - 1)%nat with (length front)
      by (rewrite length_app; simpl; lia).
    rewrite take_app_length.
    destruct front as [|f front]; [by destruct t|].
    simpl. rewrite (Permutation_app_comm front [l]).
    simplify_eq/=. done.
Qed.

End heap_theory.

(** ** Heap order is preserved *)

Section heap_order.
Implicit Types (h : MinHeap) (e x y : Entry).

Lemma heap_ok_nil : heap_ok [].
Proof. intros j c p _ Hj. done. Qed.

Lemma bubbleUp_heap_ok fuel h i :
  (i <= fuel)%nat -> up_inv h i -> heap_ok (bubbleUp fuel h i).
Proof.
  revert h i. induction fuel as [|fuel IH]; intros h i Hfuel [Ha Hb].
  - intros j c p Hj Hc Hp. simpl in *. eapply Ha; eauto. lia.
  - simpl. destruct (Nat.ltb_spec 0 i) as [Hi|Hi].
    2:{ intros j c p Hj Hc Hp. eapply Ha; eauto. lia. }
    pose proof (parentOf_lt i Hi) as Hlt.
    destruct (h !! parentOf i) as [p|] eqn:Hp.
    2:{ intros j c q Hj Hc Hq. destruct (decide (j = i)) as [->|];
        [congruence | eauto]. }
    destruct (h !! i) as [c|] eqn:Hc.
    2:{ intros j d q Hj Hd Hq. destruct (decide (j = i)) as [->|];
        [congruence | eauto]. }
    destruct (JS.leb (priority p) (priority c)) eqn:Hle.
    { apply leb_true in Hle. intros j d q Hj Hd Hq.
      destruct (decide (j = i)) as [->|]; [|eauto]. by simplify_eq. }
    apply leb_false in Hle. apply IH; [lia|]. split.
    + intros j d q Hj Hne. rewrite !(swap_lookup _ _ _ _ _ _ Hp Hc).
      intros Hd Hq.
      destruct (decide (j = i)) as [->|Hji].
      { rewrite decide_False, decide_True in Hq by (done || lia).
        simplify_eq. by apply Qlt_le_weak. }
      rewrite decide_False in Hd by done.
      destruct (decide (parentOf j = i)) as [Hpj|Hpj].
      { simplify_eq. eapply Hb; eauto. }
      destruct (decide (parentOf j = parentOf i)) as [Hpp|Hpp].
      { simplify_eq. apply Qle_trans with (priority p).
        - by apply Qlt_le_weak.
        - apply (Ha j d p); [done | done | done | by rewrite Hpp]. }
      eauto.
    + intros j d g Hpi Hj Hpj. rewrite !(swap_lookup _ _ _ _ _ _ Hp Hc).
      intros Hd Hg.
      pose proof (parentOf_lt _ Hpi).
      rewrite !decide_False in Hg by lia.
      assert (priority g <= priority p) as Hgp
        by (apply (Ha (parentOf i) p g); [done | lia | done | done]).
      destruct (decide (j = i)) as [->|Hji]; [by simplify_eq|].
      pose proof (parentOf_lt j Hj).
      rewrite decide_False in Hd by lia.
      apply Qle_trans with (priority p); [done|].
      apply (Ha j d p); [done | done | done | by rewrite Hpj].
Qed.

Lemma push_up_inv p v h : heap_ok h -> up_inv (h ++ [mkEntry p v]) (length h).
Proof.
  intros Hok. split.
  - intros j c q Hj Hne Hc Hq.
    apply lookup_lt_Some in Hc as Hlen. rewrite length_app in Hlen.
    simpl in Hlen. pose proof (parentOf_lt j Hj).
    rewrite lookup_app_l in Hc, Hq by lia. eauto.
  - intros j c g _ Hj Hpj Hc.
    apply lookup_lt_Some in Hc as Hlen. rewrite length_app in Hlen.
    simpl in Hlen. pose proof (parentOf_lt j Hj). lia.
Qed.

Lemma push_heap_ok p v h : heap_ok h -> heap_ok (push p v h).
Proof.
  intros Hok. unfold push. apply bubbleUp_heap_ok; [done|].
  rewrite length_app. simpl.
  replace (length h + 1 - 1)%nat with (length h) by lia.
  by apply push_up_inv.
Qed.

End heap_order.

Section heap_order_down.
Implicit Types (h : MinHeap) (e x y : Entry).

Lemma bubbleDown_S fuel h i :
  bubbleDown (S fuel) h i =
    if (select_smallest h i =? i)%nat then h
    else bubbleDown fuel (swap h (select_smallest h i) i) (select_smallest h i).
Proof. reflexivity. Qed.

Lemma priority_lt_at_true h a b :
  priority_lt_at h a b = true <->
  exists x y, h !! a = Some x /\ h !! b = Some y /\ priority x < priority y.
Proof.
  unfold priority_lt_at. destruct (h !! a) as [x|], (h !! b) as [y|].
  - rewrite ltb_true. split; [eauto|]. by intros (? & ? & [= ->] & [= ->] & ?).
  - split; [done|]. by intros (? & ? & _ & ? & _).
  - split; [done|]. by intros (? & ? & ? & _).
  - split; [done|]. by intros (? & ? & ? & _).
Qed.

Lemma priority_lt_at_false h a b x y :
  priority_lt_at h a b = false ->
  h !! a = Some x -> h !! b = Some y -> priority y <= priority x.
Proof.
  unfold priority_lt_at. intros H Ha Hb. rewrite Ha, Hb in H.
  by apply ltb_false.
Qed.

(** What the two tests of [bubbleDown] establish. *)
Lemma select_smallest_spec h i :
  (select_smallest h i = i /\
   forall j c p, (0 < j)%nat -> parentOf j = i ->
     h !! j = Some c -> h !! i = Some p -> priority p <= priority c) \/
  (select_smallest h i <> i /\ parentOf (select_smallest h i) = i /\
   exists cs ci, h !! select_smallest h i = Some cs /\ h !! i = Some ci /\
     priority cs < priority ci /\
     forall j c, (0 < j)%nat -> parentOf j = i ->
       h !! j = Some c -> priority cs <= priority c).
Proof.
  unfold select_smallest.
  destruct (priority_lt_at h (2 * i + 1) i) eqn:Hl.
  - apply priority_lt_at_true in Hl as (cl & ci & Hcl & Hci & Hlt).
    destruct (priority_lt_at h (2 * i + 2) (2 * i + 1)) eqn:Hr.
    + apply priority_lt_at_true in Hr as (cr & cl' & Hcr & Hcl' & Hlt').
      simplify_eq. right. split; [lia|]. split.
      { apply parentOf_child; lia. }
      exists cr, ci. split_and!; [done | done | by eapply Qlt_trans |].
      intros j c Hj Hpj Hc. apply parentOf_child in Hpj as [-> | ->]; [| |done].
      * simplify_eq. by apply Qlt_le_weak.
      * simplify_eq. apply Qle_refl.
    + right. split; [lia|]. split.
      { apply parentOf_child; lia. }
      exists cl, ci. split_and!; [done | done | done |].
      intros j c Hj Hpj Hc. apply parentOf_child in Hpj as [-> | ->]; [| |done].
      * simplify_eq. apply Qle_refl.
      * eapply priority_lt_at_false; eauto.
  - destruct (priority_lt_at h (2 * i + 2) i) eqn:Hr.
    + apply priority_lt_at_true in Hr as (cr & ci & Hcr & Hci & Hlt).
      right. split; [lia|]. split.
      { apply parentOf_child; lia. }
      exists cr, ci. split_and!; [done | done | done |].
      intros j c Hj Hpj Hc. apply parentOf_child in Hpj as [-> | ->]; [| |done].
      * apply Qle_trans with (priority ci); [by apply Qlt_le_weak|].
        eapply priority_lt_at_false; eauto.
      * simplify_eq. apply Qle_refl.
    + left. split; [done|].
      intros j c p Hj Hpj Hc Hp.
      apply parentOf_child in Hpj as [-> | ->]; [| |done].
      * exact (priority_lt_at_false _ _ _ _ _ Hl Hc Hp).
      * exact (priority_lt_at_false _ _ _ _ _ Hr Hc Hp).
Qed.

Lemma bubbleDown_heap_ok fuel h i :
  (length h <= i + fuel)%nat -> down_inv h i -> heap_ok (bubbleDown fuel h i).
Proof.
  revert h i. induction fuel as [|fuel IH]; intros h i Hfuel [Ha Hb].
  - simpl. intros j c p Hj Hc Hp.
    destruct (decide (parentOf j = i)) as [Hpj|Hpj]; [|eauto].
    apply lookup_lt_Some in Hc. pose proof (parentOf_lt j Hj). lia.
  - rewrite bubbleDown_S.
    destruct (select_smallest_spec h i)
      as [[Hs Hmin] | (Hs & Hps & cs & ci & Hcs & Hci & Hlt & Hmin)].
    { rewrite Hs, Nat.eqb_refl. intros j c p Hj Hc Hp.
      destruct (decide (parentOf j = i)) as [Hpj|Hpj]; [|eauto].
      subst i. eauto. }
    set (s := select_smallest h i) in *.
    assert (0 < s)%nat as Hs0.
    { destruct s; [|lia]. unfold parentOf in Hps. simpl in Hps. lia. }
    pose proof (parentOf_lt s Hs0) as Hsi.
    destruct (Nat.eqb_spec s i) as [|_]; [done|].
    apply IH.
    { rewrite swap_length. lia. }
    split.
    + intros j c p Hj Hpj. rewrite !(swap_lookup _ _ _ _ _ _ Hcs Hci).
      intros Hc Hp.
      destruct (decide (j = i)) as [->|Hji].
      { rewrite !decide_False in Hp by (pose proof (parentOf_lt i Hj); lia).
        simplify_eq. apply (Hb s c p); [lia | done | done | done | done]. }
      destruct (decide (j = s)) as [->|Hjs].
      { rewrite decide_True in Hp by done. simplify_eq.
        by apply Qlt_le_weak. }
      destruct (decide (parentOf j = i)) as [Hpji|Hpji].
      { simplify_eq. eapply Hmin; eauto. }
      rewrite decide_False in Hp by done. eauto.
    + intros j c g _ Hj Hpj. rewrite !(swap_lookup _ _ _ _ _ _ Hcs Hci).
      intros Hc Hg. rewrite decide_True in Hg by done.
      pose proof (parentOf_lt j Hj).
      rewrite !decide_False in Hc by lia. simplify_eq.
      apply (Ha j c g); [done | lia | done | by rewrite Hpj].
Qed.

Lemma pop_heap_ok h e h' : heap_ok h -> pop h = Some (e, h') -> heap_ok h'.
Proof.
  intros Hok. destruct h as [|m [|e' t]]; [done| |].
  - intros [= _ <-]. apply heap_ok_nil.
  - rewrite pop_cons_cons.
    destruct (last (m :: e' :: t)) as [l|] eqn:Hl; [|done].
    cbv zeta. set (R := bubbleDown _ _ _). intros [= -> <-]. subst R.
    apply bubbleDown_heap_ok; [lia|]. split.
    + intros j c p Hj Hpj Hc Hp.
      apply lookup_lt_Some in Hc as Hlen.
      rewrite length_insert, length_take in Hlen.
      pose proof (parentOf_lt j Hj).
      rewrite list_lookup_insert_ne in Hc, Hp by lia.
      rewrite lookup_take_lt in Hc, Hp by lia. eauto.
    + intros j c g Hi. lia.
Qed.

(** The root of an ordered heap has the least priority. *)
Lemma heap_ok_root_min h r :
  heap_ok h -> h !! 0%nat = Some r ->
  forall j e, h !! j = Some e -> priority r <= priority e.
Proof.
  intros Hok Hr j. induction (lt_wf j) as [j _ IH]. intros e He.
  destruct (decide (j = 0%nat)) as [->|Hj].
  { simplify_eq. apply Qle_refl. }
  assert (0 < j)%nat as Hj0 by lia.
  pose proof (parentOf_lt j Hj0) as Hlt.
  destruct (lookup_lt_is_Some_2 h (parentOf j)) as [p Hp].
  { apply lookup_lt_Some in He. lia. }
  apply Qle_trans with (priority p); [eauto | eauto].
Qed.

Lemma pop_min h e h' :
  heap_ok h -> pop h = Some (e, h') ->
  forall x, x ∈ h' -> priority e <= priority x.
Proof.
  intros Hok Hpop x Hx.
  assert (x ∈ h) as Hin.
  { rewrite (pop_Permutation _ _ _ Hpop). by right. }
  apply list_elem_of_lookup in Hin as [j Hj].
  eapply heap_ok_root_min; eauto using pop_root.
Qed.

End heap_order_down.

(** ** The loop bounds of the queue are never reached

    [bubbleUp] and [bubbleDown] leave their loops on their own: any fuel at
    or above the bound the callers pass gives the same result. *)

Section heap_fuel.
Implicit Types (h : MinHeap).

Lemma bubbleUp_fuel f1 f2 h i :
  (i <= f1)%nat -> (i <= f2)%nat -> bubbleUp f1 h i = bubbleUp f2 h i.
Proof.
  revert f2 h i. induction f1 as [|f1 IH]; intros [|f2] h i H1 H2; simpl;
    try done.
  - assert (i = 0%nat) as -> by lia. done.
  - assert (i = 0%nat) as -> by lia. done.
  - destruct (Nat.ltb_spec 0 i) as [Hi|Hi]; [|done].
    destruct (h !! parentOf i), (h !! i); try done.
    destruct (JS.leb _ _); [done|].
    pose proof (parentOf_lt i Hi). apply IH; lia.
Qed.

Lemma select_smallest_range h i :
  select_smallest h i <> i ->
  (i < select_smallest h i < length h)%nat.
Proof.
  intros Hne.
  destruct (select_smallest_spec h i)
    as [[Hs _] | (_ & Hps & cs & ci & Hcs & _)]; [done|].
  apply lookup_lt_Some in Hcs. split; [|done].
  assert (0 < select_smallest h i)%nat as Hpos.
  { destruct (select_smallest h i); [|lia]. by rewrite <- Hps in Hne. }
  pose proof (parentOf_lt _ Hpos). lia.
Qed.

Lemma bubbleDown_fuel f1 f2 h i :
  (length h <= i + f1)%nat -> (length h <= i + f2)%nat ->
  bubbleDown f1 h i = bubbleDown f2 h i.
Proof.
  revert f2 h i. induction f1 as [|f1 IH]; intros [|f2] h i H1 H2;
    rewrite ?bubbleDown_S; try done.
  - destruct (Nat.eqb_spec (select_smallest h i) i) as [|Hne]; [done|].
    apply select_smallest_range in Hne. lia.
  - destruct (Nat.eqb_spec (select_smallest h i) i) as [|Hne]; [done|].
    apply select_smallest_range in Hne. lia.
  - destruct (Nat.eqb_spec (select_smallest h i) i) as [|Hne]; [done|].
    apply select_smallest_range in Hne.
    apply IH; rewrite swap_length; lia.
Qed.

End heap_fuel.

(** ** The search loop ends *)

Section search_termination.
Implicit Types (g : gmap Z (list EdgeInfo.t)) (vis : gset Z).

Lemma pending_empty vis : pending ∅ vis = 0%nat.
Proof. unfold pending. by rewrite map_to_list_empty. Qed.

Lemma pending_insert g vis k l :
  g !! k = None ->
  pending (<[k := l]> g) vis =
    ((if decide (k ∉ vis) then length l else 0) + pending g vis)%nat.
Proof.
  intros Hk. unfold pending. rewrite (map_to_list_insert g k l Hk).
  rewrite filter_cons. simpl. by case_decide.
Qed.

Lemma pending_visit_None g vis c :
  g !! c = None -> pending g ({[c]} ∪ vis) = pending g vis.
Proof.
  induction g as [|k l g Hk _ IH] using map_first_key_ind.
  { intros _. by rewrite !pending_empty. }
  intros Hc. apply lookup_insert_None in Hc as [Hc Hne].
  rewrite !pending_insert by done. rewrite (IH Hc).
  destruct (decide (k ∉ {[c]} ∪ vis)), (decide (k ∉ vis)); set_solver.
Qed.

Lemma pending_visit_Some g vis c l :
  g !! c = Some l -> c ∉ vis ->
  (pending g ({[c]} ∪ vis) + length l)%nat = pending g vis.
Proof.
  induction g as [|k v g Hk _ IH] using map_first_key_ind; [done|].
  intros Hc Hvis. rewrite !pending_insert by done.
  destruct (decide (k = c)) as [->|Hne].
  - rewrite lookup_insert_eq in Hc. simplify_eq.
    rewrite (pending_visit_None _ _ _ Hk).
    rewrite decide_False by set_solver. rewrite decide_True by done. lia.
  - rewrite lookup_insert_ne in Hc by done.
    specialize (IH Hc Hvis).
    destruct (decide (k ∉ {[c]} ∪ vis)), (decide (k ∉ vis));
      try lia; set_solver.
Qed.

Lemma relax_visited this goalId avoid c st o :
  visited (relax this goalId avoid c st o) = visited st.
Proof.
  unfold relax. destruct (avoid && _); [done|]. by destruct (improves _ _ _).
Qed.

Lemma relax_openSet_length this goalId avoid c st o :
  (length (openSet (relax this goalId avoid c st o)) <= S (length (openSet st)))%nat.
Proof.
  unfold relax. destruct (avoid && _); [lia|].
  destruct (improves _ _ _); simpl; [|lia]. rewrite push_length. lia.
Qed.

Lemma foldl_relax_visited this goalId avoid c ns st :
  visited (foldl (relax this goalId avoid c) st ns) = visited st.
Proof.
  revert st. induction ns as [|o ns IH]; intros st; simpl; [done|].
  by rewrite IH, relax_visited.
Qed.

Lemma foldl_relax_openSet_length this goalId avoid c ns st :
  (length (openSet (foldl (relax this goalId avoid c) st ns))
     <= length ns + length (openSet st))%nat.
Proof.
  revert st. induction ns as [|o ns IH]; intros st; simpl; [lia|].
  etrans; [apply IH|].
  pose proof (relax_openSet_length this goalId avoid c st o). lia.
Qed.

(** With fuel above the entries in the open set plus the options still
    pending, the loop reaches one of its two exits. *)
Lemma search_loop_ends fuel this goalId avoid st :
  (length (openSet st) + pending (graph this) (visited st) < fuel)%nat ->
  search_loop fuel this goalId avoid st <> OutOfFuel.
Proof.
  revert st. induction fuel as [|fuel IH]; intros st Hfuel; [lia|].
  simpl. destruct (pop (openSet st)) as [[entry rest]|] eqn:Hpop; [|done].
  apply pop_Permutation in Hpop as Hperm.
  apply Permutation_length in Hperm as Hlen; simpl in Hlen.
  case_decide as Hvis.
  { apply IH. simpl. lia. }
  case_decide as Hgoal; [done|].
  apply IH.
  rewrite foldl_relax_visited. simpl.
  pose proof (foldl_relax_openSet_length this goalId avoid (value entry)
                (default [] (graph this !! value entry))
                {| openSet := rest; cameFrom := cameFrom st;
                   gScore := gScore st; fScore := fScore st;
                   visited := {[value entry]} ∪ visited st |}) as Hpush.
  simpl in Hpush.
  destruct (graph this !! value entry) as [l|] eqn:Hl; simpl in *.
  - pose proof (pending_visit_Some _ _ _ _ Hl Hvis). lia.
  - pose proof (pending_visit_None _ (visited st) _ Hl). lia.
Qed.

End search_termination.

(** ** What the search loop maintains *)

Section search_invariant.
Variables (this : PathFinder) (startId goalId : Z) (avoid : bool).

Lemma relax_gScore_is_Some c st o k :
  is_Some (gScore st !! k) ->
  is_Some (gScore (relax this goalId avoid c st o) !! k).
Proof.
  intros Hk. unfold relax. destruct (avoid && _); [done|].
  destruct (improves _ _ _); [|done]. simpl.
  apply lookup_insert_is_Some'. by right.
Qed.

Lemma relax_inv c l st o :
  search_inv this startId avoid st ->
  route (graph this) avoid startId c ->
  graph this !! c = Some l -> o ∈ l ->
  search_inv this startId avoid (relax this goalId avoid c st o).
Proof.
  intros [Hopen Hfrom] Hroute Hl Ho. unfold relax.
  destruct (avoid && EdgeInfo.is_staircase o) eqn:Hstairs; [done|].
  destruct (improves _ _ _); [|done]. split; simpl.
  - intros e He. rewrite push_Permutation in He.
    apply elem_of_cons in He as [->|He]; simpl.
    + split; [by eapply route_step | by rewrite lookup_insert_eq].
    + destruct (Hopen e He) as [? ?]. split; [done|].
      apply lookup_insert_is_Some'. by right.
  - intros n prev o' Hn.
    apply lookup_insert_Some in Hn as [[<- [= <- <-]] | [_ Hn]]; [|eauto].
    split_and!; [done | done | eauto].
Qed.

Lemma foldl_relax_inv c l ns st :
  ns ⊆ l ->
  search_inv this startId avoid st ->
  route (graph this) avoid startId c ->
  graph this !! c = Some l ->
  search_inv this startId avoid (foldl (relax this goalId avoid c) st ns).
Proof.
  revert st. induction ns as [|o ns IH]; intros st Hsub Hinv Hroute Hl;
    simpl; [done|].
  apply IH; [set_solver | | done | done].
  eapply relax_inv; eauto. set_solver.
Qed.

(** The loop leaves through its [return] only with a state that still has
    the invariant, at a goal that can be reached from the start. *)
Lemma search_loop_sound fuel st st' :
  search_inv this startId avoid st ->
  search_loop fuel this goalId avoid st = GoalReached st' ->
  search_inv this startId avoid st' /\
  route (graph this) avoid startId goalId /\
  is_Some (gScore st' !! goalId).
Proof.
  revert st. induction fuel as [|fuel IH]; intros st Hinv; [done|].
  simpl. destruct (pop (openSet st)) as [[entry rest]|] eqn:Hpop; [|done].
  apply pop_Permutation in Hpop as Hperm.
  destruct Hinv as [Hopen Hfrom].
  assert (route (graph this) avoid startId (value entry) /\
          is_Some (gScore st !! value entry)) as [Hroute Hg].
  { apply Hopen. rewrite Hperm. by left. }
  assert (forall vis, search_inv this startId avoid
            {| openSet := rest; cameFrom := cameFrom st; gScore := gScore st;
               fScore := fScore st; visited := vis |}) as Hrest.
  { intros vis. split; simpl; [|done].
    intros e He. apply Hopen. rewrite Hperm. by right. }
  case_decide as Hvis; [by apply IH|].
  case_decide as Hgoal.
  { intros [= <-]. subst goalId. by split_and!. }
  destruct (graph this !! value entry) as [l|] eqn:Hl; simpl.
  - apply IH. by eapply foldl_relax_inv.
  - by apply IH.
Qed.

Lemma initial_state_inv :
  search_inv this startId avoid (initial_state this startId goalId).
Proof.
  split; simpl.
  - intros e He. rewrite push_Permutation in He.
    apply list_elem_of_singleton in He as ->. simpl.
    split; [constructor | by rewrite lookup_singleton_eq].
  - intros n prev o Hn. by rewrite lookup_empty in Hn.
Qed.

Lemma initial_state_fuel :
  (length (openSet (initial_state this startId goalId)) +
   pending (graph this) (visited (initial_state this startId goalId))
     < search_fuel this)%nat.
Proof.
  unfold initial_state, search_fuel. cbn [openSet visited].
  rewrite push_length. simpl. lia.
Qed.

(** If the goal cannot be reached, the open set runs empty. *)
Lemma search_no_route :
  ~ route (graph this) avoid startId goalId ->
  search this startId goalId avoid = Error no_path_found.
Proof.
  intros Hno. unfold search.
  destruct (search_loop _ _ _ _ _) as [st'| |] eqn:Hloop; [|done|].
  - apply search_loop_sound in Hloop as (_ & Hroute & _);
      [done | apply initial_state_inv].
  - by apply search_loop_ends in Hloop; [|apply initial_state_fuel].
Qed.

(** The search always comes back with one of its exits. *)
Lemma search_loop_total :
  search_loop (search_fuel this) this goalId avoid
    (initial_state this startId goalId) <> OutOfFuel.
Proof. apply search_loop_ends, initial_state_fuel. Qed.

(** [gScore.get(goalId)] is defined when the goal is reached. *)
Lemma search_inv_gScore st' :
  search_loop (search_fuel this) this goalId avoid
    (initial_state this startId goalId) = GoalReached st' ->
  is_Some (gScore st' !! goalId).
Proof.
  intros Hloop.
  by apply search_loop_sound in Hloop as (_ & _ & ?);
    [|apply initial_state_inv].
Qed.

End search_invariant.

(** ** The snapshot built by [buildGraph] *)

Section buildGraph_theory.
Implicit Types (g : gmap Z (list EdgeInfo.t)) (edge : Edges.row).

Lemma add_edge_eq g edge :
  add_edge g edge =
    let g1 :=
      if decide (is_Some (g !! Edges.from_node_id edge))
      then alter (fun l => l ++ [forward_option edge])
             (Edges.from_node_id edge) g
      else g in
    if decide (is_Some (g1 !! Edges.to_node_id edge))
    then alter (fun l => l ++ [reverse_option edge])
           (Edges.to_node_id edge) g1
    else g1.
Proof. reflexivity. Qed.

Lemma alter_snoc_is_Some g j (x : EdgeInfo.t) k :
  is_Some (alter (fun l => l ++ [x]) j g !! k) <-> is_Some (g !! k).
Proof. apply lookup_alter_is_Some. Qed.

Lemma alter_snoc_mono g j (x : EdgeInfo.t) k l o :
  g !! k = Some l -> o ∈ l ->
  exists l', alter (fun l => l ++ [x]) j g !! k = Some l' /\ o ∈ l'.
Proof.
  intros Hk Ho. destruct (decide (j = k)) as [->|Hne].
  - rewrite lookup_alter_eq, Hk. simpl. eexists. split; [done|].
    apply elem_of_app. by left.
  - rewrite lookup_alter_ne by done. eauto.
Qed.

Lemma alter_snoc_new g j (x : EdgeInfo.t) :
  is_Some (g !! j) ->
  exists l', alter (fun l => l ++ [x]) j g !! j = Some l' /\ x ∈ l'.
Proof.
  intros [l Hl]. rewrite lookup_alter_eq, Hl. simpl. eexists. split; [done|].
  apply elem_of_app. right. by apply list_elem_of_singleton.
Qed.

(** An option of [alter]ed list is the new one or an old one. *)
Lemma alter_snoc_inv g j (x : EdgeInfo.t) k l' o :
  alter (fun l => l ++ [x]) j g !! k = Some l' -> o ∈ l' ->
  (k = j /\ o = x) \/ exists l, g !! k = Some l /\ o ∈ l.
Proof.
  destruct (decide (j = k)) as [->|Hne].
  - rewrite lookup_alter_eq. destruct (g !! k) as [l|]; [|done].
    intros [= <-] Ho. apply elem_of_app in Ho as [Ho|Ho]; [eauto|].
    apply list_elem_of_singleton in Ho. by left.
  - rewrite lookup_alter_ne by done. eauto.
Qed.

Lemma add_edge_is_Some g edge k :
  is_Some (add_edge g edge !! k) <-> is_Some (g !! k).
Proof.
  rewrite add_edge_eq. cbv zeta.
  repeat case_decide; rewrite ?alter_snoc_is_Some; done.
Qed.

Lemma add_edge_mono g edge k l o :
  g !! k = Some l -> o ∈ l ->
  exists l', add_edge g edge !! k = Some l' /\ o ∈ l'.
Proof.
  intros Hk Ho. rewrite add_edge_eq. cbv zeta.
  set (g1 := if decide (is_Some (g !! Edges.from_node_id edge)) then _ else g).
  assert (exists l1, g1 !! k = Some l1 /\ o ∈ l1) as (l1 & Hl1 & Ho1).
  { subst g1. case_decide; [by eapply alter_snoc_mono | eauto]. }
  case_decide; [by eapply alter_snoc_mono | eauto].
Qed.

Lemma add_edge_forward g edge :
  is_Some (g !! Edges.from_node_id edge) ->
  exists l, add_edge g edge !! Edges.from_node_id edge = Some l /\
            forward_option edge ∈ l.
Proof.
  intros Hfrom. rewrite add_edge_eq. cbv zeta.
  rewrite (decide_True _ _ Hfrom).
  destruct (alter_snoc_new g _ (forward_option edge) Hfrom) as (l1 & Hl1 & Ho1).
  set (g1 := alter _ (Edges.from_node_id edge) g) in *.
  case_decide; [by eapply alter_snoc_mono | eauto].
Qed.

Lemma add_edge_reverse g edge :
  is_Some (g !! Edges.to_node_id edge) ->
  exists l, add_edge g edge !! Edges.to_node_id edge = Some l /\
            reverse_option edge ∈ l.
Proof.
  intros Hto. rewrite add_edge_eq. cbv zeta.
  set (g1 := if decide (is_Some (g !! Edges.from_node_id edge)) then _ else g).
  assert (is_Some (g1 !! Edges.to_node_id edge)) as Hto1.
  { subst g1. case_decide; [by apply alter_snoc_is_Some | done]. }
  rewrite (decide_True _ _ Hto1). by apply alter_snoc_new.
Qed.

(** Where an option of the new graph comes from. *)
Lemma add_edge_inv g edge k l' o :
  add_edge g edge !! k = Some l' -> o ∈ l' ->
  (k = Edges.from_node_id edge /\ o = forward_option edge) \/
  (k = Edges.to_node_id edge /\ o = reverse_option edge) \/
  exists l, g !! k = Some l /\ o ∈ l.
Proof.
  rewrite add_edge_eq. cbv zeta.
  set (g1 := if decide (is_Some (g !! Edges.from_node_id edge)) then _ else g).
  assert (forall l1, g1 !! k = Some l1 -> o ∈ l1 ->
    (k = Edges.from_node_id edge /\ o = forward_option edge) \/
    exists l, g !! k = Some l /\ o ∈ l) as Hg1.
  { subst g1. intros l1. case_decide; [apply alter_snoc_inv | eauto]. }
  case_decide.
  - intros Hk Ho. apply (alter_snoc_inv _ _ _ _ _ _ Hk) in Ho
      as [[-> ->] | (l1 & Hl1 & Ho1)]; [by right; left|].
    destruct (Hg1 _ Hl1 Ho1) as [?|?]; [by left | by right; right].
  - intros Hk Ho. destruct (Hg1 _ Hk Ho) as [?|?]; [by left | by right; right].
Qed.

Lemma foldl_add_edge_is_Some g edges k :
  is_Some (foldl add_edge g edges !! k) <-> is_Some (g !! k).
Proof.
  revert g. induction edges as [|e edges IH]; intros g; simpl; [done|].
  by rewrite IH, add_edge_is_Some.
Qed.

Lemma foldl_add_edge_mono g edges k l o :
  g !! k = Some l -> o ∈ l ->
  exists l', foldl add_edge g edges !! k = Some l' /\ o ∈ l'.
Proof.
  revert g l. induction edges as [|e edges IH]; intros g l Hk Ho; simpl;
    [eauto|].
  destruct (add_edge_mono g e k l o Hk Ho) as (l1 & Hl1 & Ho1). eauto.
Qed.

Lemma foldl_add_edge_forward g edges edge :
  edge ∈ edges -> is_Some (g !! Edges.from_node_id edge) ->
  exists l, foldl add_edge g edges !! Edges.from_node_id edge = Some l /\
            forward_option edge ∈ l.
Proof.
  intros Hin Hfrom. apply list_elem_of_split in Hin as (es1 & es2 & ->).
  rewrite foldl_app. simpl.
  destruct (add_edge_forward (foldl add_edge g es1) edge) as (l & Hl & Ho).
  { by apply foldl_add_edge_is_Some. }
  by eapply foldl_add_edge_mono.
Qed.

Lemma foldl_add_edge_reverse g edges edge :
  edge ∈ edges -> is_Some (g !! Edges.to_node_id edge) ->
  exists l, foldl add_edge g edges !! Edges.to_node_id edge = Some l /\
            reverse_option edge ∈ l.
Proof.
  intros Hin Hto. apply list_elem_of_split in Hin as (es1 & es2 & ->).
  rewrite foldl_app. simpl.
  destruct (add_edge_reverse (foldl add_edge g es1) edge) as (l & Hl & Ho).
  { by apply foldl_add_edge_is_Some. }
  by eapply foldl_add_edge_mono.
Qed.

Lemma foldl_add_edge_inv g edges k l' o :
  foldl add_edge g edges !! k = Some l' -> o ∈ l' ->
  (exists edge, edge ∈ edges /\
     ((k = Edges.from_node_id edge /\ o = forward_option edge) \/
      (k = Edges.to_node_id edge /\ o = reverse_option edge))) \/
  exists l, g !! k = Some l /\ o ∈ l.
Proof.
  revert g. induction edges as [|e edges IH]; intros g Hk Ho; simpl in *;
    [eauto|].
  destruct (IH _ Hk Ho) as [(edge & Hin & Hcase) | (l & Hl & Hol)].
  { left. exists edge. split; [by right | done]. }
  destruct (add_edge_inv _ _ _ _ _ Hl Hol) as [?|[?|?]]; [| |by right].
  - left. exists e. split; [by left | by left].
  - left. exists e. split; [by left | by right].
Qed.

(** The first loop: one cache entry and one empty list per node id. *)
Lemma foldl_cache_node_graph ns acc k :
  (foldl cache_node acc ns).2 !! k =
    if decide (k ∈ Nodes.node_id <$> ns) then Some [] else acc.2 !! k.
Proof.
  revert acc. induction ns as [|n ns IH]; intros acc.
  { rewrite decide_False; [done | apply not_elem_of_nil]. }
  rewrite fmap_cons. cbn [foldl]. rewrite IH.
  destruct (decide (k ∈ Nodes.node_id <$> ns)) as [Hin|Hnin].
  { rewrite decide_True; [done | by right]. }
  unfold cache_node at 1. cbn [snd].
  destruct (decide (k = Nodes.node_id n)) as [->|Hne].
  - rewrite lookup_insert_eq. rewrite decide_True; [done | by left].
  - rewrite lookup_insert_ne by done.
    rewrite decide_False; [done|]. by intros [?|?]%elem_of_cons.
Qed.

Lemma foldl_cache_node_cache ns acc k n :
  (foldl cache_node acc ns).1 !! k = Some n ->
  (n ∈ ns /\ Nodes.node_id n = k) \/ acc.1 !! k = Some n.
Proof.
  revert acc. induction ns as [|m ns IH]; intros acc; simpl; [eauto|].
  intros Hk. destruct (IH _ Hk) as [[Hin Hid] | Hacc].
  { left. split; [by right | done]. }
  simpl in Hacc. apply lookup_insert_Some in Hacc as [[<- <-] | [_ ?]].
  - left. split; [by left | done].
  - by right.
Qed.

Lemma foldl_cache_node_cache_is_Some ns acc k :
  is_Some ((foldl cache_node acc ns).1 !! k) <->
  k ∈ Nodes.node_id <$> ns \/ is_Some (acc.1 !! k).
Proof.
  revert acc. induction ns as [|n ns IH]; intros acc; simpl.
  { split; [by right | intros [?%not_elem_of_nil | ?]; done]. }
  rewrite IH. simpl. rewrite lookup_insert_is_Some', elem_of_cons.
  destruct (decide (k = Nodes.node_id n)); naive_solver.
Qed.

Lemma buildGraph_graph_is_Some this db k :
  is_Some (graph (buildGraph this db) !! k) <-> k ∈ node_ids db.
Proof.
  unfold buildGraph. cbn [graph]. rewrite foldl_add_edge_is_Some.
  rewrite foldl_cache_node_graph. unfold node_ids, Nodes_findAll. simpl.
  case_decide; [split; eauto | rewrite lookup_empty; split; [by intros [] | done]].
Qed.

Lemma buildGraph_cache_is_Some this db k :
  is_Some (nodesCache (buildGraph this db) !! k) <-> k ∈ node_ids db.
Proof.
  unfold buildGraph. cbn [nodesCache].
  rewrite foldl_cache_node_cache_is_Some. simpl.
  rewrite lookup_empty. unfold node_ids, Nodes_findAll.
  split; [intros [?|[]]; [done|done] | by left].
Qed.

Lemma buildGraph_cache_row this db k n :
  nodesCache (buildGraph this db) !! k = Some n ->
  n ∈ nodes_table db /\ Nodes.node_id n = k.
Proof.
  unfold buildGraph. cbn [nodesCache]. intros Hk.
  by apply foldl_cache_node_cache in Hk as [?|?].
Qed.

Lemma elem_of_active db edge :
  edge ∈ Edges_findAll_active db <->
  edge ∈ edges_table db /\ Edges.is_active edge = true.
Proof.
  unfold Edges_findAll_active. rewrite !list_elem_of_In. apply filter_In.
Qed.

(** Every adjacency option of the snapshot is a direction of an active
    edge of the data layer it was built from. *)
Lemma buildGraph_option_inv this db k l o :
  graph (buildGraph this db) !! k = Some l -> o ∈ l ->
  exists edge, edge ∈ edges_table db /\ Edges.is_active edge = true /\
    ((k = Edges.from_node_id edge /\ o = forward_option edge) \/
     (k = Edges.to_node_id edge /\ o = reverse_option edge)).
Proof.
  unfold buildGraph. cbn [graph]. intros Hk Ho.
  destruct (foldl_add_edge_inv _ _ _ _ _ Hk Ho)
    as [(edge & Hin & Hcase) | (l0 & Hl0 & Ho0)].
  - apply elem_of_active in Hin as [? ?]. eauto.
  - rewrite foldl_cache_node_graph in Hl0. simpl in Hl0.
    case_decide.
    + simplify_eq. by apply not_elem_of_nil in Ho0.
    + by rewrite lookup_empty in Hl0.
Qed.

Lemma buildGraph_forward this db edge :
  edge ∈ edges_table db -> Edges.is_active edge = true ->
  Edges.from_node_id edge ∈ node_ids db ->
  has_option (buildGraph this db) (Edges.from_node_id edge)
    (forward_option edge).
Proof.
  intros Hin Hact Hfrom. unfold has_option, buildGraph. cbn [graph].
  apply foldl_add_edge_forward; [by apply elem_of_active|].
  rewrite foldl_cache_node_graph. by rewrite decide_True.
Qed.

Lemma buildGraph_reverse this db edge :
  edge ∈ edges_table db -> Edges.is_active edge = true ->
  Edges.to_node_id edge ∈ node_ids db ->
  has_option (buildGraph this db) (Edges.to_node_id edge)
    (reverse_option edge).
Proof.
  intros Hin Hact Hto. unfold has_option, buildGraph. cbn [graph].
  apply foldl_add_edge_reverse; [by apply elem_of_active|].
  rewrite foldl_cache_node_graph. by rewrite decide_True.
Qed.

End buildGraph_theory.

(** ** The loop bounds of the search are adequate *)

(** More fuel does not change where the search loop ends. *)
Lemma search_loop_fuel f f' this goalId avoid st :
  search_loop f this goalId avoid st <> OutOfFuel -> (f <= f')%nat ->
  search_loop f' this goalId avoid st = search_loop f this goalId avoid st.
Proof.
  revert f' st. induction f as [|f IH]; intros [|f'] st Hend Hle;
    try done; try lia.
  simpl in *. destruct (pop (openSet st)) as [[entry rest]|]; [|done].
  case_decide; [apply IH; [done | lia]|].
  case_decide; [done|]. apply IH; [done | lia].
Qed.

Section walk_back_fuel.
Variables (this : PathFinder) (cameFrom : gmap Z (Z * EdgeInfo.t)).
Variable (startId : Z).

Local Abbreviation next := (walk_next this cameFrom startId).
Local Abbreviation chain := (walk_chain this cameFrom startId).

(** The loop runs out of fuel exactly when that many iterations all go on. *)
Lemma walk_back_diverges fuel c acc :
  walk_back fuel this cameFrom startId c acc = WalkDiverges <->
  is_Some (chain fuel c).
Proof.
  revert c acc. induction fuel as [|fuel IH]; intros c acc; simpl.
  { split; [by eexists | done]. }
  unfold walk_next. case_decide.
  { split; [done | by intros []]. }
  destruct (cameFrom !! c) as [[prev o]|].
  2:{ split; [done | by intros []]. }
  destruct (nodesCache this !! c) as [node|].
  2:{ split; [done | by intros []]. }
  apply IH.
Qed.

(** With enough fuel to end, more fuel gives the same result. *)
Lemma walk_back_fuel f f' c acc :
  walk_back f this cameFrom startId c acc <> WalkDiverges -> (f <= f')%nat ->
  walk_back f' this cameFrom startId c acc =
    walk_back f this cameFrom startId c acc.
Proof.
  revert f' c acc. induction f as [|f IH]; intros [|f'] c acc Hend Hle;
    try done; try lia.
  simpl in *. case_decide; [done|].
  destruct (cameFrom !! c) as [[prev o]|]; [|done].
  destruct (nodesCache this !! c) as [node|]; [|done].
  apply IH; [done | lia].
Qed.

Lemma chain_add a b c :
  chain (a + b) c = chain a c ≫= chain b.
Proof.
  revert c. induction a as [|a IH]; intros c; simpl; [done|].
  destruct (next c) as [prev|]; [apply IH | done].
Qed.

Lemma chain_prefix a b c :
  (a <= b)%nat -> is_Some (chain b c) -> is_Some (chain a c).
Proof.
  intros Hle. replace b with (a + (b - a))%nat by lia.
  rewrite chain_add. destruct (chain a c); [by eexists | by intros []].
Qed.

Lemma chain_in_dom i c x :
  chain i c = Some x -> is_Some (chain (S i) c) -> is_Some (cameFrom !! x).
Proof.
  intros Hi. replace (S i) with (i + 1)%nat by lia.
  rewrite chain_add, Hi. simpl. unfold walk_next.
  case_decide; [by intros []|].
  destruct (cameFrom !! x) as [[prev o]|]; [by eexists | by intros []].
Qed.

(** A node seen twice: the iterations go on for ever. *)
Lemma chain_periodic i j c x :
  (i < j)%nat -> chain i c = Some x -> chain j c = Some x ->
  forall n, is_Some (chain n c).
Proof.
  intros Hij Hi Hj n. induction (lt_wf n) as [n _ IH].
  destruct (decide (n <= j)%nat) as [Hle|Hgt].
  { eapply chain_prefix; [done|]. by rewrite Hj. }
  replace n with (j + (n - j))%nat by lia.
  rewrite chain_add, Hj, <- Hi. simpl.
  rewrite <- chain_add. apply IH. lia.
Qed.

(** One iteration more than [cameFrom] has keys sees a node twice. *)
Lemma chain_pigeonhole c :
  is_Some (chain (S (size cameFrom)) c) -> forall n, is_Some (chain n c).
Proof.
  intros Hlong n.
  destruct (decide (is_Some (chain n c))) as [|Hstop]; [done|]. exfalso.
  set (N := size cameFrom) in *.
  assert (forall i, (i <= N)%nat -> exists x, chain i c = Some x) as Hdef.
  { intros i Hi. apply (chain_prefix i (S N)); [lia | done]. }
  set (L := (fun i => default 0%Z (chain i c)) <$> seq 0 (S N)).
  assert (forall i x, L !! i = Some x -> (i <= N)%nat /\ chain i c = Some x)
    as HL.
  { intros i x. unfold L. rewrite list_lookup_fmap.
    destruct (seq 0 (S N) !! i) as [k|] eqn:Hk; [|done].
    apply lookup_seq in Hk as [-> Hlt]. simpl.
    destruct (Hdef i) as [y Hy]; [lia|]. rewrite Hy. simpl.
    intros [= <-]. split; [lia | done]. }
  assert (NoDup L) as Hnodup.
  { apply NoDup_alt. intros i j x Hi Hj.
    apply HL in Hi as [Hi Hci]. apply HL in Hj as [Hj Hcj].
    destruct (Nat.lt_total i j) as [Hlt | [-> | Hlt]]; [|done|];
      exfalso; apply Hstop; eapply chain_periodic; eauto. }
  assert (list_to_set L ⊆ dom cameFrom) as Hsub.
  { intros x Hx. apply elem_of_list_to_set in Hx.
    apply list_elem_of_lookup in Hx as [i Hi]. apply HL in Hi as [Hi Hci].
    apply elem_of_dom. apply (chain_in_dom i c x Hci).
    apply (chain_prefix (S i) (S N)); [lia | done]. }
  apply subseteq_size in Hsub.
  rewrite size_list_to_set in Hsub by done.
  rewrite size_dom in Hsub. unfold L in Hsub.
  rewrite length_fmap, length_seq in Hsub. fold N in Hsub. lia.
Qed.

(** The bound of [reconstructPath] is adequate: if its loop runs out of
    fuel, no amount of fuel lets it end. *)
Lemma walk_back_diverges_for_ever c acc :
  walk_back (S (size cameFrom)) this cameFrom startId c acc = WalkDiverges ->
  forall fuel acc',
    walk_back fuel this cameFrom startId c acc' = WalkDiverges.
Proof.
  intros Hdiv fuel acc'. apply walk_back_diverges.
  apply chain_pigeonhole. by apply walk_back_diverges in Hdiv.
Qed.

End walk_back_fuel.

(** ** The search finds every goal that can be reached *)

Section search_complete.
Variables (this : PathFinder) (startId goalId : Z) (avoid : bool).

(** One neighbour relaxed: the nodes with a [gScore] stay covered, and the
    neighbour has a [gScore] if its option is traversable. *)
Lemma relax_closed c st o :
  (forall n, is_Some (gScore st !! n) ->
     n ∈ visited st \/ exists e, e ∈ openSet st /\ value e = n) ->
  let st' := relax this goalId avoid c st o in
  (forall n, is_Some (gScore st' !! n) ->
     n ∈ visited st' \/ exists e, e ∈ openSet st' /\ value e = n) /\
  (traversable avoid o -> is_Some (gScore st' !! EdgeInfo.to o)).
Proof.
  intros Hcov. unfold relax, traversable.
  destruct (avoid && EdgeInfo.is_staircase o); [by split|].
  unfold improves.
  destruct (gScore st !! EdgeInfo.to o) as [g|] eqn:Hg.
  - destruct (JS.ltb _ g); simpl.
    + split; [|by rewrite lookup_insert_eq]. intros n Hn.
      apply lookup_insert_is_Some' in Hn as [<- | Hn].
      * right. eexists (mkEntry _ _).
        split; [rewrite push_Permutation; by left | done].
      * destruct (Hcov n Hn) as [? | (e & He & Hv)]; [by left|].
        right. exists e. split; [|done]. rewrite push_Permutation. by right.
    + split; [done|]. intros _. by rewrite Hg.
  - simpl. split; [|by rewrite lookup_insert_eq]. intros n Hn.
    apply lookup_insert_is_Some' in Hn as [<- | Hn].
    + right. eexists (mkEntry _ _).
      split; [rewrite push_Permutation; by left | done].
    + destruct (Hcov n Hn) as [? | (e & He & Hv)]; [by left|].
      right. exists e. split; [|done]. rewrite push_Permutation. by right.
Qed.

Lemma foldl_relax_closed c ns st :
  (forall n, is_Some (gScore st !! n) ->
     n ∈ visited st \/ exists e, e ∈ openSet st /\ value e = n) ->
  let st' := foldl (relax this goalId avoid c) st ns in
  (forall n, is_Some (gScore st' !! n) ->
     n ∈ visited st' \/ exists e, e ∈ openSet st' /\ value e = n) /\
  (forall n, is_Some (gScore st !! n) -> is_Some (gScore st' !! n)) /\
  (forall o, o ∈ ns -> traversable avoid o ->
     is_Some (gScore st' !! EdgeInfo.to o)).
Proof.
  revert st. induction ns as [|o ns IH]; intros st Hcov; simpl.
  { split_and!; [done | done |]. by intros o ?%not_elem_of_nil. }
  destruct (relax_closed c st o Hcov) as [Hcov1 Hnew].
  destruct (IH _ Hcov1) as (Hcov' & Hmono & Hns).
  split_and!; [done | |].
  - intros n Hn. by apply Hmono, relax_gScore_is_Some.
  - intros o' [-> | Ho']%elem_of_cons Ht; [|by apply Hns].
    by apply Hmono, Hnew.
Qed.

(** The loop falls out of an empty open set only if the goal cannot be
    reached. *)
Lemma search_loop_complete fuel st :
  search_closed this startId goalId avoid st ->
  search_loop fuel this goalId avoid st = OpenSetEmpty ->
  ~ route (graph this) avoid startId goalId.
Proof.
  revert st. induction fuel as [|fuel IH];
    intros st (Hstart & Hcov & Hclosed & Hgoal); [done|].
  simpl. destruct (pop (openSet st)) as [[entry rest]|] eqn:Hpop.
  - apply pop_Permutation in Hpop as Hperm.
    assert (forall vis, value entry ∈ vis -> visited st ⊆ vis ->
              forall n, is_Some (gScore st !! n) ->
                n ∈ vis \/ exists e, e ∈ rest /\ value e = n) as Hcov_rest.
    { intros vis Hin Hsub n Hn.
      destruct (Hcov n Hn) as [? | (e & He & Hv)]; [left; set_solver|].
      rewrite Hperm in He. apply elem_of_cons in He as [-> | He].
      - left. by rewrite <- Hv.
      - right. eauto. }
    case_decide as Hvis.
    { apply IH. split_and!; simpl; [done | | done | done].
      by apply Hcov_rest. }
    case_decide as Hisgoal; [done|].
    set (st1 := {| openSet := rest; cameFrom := cameFrom st;
                   gScore := gScore st; fScore := fScore st;
                   visited := {[value entry]} ∪ visited st |}).
    destruct (foldl_relax_closed (value entry)
                (default [] (graph this !! value entry)) st1)
      as (Hcov' & Hmono & Hns).
    { apply Hcov_rest; set_solver. }
    apply IH. split_and!.
    + by apply Hmono.
    + done.
    + rewrite foldl_relax_visited. simpl. intros v l o Hv Hl Ho Ht.
      apply elem_of_union in Hv as [->%elem_of_singleton | Hv].
      * apply Hns; [|done]. by rewrite Hl.
      * apply Hmono. simpl. by eapply Hclosed.
    + rewrite foldl_relax_visited. simpl. set_solver.
  - intros _ Hroute. apply pop_None in Hpop.
    assert (forall n, is_Some (gScore st !! n) -> n ∈ visited st) as Hall.
    { intros n Hn. destruct (Hcov n Hn) as [? | (e & He & _)]; [done|].
      rewrite Hpop in He. by apply not_elem_of_nil in He. }
    assert (forall n, route (graph this) avoid startId n -> n ∈ visited st)
      as Hreach.
    { induction 1 as [|b l o _ IHr Hl Ho Ht]; [by apply Hall|].
      apply Hall. by eapply Hclosed. }
    by apply Hgoal, Hreach.
Qed.

Lemma initial_state_closed :
  search_closed this startId goalId avoid (initial_state this startId goalId).
Proof.
  unfold initial_state. split_and!; simpl.
  - by rewrite lookup_singleton_eq.
  - intros n [g Hn]. apply lookup_singleton_Some in Hn as [<- _].
    right. exists (mkEntry 0 startId). split; [|done].
    rewrite push_on_empty. by apply list_elem_of_singleton.
  - intros v l o Hv. by apply not_elem_of_empty in Hv.
  - apply not_elem_of_empty.
Qed.

(** The no-path error is returned exactly when no route of traversable
    options leads from the start to the goal in the snapshot. *)
Lemma search_no_path_iff :
  search this startId goalId avoid = Error no_path_found <->
  ~ route (graph this) avoid startId goalId.
Proof.
  split; [|apply search_no_route].
  unfold search.
  destruct (search_loop _ _ _ _ _) as [st'| |] eqn:Hloop.
  - unfold reconstructPath. destruct (walk_back _ _ _ _ _ _); [|done..].
    by destruct (nodesCache this !! startId).
  - intros _. eapply search_loop_complete; [|done].
    apply initial_state_closed.
  - done.
Qed.

End search_complete.

(** ** Costs under a consistent heuristic *)

Section astar_costs.
Variables (this : PathFinder) (startId goalId : Z) (avoid : bool).
Hypothesis Hcons : consistent_heuristic this goalId avoid.

Local Abbreviation h x := (heuristic this x goalId).

(** A finalized node is never given a new cost. *)
Lemma improves_not_visited B c gc st o l :
  astar_inv this goalId B st ->
  c ∈ visited st -> gScore st !! c = Some gc -> B <= gc + h c ->
  graph this !! c = Some l -> o ∈ l -> traversable avoid o ->
  improves (gScore st) (EdgeInfo.to o) (gc + EdgeInfo.distance o) = true ->
  EdgeInfo.to o ∉ visited st.
Proof.
  intros (_ & _ & Hvis & _ & _) Hc Hgc HB Hl Ho Ht Himp Hn.
  destruct (Hvis _ Hn) as (g & Hg & HgB).
  unfold improves in Himp. rewrite Hg in Himp. apply ltb_true in Himp.
  pose proof (Hcons c l o Hl Ho Ht) as Hstep. simpl in *. lra.
Qed.

Lemma relax_costs B c gc st o l :
  astar_inv this goalId B st -> chain_inv startId st ->
  c ∈ visited st -> gScore st !! c = Some gc -> B <= gc + h c ->
  graph this !! c = Some l -> o ∈ l ->
  let st' := relax this goalId avoid c st o in
  astar_inv this goalId B st' /\ chain_inv startId st' /\
  gScore st' !! c = Some gc.
Proof.
  intros Hinv Hchain Hc Hgc HB Hl Ho. unfold relax.
  destruct (avoid && EdgeInfo.is_staircase o) eqn:Hstairs; [done|].
  unfold gScore_get. rewrite Hgc. simpl.
  destruct (improves _ _ _) eqn:Himp; [|done].
  pose proof (improves_not_visited B c gc st o l Hinv Hc Hgc HB Hl Ho
                Hstairs Himp) as Hn.
  pose proof (Hcons c l o Hl Ho Hstairs) as Hstep. simpl in Hstep.
  destruct Hinv as (Hheap & Hlow & Hvis & Hfresh & Hstale).
  destruct Hchain as (Hs0 & Hsnone & Hsvis & Hlinked & Hsum).
  set (n := EdgeInfo.to o) in *.
  assert (n <> c) as Hnc by (by intros ->).
  assert (n <> startId) as Hns by (by intros ->).
  unfold astar_inv, chain_inv. split_and!; simpl.
  - by apply push_heap_ok.
  - intros e He. rewrite push_Permutation in He.
    apply elem_of_cons in He as [-> | He]; [simpl; lra | by apply Hlow].
  - intros v Hv. destruct (Hvis v Hv) as (g & Hg & HgB).
    exists g. split; [|done]. rewrite lookup_insert_ne; [done|].
    by intros <-.
  - intros m g Hm Hmv.
    apply lookup_insert_Some in Hm as [[<- <-] | [Hne Hm]].
    + eexists (mkEntry _ _). split; [rewrite push_Permutation; by left|].
      split; [done|]. simpl. lra.
    + destruct (Hfresh m g Hm Hmv) as (e & He & Hv & Hp).
      exists e. split; [rewrite push_Permutation; by right | done].
  - intros e He. rewrite push_Permutation in He.
    apply elem_of_cons in He as [-> | He]; simpl.
    + rewrite lookup_insert_eq. eexists. split; [done|]. lra.
    + destruct (Hstale e He) as (g & Hg & Hp).
      destruct (decide (value e = n)) as [Hen | Hen].
      * rewrite Hen, lookup_insert_eq. eexists. split; [done|].
        rewrite Hen in Hg, Hp. unfold improves in Himp. rewrite Hg in Himp.
        apply ltb_true in Himp. fold n in Himp. lra.
      * rewrite lookup_insert_ne by done. eauto.
  - by rewrite lookup_insert_ne.
  - by rewrite lookup_insert_ne.
  - done.
  - intros m g Hm Hms. destruct (decide (m = n)) as [-> | Hmn].
    + by rewrite lookup_insert_eq.
    + rewrite lookup_insert_ne in Hm by done.
      rewrite lookup_insert_ne by done. eauto.
  - intros m prev o' Hm.
    apply lookup_insert_Some in Hm as [[<- [= <- <-]] | [Hne Hm]].
    + split; [done|]. exists gc.
      rewrite lookup_insert_ne by done. by rewrite lookup_insert_eq.
    + destruct (Hsum m prev o' Hm) as (Hpv & gp & Hgp & Hgm).
      split; [done|]. exists gp.
      rewrite !lookup_insert_ne; [done | done | by intros <-].
  - by rewrite lookup_insert_ne.
Qed.

Lemma foldl_relax_costs B c gc l ns st :
  ns ⊆ l ->
  astar_inv this goalId B st -> chain_inv startId st ->
  c ∈ visited st -> gScore st !! c = Some gc -> B <= gc + h c ->
  graph this !! c = Some l ->
  let st' := foldl (relax this goalId avoid c) st ns in
  astar_inv this goalId B st' /\ chain_inv startId st'.
Proof.
  revert st. induction ns as [|o ns IH];
    intros st Hsub Hinv Hchain Hc Hgc HB Hl; simpl; [done|].
  destruct (relax_costs B c gc st o l Hinv Hchain Hc Hgc HB Hl)
    as (Hinv' & Hchain' & Hgc'); [set_solver|].
  apply IH; try done; [set_solver|]. by rewrite relax_visited.
Qed.

(** From a state between iterations in which the start is finalized, the
    loop can only return with the predecessor links adding up. *)
Lemma search_loop_costs fuel B st st' :
  astar_inv this goalId B st -> chain_inv startId st ->
  search_loop fuel this goalId avoid st = GoalReached st' ->
  chain_inv startId st' /\ is_Some (gScore st' !! goalId).
Proof.
  revert B st. induction fuel as [|fuel IH]; intros B st Hinv Hchain; [done|].
  simpl. destruct (pop (openSet st)) as [[entry rest]|] eqn:Hpop; [|done].
  apply pop_Permutation in Hpop as Hperm.
  destruct Hinv as (Hheap & Hlow & Hvis & Hfresh & Hstale).
  pose proof (pop_heap_ok _ _ _ Hheap Hpop) as Hheap'.
  pose proof (pop_min _ _ _ Hheap Hpop) as Hmin.
  assert (entry ∈ openSet st) as Hentry by (rewrite Hperm; by left).
  assert (forall e, e ∈ rest -> e ∈ openSet st) as Hrest
    by (intros e He; rewrite Hperm; by right).
  destruct Hchain as (Hs0 & Hsnone & Hsvis & Hlinked & Hsum).
  case_decide as Hv.
  { apply (IH B); [|by split_and!].
    split_and!; simpl; [done | by auto | done | | by auto].
    intros n g Hn Hnv. destruct (Hfresh n g Hn Hnv) as (e & He & Hval & Hp).
    exists e. split; [|done]. rewrite Hperm in He.
    apply elem_of_cons in He as [-> | He]; [|done].
    by rewrite Hval in Hv. }
  destruct (Hstale entry Hentry) as (gc & Hgc & Hpc).
  set (c := value entry) in *.
  assert (chain_inv startId
            {| openSet := rest; cameFrom := cameFrom st; gScore := gScore st;
               fScore := fScore st; visited := {[c]} ∪ visited st |}) as Hchain1.
  { split_and!; simpl; [done | done | set_solver | done |].
    intros n prev o Hn. destruct (Hsum n prev o Hn) as (? & ?).
    split; [set_solver | done]. }
  case_decide as Hgoal.
  { intros [= <-]. split; [done|]. simpl. rewrite <- Hgoal. by eexists. }
  assert (priority entry <= gc + h c) as Hpc'.
  { destruct (Hfresh c gc Hgc Hv) as (e & He & Hval & Hp).
    rewrite Hperm in He. apply elem_of_cons in He as [-> | He]; [done|].
    specialize (Hmin e He). lra. }
  assert (astar_inv this goalId (priority entry)
            {| openSet := rest; cameFrom := cameFrom st; gScore := gScore st;
               fScore := fScore st; visited := {[c]} ∪ visited st |}) as Hinv1.
  { split_and!; simpl; [done | done | | | by auto].
    - intros v [->%elem_of_singleton | Hvv]%elem_of_union.
      + exists gc. split; [done | done].
      + destruct (Hvis v Hvv) as (g & Hg & HgB). exists g. split; [done|].
        specialize (Hlow entry Hentry). lra.
    - intros n g Hn Hnv. destruct (Hfresh n g Hn) as (e & He & Hval & Hp);
        [set_solver|].
      exists e. split; [|done]. rewrite Hperm in He.
      apply elem_of_cons in He as [-> | He]; [|done]. set_solver. }
  destruct (graph this !! c) as [l|] eqn:Hl; simpl.
  - intros Hloop.
    destruct (foldl_relax_costs (priority entry) c gc l l
                {| openSet := rest; cameFrom := cameFrom st; gScore := gScore st;
                   fScore := fScore st; visited := {[c]} ∪ visited st |})
      as [Hinv2 Hchain2]; try done; [set_solver|].
    by apply (IH (priority entry) _ Hinv2 Hchain2).
  - by apply (IH (priority entry)).
Qed.

End astar_costs.

(** ** The reported total under a consistent heuristic *)

Lemma sum_distances_app (l k : list Step.t) :
  sum_distances (l ++ k) == sum_distances l + sum_distances k.
Proof.
  induction l as [|s l IH]; simpl; [lra|].
  unfold sum_distances in *. simpl. rewrite IH. lra.
Qed.

Lemma sum_distances_reverse (l : list Step.t) :
  sum_distances (reverse l) == sum_distances l.
Proof.
  induction l as [|s l IH]; [done|].
  rewrite reverse_cons, sum_distances_app, IH.
  unfold sum_distances. simpl. lra.
Qed.

Lemma round2_comp (x y : Q) : x == y -> round2 x == round2 y.
Proof.
  intros Hxy. unfold round2, JS.Math_round. by rewrite Hxy.
Qed.

Section astar_total.
Variables (this : PathFinder) (startId goalId : Z) (avoid : bool).
Hypothesis Hcons : consistent_heuristic this goalId avoid.

Local Abbreviation start_finalized := (start_finalized this startId goalId).

Lemma search_loop_first fuel :
  search_loop (S fuel) this goalId avoid (initial_state this startId goalId) =
    if decide (startId = goalId) then GoalReached start_finalized
    else search_loop fuel this goalId avoid
           (foldl (relax this goalId avoid startId) start_finalized
              (default [] (graph this !! startId))).
Proof.
  unfold initial_state. rewrite push_on_empty.
  cbn [search_loop openSet pop value visited cameFrom gScore fScore].
  by rewrite decide_False by set_solver.
Qed.

Lemma start_finalized_costs :
  astar_inv this goalId (heuristic this startId goalId) start_finalized /\
  chain_inv startId start_finalized.
Proof.
  unfold astar_inv, chain_inv, start_finalized. split_and!; simpl.
  - apply heap_ok_nil.
  - by intros e ?%not_elem_of_nil.
  - intros v Hv. assert (v = startId) as -> by set_solver.
    exists 0. split; [by rewrite lookup_singleton_eq | lra].
  - intros n g [<- <-]%lookup_singleton_Some Hn. set_solver.
  - by intros e ?%not_elem_of_nil.
  - by rewrite lookup_singleton_eq.
  - done.
  - set_solver.
  - by intros n g [<- <-]%lookup_singleton_Some.
  - intros n prev o Hn. by rewrite lookup_empty in Hn.
Qed.

(** When the loop returns, the predecessor links add up. *)
Lemma search_loop_chain st' :
  search_loop (search_fuel this) this goalId avoid
    (initial_state this startId goalId) = GoalReached st' ->
  chain_inv startId st' /\ is_Some (gScore st' !! goalId).
Proof.
  unfold search_fuel. cbn [Nat.add]. rewrite search_loop_first.
  destruct start_finalized_costs as [Hinv Hchain].
  case_decide as Hgoal.
  { intros [= <-]. split; [done|]. rewrite <- Hgoal. simpl.
    by rewrite lookup_singleton_eq. }
  intros Hloop.
  destruct (graph this !! startId) as [l|] eqn:Hl.
  - destruct (foldl_relax_costs this startId goalId avoid Hcons
                (heuristic this startId goalId) startId 0 l l start_finalized)
      as [Hinv' Hchain']; try done.
    + unfold start_finalized. simpl. set_solver.
    + unfold start_finalized. simpl. by rewrite lookup_singleton_eq.
    + lra.
    + exact (search_loop_costs this startId goalId avoid Hcons _ _ _ _
               Hinv' Hchain' Hloop).
  - exact (search_loop_costs this startId goalId avoid Hcons _ _ _ _
             Hinv Hchain Hloop).
Qed.

(** Walking back from a node with cost [g] collects steps of total [g]. *)
Lemma walk_back_sum st fuel c g acc steps :
  chain_inv startId st -> gScore st !! c = Some g ->
  walk_back fuel this (cameFrom st) startId c acc = WalkDone steps ->
  sum_distances steps == sum_distances acc + g.
Proof.
  intros (Hs0 & Hsnone & Hsvis & Hlinked & Hsum).
  revert c g acc. induction fuel as [|fuel IH]; intros c g acc Hg; simpl;
    [done|].
  case_decide as Hc.
  { subst c. intros [= <-]. rewrite Hs0 in Hg. injection Hg as <-. lra. }
  destruct (Hlinked c g Hg Hc) as [[prev o] Hprev]. rewrite Hprev.
  destruct (nodesCache this !! c) as [node|]; [|done].
  destruct (Hsum c prev o Hprev) as (_ & gp & Hgp & Hgc).
  rewrite Hg in Hgc. injection Hgc as ->.
  intros Hwalk. rewrite (IH prev gp _ Hgp Hwalk), sum_distances_app.
  unfold sum_distances at 2. simpl. lra.
Qed.

(** Under a consistent heuristic the reported [total_distance] is the sum
    of the step distances, rounded to two decimals. *)
Lemma search_total_distance r :
  search this startId goalId avoid = Success r ->
  total_distance r == round2 (sum_distances (path r)).
Proof.
  unfold search.
  destruct (search_loop _ _ _ _ _) as [st| |] eqn:Hloop; [|done..].
  apply search_loop_chain in Hloop as [Hchain [g Hg]].
  unfold reconstructPath.
  destruct (walk_back _ _ _ _ _ _) as [steps| |] eqn:Hwalk; [|done..].
  destruct (nodesCache this !! startId) as [startNode|]; [|done].
  intros [= <-]. simpl. apply round2_comp.
  unfold gScore_get. rewrite Hg. simpl.
  rewrite sum_distances_reverse, sum_distances_app.
  rewrite (walk_back_sum st _ _ g [] steps Hchain Hg Hwalk).
  unfold sum_distances. simpl. lra.
Qed.

End astar_total.

(** Options at least as long as the heuristic's guess for their floors make
    the heuristic consistent, whatever the goal. *)
Lemma floors_respected_consistent this goalId avoid :
  floors_respected this -> consistent_heuristic this goalId avoid.
Proof.
  intros Hfloors v l o Hl Ho _.
  destruct (Hfloors v l o Hl Ho) as (nodeA & nodeB & HA & HB & Hd).
  unfold heuristic. rewrite HA, HB.
  assert (0 <= EdgeInfo.distance o) as Hpos.
  { eapply Qle_trans; [|exact Hd].
    apply Qmult_le_0_compat; [|done].
    change 0 with (inject_Z 0). rewrite <- Zle_Qle. lia. }
  destruct (nodesCache this !! goalId) as [nodeG|]; [|lra].
  set (a := Nodes.floor_level nodeA) in *.
  set (b := Nodes.floor_level nodeB) in *.
  set (g := Nodes.floor_level nodeG).
  assert (inject_Z (Z.abs (a - g)) <=
          inject_Z (Z.abs (a - b)) + inject_Z (Z.abs (b - g))) as Htri.
  { rewrite <- inject_Z_plus, <- Zle_Qle. lia. }
  lra.
Qed.

(** With both codes resolved, on a snapshot whose options respect the
    floors, a successful [findPath] reports the rounded sum of its step
    distances. *)
Lemma findPath_total_distance_consistent this db startCode goalCode avoid
    startNode goalNode r :
  Nodes_findOne db startCode = Some startNode ->
  Nodes_findOne db goalCode = Some goalNode ->
  floors_respected (ensure_built this db) ->
  (findPath this db startCode goalCode avoid).2 = Success r ->
  total_distance r == round2 (sum_distances (path r)).
Proof.
  intros Hs Hg Hfloors. unfold findPath. rewrite Hs, Hg. cbn [snd].
  apply search_total_distance. by apply floors_respected_consistent.
Qed.

(** ** Properties of the priority queue *)

Lemma foldl_apply_op_heap_ok (ops : list HeapOp) (h : MinHeap) :
  heap_ok h -> heap_ok (foldl apply_op h ops).
Proof.
  revert h. induction ops as [|o ops IH]; intros h Hok; simpl; [done|].
  apply IH. destruct o as [p v|]; simpl.
  - by apply push_heap_ok.
  - destruct (pop h) as [[e h']|] eqn:Hpop; [|done]. by eapply pop_heap_ok.
Qed.

(** C8.  After any sequence of [push] and [pop] calls on a new queue, the
    backing array is heap ordered, and a further [pop] returns [null] only
    on the empty queue; otherwise it removes exactly one entry, and that
    entry's priority is less than or equal to the priority of every entry
    that remains. *)
Theorem MinHeap_pop_returns_minimum (ops : list HeapOp) :
  heap_ok (run_ops ops) /\
  match pop (run_ops ops) with
  | Some (e, rest) =>
      run_ops ops ≡ₚ e :: rest /\
      Forall (fun x => priority e <= priority x) rest /\
      heap_ok rest
  | None => run_ops ops = []
  end.
Proof.
  assert (heap_ok (run_ops ops)) as Hok.
  { apply foldl_apply_op_heap_ok, heap_ok_nil. }
  split; [done|].
  destruct (pop (run_ops ops)) as [[e rest]|] eqn:Hpop.
  - split_and!.
    + by apply pop_Permutation.
    + apply Forall_forall. by eapply pop_min.
    + by eapply pop_heap_ok.
  - by apply pop_None.
Qed.

(** ** Compass words *)

Lemma compass_quotient_nonneg (angle : Q) :
  0 <= angle -> (0 <= Qfloor ((angle + (1125 # 100)) / (225 # 10)))%Z.
Proof.
  intros Hangle. change 0%Z with (Qfloor 0). apply Qfloor_resp_le.
  apply Qle_shift_div_l; [reflexivity|].
  rewrite Qmult_0_l. apply Qle_trans with angle; [done|].
  rewrite <- (Qplus_0_r angle) at 1. apply Qplus_le_r. discriminate.
Qed.

(** C6.  For a compass angle (a number from 0 up) [compassToDirection]
    returns the word of the sixteen-point rose at index
    [floor((angle + 11.25) / 22.5) mod 16], the words being listed clockwise
    from North; 0 and 359.9 give North, 90 East, 180 South, 270 West. *)
Theorem compassToDirection_rose :
  (forall angle, 0 <= angle ->
     compassToDirection angle = directions !! Z.to_nat (spec_compass_index angle) /\
     is_Some (compassToDirection angle)) /\
  directions !! 0%nat = Some "North" /\
  compassToDirection 0 = Some "North" /\
  compassToDirection (3599 # 10) = Some "North" /\
  compassToDirection 90 = Some "East" /\
  compassToDirection 180 = Some "South" /\
  compassToDirection 270 = Some "West".
Proof.
  split; [|by vm_compute].
  intros angle Hangle.
  pose proof (compass_quotient_nonneg angle Hangle) as Hq.
  assert (compassToDirection angle =
          directions !! Z.to_nat (spec_compass_index angle)) as Heq.
  { unfold compassToDirection, compass_index, spec_compass_index, array_get,
      JS.Math_floor.
    rewrite Z.rem_mod_nonneg by lia.
    set (i := (_ mod 16)%Z).
    assert (0 <= i < 16)%Z as Hi by (apply Z.mod_pos_bound; lia).
    destruct (Z.ltb_spec i 0); [lia | done]. }
  split; [done|]. rewrite Heq.
  apply lookup_lt_is_Some_2.
  assert (0 <= spec_compass_index angle < 16)%Z as Hi
    by (apply Z.mod_pos_bound; lia).
  change (length directions) with 16%nat. lia.
Qed.

Lemma compassToDirection_rose_witness :
  compassToDirection 45 = directions !! Z.to_nat (spec_compass_index 45) /\
  is_Some (compassToDirection 45).
Proof.
  apply (proj1 compassToDirection_rose 45). by vm_compute.
Defined.

(** ** The concrete scenario *)

(** C7.  On the three-node scenario, [findPath("A", "C", false)] returns
    the path A, B, C with [total_distance] 15, and
    [findPath("A", "C", true)] returns the no-path error. *)
Theorem findPath_scenario :
  (exists r,
     (findPath new_PathFinder scenario_db "A" "C" false).2 = Success r /\
     Step.node_code <$> path r = ["A"; "B"; "C"] /\
     total_distance r == 15 /\
     num_nodes r = 3%nat) /\
  (findPath new_PathFinder scenario_db "A" "C" true).2 = Error no_path_found.
Proof.
  split.
  - eexists. split; [by vm_compute|]. by vm_compute.
  - by vm_compute.
Qed.

(** ** Both directions of an edge *)

(** For a compass angle (a number from 0 up) the reverse heading is
    [(angle + 180) mod 360]. *)
Lemma reverseAngle_spec_mod (angle : Q) :
  0 <= angle -> reverseAngle angle = spec_mod (angle + 180) 360.
Proof.
  intros Hangle. unfold reverseAngle, JS.rem, spec_mod, JS.trunc.
  assert (0 <= (angle + 180) / 360) as Hq.
  { apply Qle_shift_div_l; [reflexivity|]. rewrite Qmult_0_l.
    apply Qle_trans with angle; [done|].
    rewrite <- (Qplus_0_r angle) at 1. apply Qplus_le_r. discriminate. }
  apply Qle_bool_iff in Hq. by rewrite Hq.
Qed.

(** C3.  For every stored active edge from [A] to [B], both of them node
    rows, with distance [d], compass angle [theta] and staircase flag [s]:
    the adjacency list of [A] holds the forward option (to [B], [d],
    [theta], [s]) and the adjacency list of [B] holds the reverse option
    (to [A], [d], [(theta + 180) % 360], [s]).  Both options carry the
    distance [d], and for a compass angle (a number from 0 up) the reverse
    angle is [(theta + 180) mod 360]. *)
Theorem buildGraph_both_directions (this : PathFinder) (db : DataLayer)
    (edge : Edges.row) :
  edge ∈ edges_table db -> Edges.is_active edge = true ->
  Edges.from_node_id edge ∈ node_ids db ->
  Edges.to_node_id edge ∈ node_ids db ->
  let snapshot := buildGraph this db in
  has_option snapshot (Edges.from_node_id edge)
    (EdgeInfo.mk (Edges.to_node_id edge) (Edges.distance edge)
       (Edges.compass_angle edge) (Edges.is_staircase edge)
       (Edges.edge_id edge)) /\
  has_option snapshot (Edges.to_node_id edge)
    (EdgeInfo.mk (Edges.from_node_id edge) (Edges.distance edge)
       (JS.rem (Edges.compass_angle edge + 180) 360) (Edges.is_staircase edge)
       (Edges.edge_id edge)) /\
  (0 <= Edges.compass_angle edge ->
   JS.rem (Edges.compass_angle edge + 180) 360 =
     spec_mod (Edges.compass_angle edge + 180) 360).
Proof.
  intros Hin Hact Hfrom Hto snapshot. subst snapshot. split_and!.
  - by apply buildGraph_forward.
  - by apply buildGraph_reverse.
  - apply reverseAngle_spec_mod.
Qed.

Lemma buildGraph_both_directions_witness :
  has_option (buildGraph new_PathFinder scenario_db) 1
    (EdgeInfo.mk 2 10 90 false 1) /\
  has_option (buildGraph new_PathFinder scenario_db) 2
    (EdgeInfo.mk 1 10 (JS.rem (90 + 180) 360) false 1) /\
  (0 <= 90 -> JS.rem (90 + 180) 360 = spec_mod (90 + 180) 360).
Proof.
  apply (buildGraph_both_directions new_PathFinder scenario_db
           (plain_edge 1 1 2 10 90 false)).
  - by left.
  - reflexivity.
  - vm_compute. repeat constructor.
  - vm_compute. repeat constructor.
Defined.

(** ** Reset *)

Lemma findPath_fst this db startCode goalCode avoid :
  (findPath this db startCode goalCode avoid).1 = ensure_built this db.
Proof.
  unfold findPath.
  by destruct (Nodes_findOne db startCode), (Nodes_findOne db goalCode).
Qed.

(** C9.  After [reset()] the next [findPath] is the [findPath] of a new
    engine on the data layer as it is at the call, and the snapshot it
    leaves is the one built from that data layer: its cache holds exactly
    the current nodes, every adjacency option is a direction of a current
    active edge, and every current active edge has its options on the lists
    of those of its ends that are nodes.  The same holds for the
    module-level [resetPathfinder()] followed by [getPathfinder()]. *)
Theorem reset_then_findPath (this : PathFinder) (db : DataLayer)
    (startCode goalCode : string) (avoidStairs : bool) :
  findPath (reset this) db startCode goalCode avoidStairs =
    findPath new_PathFinder db startCode goalCode avoidStairs /\
  (findPath (reset this) db startCode goalCode avoidStairs).1 =
    buildGraph new_PathFinder db /\
  (getPathfinder (resetPathfinder (Some this))).1 = new_PathFinder /\
  Forall (fun n => is_Some
            (nodesCache (findPath (reset this) db startCode goalCode
                           avoidStairs).1 !! Nodes.node_id n))
    (nodes_table db) /\
  map_Forall (fun k n => n ∈ nodes_table db /\ Nodes.node_id n = k)
    (nodesCache (findPath (reset this) db startCode goalCode avoidStairs).1) /\
  map_Forall (fun k l => Forall (fun o =>
      exists edge, edge ∈ edges_table db /\ Edges.is_active edge = true /\
        ((k = Edges.from_node_id edge /\ o = forward_option edge) \/
         (k = Edges.to_node_id edge /\ o = reverse_option edge))) l)
    (graph (findPath (reset this) db startCode goalCode avoidStairs).1) /\
  Forall (fun edge =>
      (if decide (Edges.from_node_id edge ∈ node_ids db)
       then has_option (findPath (reset this) db startCode goalCode
                          avoidStairs).1
              (Edges.from_node_id edge) (forward_option edge)
       else True) /\
      (if decide (Edges.to_node_id edge ∈ node_ids db)
       then has_option (findPath (reset this) db startCode goalCode
                          avoidStairs).1
              (Edges.to_node_id edge) (reverse_option edge)
       else True))
    (Edges_findAll_active db).
Proof.
  rewrite findPath_fst. split_and!; try done.
  - apply Forall_forall. intros n Hn.
    apply (buildGraph_cache_is_Some new_PathFinder). unfold node_ids.
    by apply list_elem_of_fmap_2.
  - intros k n Hk. by apply (buildGraph_cache_row new_PathFinder) in Hk.
  - intros k l Hk. apply Forall_forall. intros o Ho.
    by apply (buildGraph_option_inv new_PathFinder db k l o).
  - apply Forall_forall. intros edge [Hin Hact]%elem_of_active. split.
    + case_decide; [|done]. by apply (buildGraph_forward new_PathFinder).
    + case_decide; [|done]. by apply (buildGraph_reverse new_PathFinder).
Qed.

(** ** A node to itself *)

Lemma search_same_node this id avoid cached :
  nodesCache this !! id = Some cached ->
  search this id id avoid =
    Success {| path := [step_start cached];
               total_distance := round2 0;
               num_nodes := 1;
               start := Some (step_start cached);
               goal := Some (step_start cached) |}.
Proof.
  intros Hcached. unfold search, search_fuel, initial_state.
  rewrite push_on_empty. cbn [Nat.add search_loop openSet pop value visited].
  rewrite decide_False by set_solver. rewrite decide_True by done.
  unfold reconstructPath. cbn [cameFrom walk_back].
  rewrite decide_True by done. rewrite Hcached.
  cbn [gScore]. unfold gScore_get. rewrite lookup_singleton_eq. done.
Qed.

(** C5.  For a code that resolves to a node whose id is in the snapshot's
    cache, and either value of [avoidStairs], [findPath(X, X, avoidStairs)]
    returns a path of exactly one step, the node itself with
    [distance_from_prev] 0 and a [null] compass angle, and [total_distance]
    0. *)
Theorem findPath_same_node (this : PathFinder) (db : DataLayer)
    (code : string) (avoidStairs : bool) (node cached : Nodes.row) :
  Nodes_findOne db code = Some node ->
  nodesCache (ensure_built this db) !! Nodes.node_id node = Some cached ->
  exists r,
    findPath this db code code avoidStairs = (ensure_built this db, Success r) /\
    path r = [step_start cached] /\
    Step.node_id (step_start cached) = Nodes.node_id cached /\
    Step.distance_from_prev (step_start cached) = 0 /\
    Step.compass_angle (step_start cached) = None /\
    total_distance r == 0 /\
    num_nodes r = 1%nat.
Proof.
  intros Hnode Hcached. unfold findPath. rewrite Hnode.
  rewrite (search_same_node _ _ _ _ Hcached).
  eexists. split; [done|]. by split_and!.
Qed.

Lemma findPath_same_node_witness :
  exists r,
    findPath new_PathFinder scenario_db "C" "C" true =
      (ensure_built new_PathFinder scenario_db, Success r) /\
    path r = [step_start (plain_node 3 "C" 1)] /\
    Step.node_id (step_start (plain_node 3 "C" 1)) = 3%Z /\
    Step.distance_from_prev (step_start (plain_node 3 "C" 1)) = 0 /\
    Step.compass_angle (step_start (plain_node 3 "C" 1)) = None /\
    total_distance r == 0 /\
    num_nodes r = 1%nat.
Proof.
  apply (findPath_same_node new_PathFinder scenario_db "C" true
           (plain_node 3 "C" 1) (plain_node 3 "C" 1)).
  - reflexivity.
  - by vm_compute.
Defined.

(** ** Routes and walks *)

Lemma route_walk g avoid a b :
  route g avoid a b ->
  exists os, walk g a os b /\ Forall (traversable avoid) os.
Proof.
  induction 1 as [|b l o _ (os & Hwalk & Hall) Hl Ho Ht].
  - exists []. split; [constructor | constructor].
  - exists (os ++ [o]). split; [by econstructor|].
    apply Forall_app. split; [done | by constructor].
Qed.

Lemma walk_route g avoid a os b :
  walk g a os b -> Forall (traversable avoid) os -> route g avoid a b.
Proof.
  induction 1 as [|os b l o _ IH Hl Ho]; intros Hall; [constructor|].
  apply Forall_app in Hall as [Hos Hlast].
  rewrite Forall_singleton in Hlast.
  apply (route_step g avoid a b l o); [by apply IH | done | done | done].
Qed.

(** A route ends where it starts, or leaves the start through one of its
    adjacency options and enters the end through an option leading to it. *)
Lemma route_ends g avoid a b :
  route g avoid a b ->
  a = b \/
  (is_Some (g !! a) /\ exists k l o, g !! k = Some l /\ o ∈ l /\ EdgeInfo.to o = b).
Proof.
  induction 1 as [|b l o _ IH Hl Ho _]; [by left|].
  right. split; [|by eauto 6].
  destruct IH as [->|[? _]]; [eauto | done].
Qed.

(** ** Steps of a reconstructed path *)

Section reconstruct.
Variables (this : PathFinder) (cameFrom : gmap Z (Z * EdgeInfo.t)).
Variables (startId : Z) (Q : Step.t -> Prop).
Hypothesis Q_via :
  forall n prev o node, cameFrom !! n = Some (prev, o) -> Q (step_via node o).
Hypothesis Q_start : forall node, Q (step_start node).

Lemma walk_back_Forall fuel currentId acc steps :
  Forall Q acc ->
  walk_back fuel this cameFrom startId currentId acc = WalkDone steps ->
  Forall Q steps.
Proof.
  revert currentId acc. induction fuel as [|fuel IH]; intros c acc Hacc;
    simpl; [done|].
  case_decide; [by intros [= <-]|].
  destruct (cameFrom !! c) as [[prev o]|] eqn:Hc; [|by intros [= <-]].
  destruct (nodesCache this !! c) as [node|]; [|done].
  apply IH. apply Forall_app. split; [done|].
  apply Forall_singleton. by eapply Q_via.
Qed.

Lemma reconstructPath_Forall goalId totalDistance r :
  reconstructPath this cameFrom startId goalId totalDistance = Success r ->
  Forall Q (path r).
Proof.
  unfold reconstructPath.
  destruct (walk_back _ _ _ _ _ _) as [steps| |] eqn:Hwalk; [|done..].
  destruct (nodesCache this !! startId) as [startNode|]; [|done].
  intros [= <-]. simpl. apply Forall_reverse, Forall_app.
  split; [|by apply Forall_singleton].
  eapply walk_back_Forall; [|done]. constructor.
Qed.

End reconstruct.

(** ** Avoiding stairs *)

Lemma search_avoidStairs this startId goalId r :
  search this startId goalId true = Success r ->
  Forall (fun s => Step.is_staircase s = false) (path r).
Proof.
  unfold search.
  destruct (search_loop _ _ _ _ _) as [st| |] eqn:Hloop; [|done..].
  apply search_loop_sound with (startId := startId) in Hloop
    as ([_ Hfrom] & _ & _); [|apply initial_state_inv].
  apply reconstructPath_Forall; [|done].
  intros n prev o node Hn. by destruct (Hfrom _ _ _ Hn) as [Ht _].
Qed.

(** C1.  With [avoidStairs = true], [findPath] never returns a path with
    a staircase step; and when both codes resolve and every walk in the
    snapshot graph from the start node to the goal node takes at least one
    staircase option, it returns the no-path error. *)
Theorem findPath_avoidStairs (this : PathFinder) (db : DataLayer)
    (startCode goalCode : string) :
  (forall r,
     (findPath this db startCode goalCode true).2 = Success r ->
     Forall (fun s => Step.is_staircase s = false) (path r)) /\
  (forall startNode goalNode,
     Nodes_findOne db startCode = Some startNode ->
     Nodes_findOne db goalCode = Some goalNode ->
     (forall os,
        walk (graph (ensure_built this db)) (Nodes.node_id startNode) os
          (Nodes.node_id goalNode) ->
        Exists (fun o => EdgeInfo.is_staircase o = true) os) ->
     (findPath this db startCode goalCode true).2 = Error no_path_found).
Proof.
  split.
  - intros r. unfold findPath.
    destruct (Nodes_findOne db startCode) as [startNode|]; [|done].
    destruct (Nodes_findOne db goalCode) as [goalNode|]; [|done].
    apply search_avoidStairs.
  - intros startNode goalNode Hstart Hgoal Hstairs.
    unfold findPath. rewrite Hstart, Hgoal. cbn [snd].
    apply search_no_route. intros Hroute.
    apply route_walk in Hroute as (os & Hwalk & Hall).
    apply Hstairs in Hwalk. apply Exists_exists in Hwalk as (o & Ho & Hstair).
    rewrite Forall_forall in Hall. specialize (Hall o Ho).
    unfold traversable in Hall. by rewrite Hstair in Hall.
Qed.

(** In the scenario every walk from [A] that takes no staircase stays in
    [A] and [B]. *)
Lemma scenario_walk_without_stairs os b :
  walk (graph (ensure_built new_PathFinder scenario_db)) 1 os b ->
  Forall (fun o => EdgeInfo.is_staircase o = false) os ->
  b = 1%Z \/ b = 2%Z.
Proof.
  induction 1 as [|os b l o _ IH Hl Ho]; intros Hall; [by left|].
  apply Forall_app in Hall as [Hos Hlast]. rewrite Forall_singleton in Hlast.
  destruct (IH Hos) as [-> | ->]; vm_compute in Hl; simplify_eq.
  - apply list_elem_of_singleton in Ho as ->. by right.
  - apply elem_of_cons in Ho as [-> | Ho]; [by left|].
    apply list_elem_of_singleton in Ho as ->. done.
Qed.

Lemma scenario_walk_needs_stairs os :
  walk (graph (ensure_built new_PathFinder scenario_db)) 1 os 3 ->
  Exists (fun o => EdgeInfo.is_staircase o = true) os.
Proof.
  intros Hwalk.
  destruct (decide (Forall (fun o => EdgeInfo.is_staircase o = false) os))
    as [Hall | Hnot].
  - by destruct (scenario_walk_without_stairs _ _ Hwalk Hall).
  - apply not_Forall_Exists in Hnot; [|apply _].
    eapply Exists_impl; [done|]. intros o. simpl.
    by destruct (EdgeInfo.is_staircase o).
Qed.

Lemma findPath_avoidStairs_witness :
  (exists r,
     (findPath new_PathFinder scenario_db "A" "B" true).2 = Success r /\
     Forall (fun s => Step.is_staircase s = false) (path r)) /\
  (findPath new_PathFinder scenario_db "A" "C" true).2 = Error no_path_found.
Proof.
  split.
  - eexists. split; [by vm_compute|].
    apply (proj1 (findPath_avoidStairs new_PathFinder scenario_db "A" "B")).
    by vm_compute.
  - apply (proj2 (findPath_avoidStairs new_PathFinder scenario_db "A" "C")
             (plain_node 1 "A" 0) (plain_node 3 "C" 1)).
    + reflexivity.
    + reflexivity.
    + exact scenario_walk_needs_stairs.
Defined.

(** ** Codes are resolved in the data layer *)

Lemma absent_no_route this avoid startId goalId :
  startId <> goalId ->
  absent_from_snapshot this startId \/ absent_from_snapshot this goalId ->
  ~ route (graph this) avoid startId goalId.
Proof.
  intros Hne Habsent Hroute.
  apply route_ends in Hroute as [? | [[l Hl] (k & l' & o & Hk & Ho & Hto)]];
    [done|].
  destruct Habsent as [(_ & Hnone & _) | (_ & _ & Hnot)].
  - by rewrite Hnone in Hl.
  - by eapply Hnot.
Qed.

(** A node created after the snapshot was built: if the edges of the data
    layer the snapshot was built from join nodes of that data layer, an id
    that was not a node then occurs nowhere in the snapshot. *)
Lemma buildGraph_absent this db id :
  id ∉ node_ids db ->
  (forall edge, edge ∈ edges_table db -> Edges.is_active edge = true ->
     Edges.from_node_id edge ∈ node_ids db /\
     Edges.to_node_id edge ∈ node_ids db) ->
  absent_from_snapshot (buildGraph this db) id.
Proof.
  intros Hid Hedges. split_and!.
  - apply eq_None_not_Some. by rewrite buildGraph_cache_is_Some.
  - apply eq_None_not_Some. by rewrite buildGraph_graph_is_Some.
  - intros k l o Hk Ho.
    destruct (buildGraph_option_inv this db k l o Hk Ho)
      as (edge & Hin & Hact & Hcase).
    destruct (Hedges edge Hin Hact) as [Hfrom Hto].
    destruct Hcase as [[_ ->] | [_ ->]]; simpl; by intros <-.
Qed.

(** C10.  On an engine whose snapshot is built, when both codes resolve in
    the data layer to different nodes and one of the two nodes occurs
    nowhere in the snapshot, [findPath] keeps the snapshot and returns the
    no-path error. *)
Theorem findPath_resolves_in_data_layer (this : PathFinder) (db : DataLayer)
    (startCode goalCode : string) (avoidStairs : bool)
    (startNode goalNode : Nodes.row) :
  initialized this = true ->
  Nodes_findOne db startCode = Some startNode ->
  Nodes_findOne db goalCode = Some goalNode ->
  Nodes.node_id startNode <> Nodes.node_id goalNode ->
  absent_from_snapshot this (Nodes.node_id startNode) \/
  absent_from_snapshot this (Nodes.node_id goalNode) ->
  findPath this db startCode goalCode avoidStairs = (this, Error no_path_found).
Proof.
  intros Hinit Hstart Hgoal Hne Habsent.
  unfold findPath, ensure_built. rewrite Hinit, Hstart, Hgoal.
  f_equal. apply search_no_route. by apply absent_no_route.
Qed.

Lemma stale_engine_absent : absent_from_snapshot stale_engine 2.
Proof.
  apply buildGraph_absent.
  - by intros ?%list_elem_of_singleton.
  - by intros edge ?%not_elem_of_nil.
Qed.

Lemma findPath_resolves_in_data_layer_witness :
  findPath stale_engine db_after "A" "B" false =
    (stale_engine, Error no_path_found) /\
  findPath stale_engine db_after "B" "A" true =
    (stale_engine, Error no_path_found).
Proof.
  split.
  - apply (findPath_resolves_in_data_layer stale_engine db_after "A" "B" false
             (plain_node 1 "A" 0) (plain_node 2 "B" 0)).
    + reflexivity.
    + reflexivity.
    + reflexivity.
    + discriminate.
    + right. exact stale_engine_absent.
  - apply (findPath_resolves_in_data_layer stale_engine db_after "B" "A" true
             (plain_node 2 "B" 0) (plain_node 1 "A" 0)).
    + reflexivity.
    + reflexivity.
    + reflexivity.
    + discriminate.
    + left. exact stale_engine_absent.
Defined.

(** ** Reported distance and step distances *)

(** C2, that [total_distance] is the sum of the [distance_from_prev] of the
    steps up to rounding to two decimals, fails on the code.  In
    [short_stairs_db] the first pop of [Y] finalizes it with cost 3 and
    gives [G] the cost 13; the later pop of [X] finds the cheaper way to [Y]
    over the stairs and rewrites the predecessor and the cost of the
    finalized [Y], but the cost of [G] is not revisited.  The path returned
    is S, X, Y, G with step distances 0, 1, 1, 10, and the reported
    [total_distance] is 13.  (Where no finalized node is given a new cost,
    as under a consistent heuristic, the two agree: lemma
    [findPath_total_distance_consistent].) *)
Theorem findPath_total_distance_mismatch :
  exists r,
    (findPath new_PathFinder short_stairs_db "S" "G" false).2 = Success r /\
    Step.node_code <$> path r = ["S"; "X"; "Y"; "G"] /\
    Step.distance_from_prev <$> path r = [0; 1; 1; 10] /\
    sum_distances (path r) == 12 /\
    total_distance r == 13 /\
    ~ total_distance r == round2 (sum_distances (path r)).
Proof.
  eexists. split; [by vm_compute|]. by split_and!.
Qed.

(** The three-node scenario respects the floors, so its totals agree. *)
Lemma scenario_floors_respected :
  floors_respected (ensure_built new_PathFinder scenario_db).
Proof.
  intros v l o Hl Ho.
  destruct (buildGraph_option_inv new_PathFinder scenario_db v l o Hl Ho)
    as (edge & Hin & _ & Hcase).
  apply elem_of_cons in Hin as [-> | Hin];
    [|apply list_elem_of_singleton in Hin as ->];
    destruct Hcase as [[-> ->] | [-> ->]];
    do 2 eexists; (split_and!; [by vm_compute | by vm_compute | by vm_compute]).
Qed.

Lemma scenario_total_distance r :
  (findPath new_PathFinder scenario_db "A" "C" false).2 = Success r ->
  total_distance r == round2 (sum_distances (path r)).
Proof.
  apply (findPath_total_distance_consistent new_PathFinder scenario_db
           "A" "C" false (plain_node 1 "A" 0) (plain_node 3 "C" 1));
    [reflexivity | reflexivity | apply scenario_floors_respected].
Qed.

(** ** Outcomes of [findPath] *)

Lemma no_path_found_not_start code : no_path_found <> start_not_found code.
Proof. done. Qed.

Lemma no_path_found_not_goal code : no_path_found <> goal_not_found code.
Proof. done. Qed.

(** The search itself never returns a node-not-found error. *)
Lemma search_not_NodeNotFound this startId goalId avoid :
  ~ NodeNotFound (search this startId goalId avoid).
Proof.
  unfold search, NodeNotFound.
  destruct (search_loop _ _ _ _ _) as [st| |].
  - unfold reconstructPath. destruct (walk_back _ _ _ _ _ _); [|naive_solver..].
    destruct (nodesCache this !! startId); naive_solver.
  - intros [code [H | H]]; by injection H.
  - naive_solver.
Qed.

(** [findPath] returns a node-not-found error exactly when one of the two
    codes does not resolve in the data layer, and the message ends with the
    code that did not resolve. *)
Lemma findPath_NodeNotFound this db startCode goalCode avoid :
  (NodeNotFound (findPath this db startCode goalCode avoid).2 <->
   Nodes_findOne db startCode = None \/ Nodes_findOne db goalCode = None) /\
  (Nodes_findOne db startCode = None ->
   (findPath this db startCode goalCode avoid).2 =
     Error ("Start node not found: " +:+ startCode)) /\
  (is_Some (Nodes_findOne db startCode) -> Nodes_findOne db goalCode = None ->
   (findPath this db startCode goalCode avoid).2 =
     Error ("Goal node not found: " +:+ goalCode)).
Proof.
  unfold findPath.
  destruct (Nodes_findOne db startCode) as [startNode|] eqn:Hs;
    destruct (Nodes_findOne db goalCode) as [goalNode|] eqn:Hg; cbn [snd].
  - split_and!; [|done|done].
    split; [|naive_solver].
    by intros ?%search_not_NodeNotFound.
  - split_and!; [|done|done].
    split; [by right|]. intros _. exists goalCode. by right.
  - split_and!; [|done|by intros [] ].
    split; [by left|]. intros _. exists startCode. by left.
  - split_and!; [|done|by intros [] ].
    split; [by left|]. intros _. exists startCode. by left.
Qed.

(** Every error object [findPath] returns is one of the two of the
    interface, and with both codes resolved the no-path error is returned
    exactly when the loop falls out of an empty open set, which is exactly
    when no route leads from the start to the goal. *)
Lemma findPath_error_objects this db startCode goalCode avoid :
  (forall msg, (findPath this db startCode goalCode avoid).2 = Error msg ->
     NodeNotFound (Error msg) \/ NoPathFound (Error msg)) /\
  (forall startNode goalNode,
     Nodes_findOne db startCode = Some startNode ->
     Nodes_findOne db goalCode = Some goalNode ->
     let snapshot := ensure_built this db in
     let startId := Nodes.node_id startNode in
     let goalId := Nodes.node_id goalNode in
     (NoPathFound (findPath this db startCode goalCode avoid).2 <->
      search_loop (search_fuel snapshot) snapshot goalId avoid
        (initial_state snapshot startId goalId) = OpenSetEmpty) /\
     (NoPathFound (findPath this db startCode goalCode avoid).2 <->
      ~ route (graph snapshot) avoid startId goalId)).
Proof.
  split.
  - intros msg. unfold findPath.
    destruct (Nodes_findOne db startCode) as [startNode|];
      [|intros [= <-]; left; exists startCode; by left].
    destruct (Nodes_findOne db goalCode) as [goalNode|];
      [|intros [= <-]; left; exists goalCode; by right].
    cbn [snd]. unfold search.
    destruct (search_loop _ _ _ _ _) as [st| |]; [|by right|done].
    unfold reconstructPath. destruct (walk_back _ _ _ _ _ _); [|done..].
    by destruct (nodesCache _ !! _).
  - intros startNode goalNode Hs Hg snapshot startId goalId.
    unfold findPath, NoPathFound. rewrite Hs, Hg. cbn [snd].
    split; [|apply search_no_path_iff].
    fold snapshot startId goalId. unfold search.
    pose proof (search_loop_total snapshot startId goalId avoid) as Htotal.
    destruct (search_loop _ _ _ _ _) as [st| |]; [|done|done].
    split; [|done]. unfold reconstructPath.
    destruct (walk_back _ _ _ _ _ _); [|done..].
    by destruct (nodesCache _ !! _).
Qed.

(** C4, that the two error objects are the only error outcomes of
    [findPath], fails on the code.  The snapshot was built when the data
    layer held only [A]; node [B] was added afterwards.  Both codes of
    [findPath("B", "B", false)] resolve, the start is popped as the goal, and
    [reconstructPath] reads [node_id] of [this.nodesCache.get(startId)],
    which is [undefined]: the call throws, an outcome that is neither a
    path nor one of the two error objects.  (What holds of the error
    objects themselves is in lemmas [findPath_NodeNotFound] and
    [findPath_error_objects].) *)
Theorem findPath_throws_on_stale_snapshot :
  is_Some (Nodes_findOne db_after "B") /\
  findPath stale_engine db_after "B" "B" false = (stale_engine, Throws) /\
  ~ NodeNotFound (findPath stale_engine db_after "B" "B" false).2 /\
  ~ NoPathFound (findPath stale_engine db_after "B" "B" false).2 /\
  (forall r, (findPath stale_engine db_after "B" "B" false).2 <> Success r).
Proof.
  assert (findPath stale_engine db_after "B" "B" false = (stale_engine, Throws))
    as Heq by (by vm_compute).
  rewrite Heq. split_and!; [by eexists | done | | done | done].
  intros [code [H | H]]; discriminate.
Qed.

(** ** A returned path is a route of the snapshot *)

Section path_route.
Variables (this : PathFinder) (startId goalId : Z) (avoid : bool).

Lemma relax_link c st o :
  link_inv startId st ->
  c = startId \/ is_Some (cameFrom st !! c) ->
  let st' := relax this goalId avoid c st o in
  link_inv startId st' /\ (c = startId \/ is_Some (cameFrom st' !! c)).
Proof.
  intros [Hopen Hprev] Hc. unfold relax.
  destruct (avoid && EdgeInfo.is_staircase o); [done|].
  destruct (improves _ _ _); [|done]. simpl.
  assert (forall x, x = startId \/ is_Some (cameFrom st !! x) ->
            x = startId \/
            is_Some (<[EdgeInfo.to o := (c, o)]> (cameFrom st) !! x)) as Hmono.
  { intros x [?|?]; [by left|]. right.
    apply lookup_insert_is_Some'. by right. }
  split; [|by apply Hmono]. split; simpl.
  - intros e He. rewrite push_Permutation in He.
    apply elem_of_cons in He as [-> | He]; simpl.
    + right. by rewrite lookup_insert_eq.
    + by apply Hmono, Hopen.
  - intros n prev o' Hn.
    apply lookup_insert_Some in Hn as [[_ [= <- _]] | [_ Hn]];
      [by apply Hmono | by eapply Hmono, Hprev].
Qed.

Lemma foldl_relax_link c ns st :
  link_inv startId st ->
  c = startId \/ is_Some (cameFrom st !! c) ->
  link_inv startId (foldl (relax this goalId avoid c) st ns).
Proof.
  revert st. induction ns as [|o ns IH]; intros st Hlink Hc; simpl; [done|].
  destruct (relax_link c st o Hlink Hc) as [Hlink' Hc']. by apply IH.
Qed.

Lemma search_loop_link fuel st st' :
  link_inv startId st ->
  search_loop fuel this goalId avoid st = GoalReached st' ->
  link_inv startId st' /\
  (goalId = startId \/ is_Some (cameFrom st' !! goalId)).
Proof.
  revert st. induction fuel as [|fuel IH]; intros st [Hopen Hprev]; [done|].
  simpl. destruct (pop (openSet st)) as [[entry rest]|] eqn:Hpop; [|done].
  apply pop_Permutation in Hpop as Hperm.
  assert (value entry = startId \/ is_Some (cameFrom st !! value entry))
    as Hentry by (apply Hopen; rewrite Hperm; by left).
  assert (forall vis, link_inv startId
            {| openSet := rest; cameFrom := cameFrom st; gScore := gScore st;
               fScore := fScore st; visited := vis |}) as Hrest.
  { intros vis. split; simpl; [|done].
    intros e He. apply Hopen. rewrite Hperm. by right. }
  case_decide; [by apply IH|].
  case_decide as Hgoal.
  { intros [= <-]. split; [done|]. by rewrite <- Hgoal. }
  apply IH. by apply foldl_relax_link.
Qed.

Lemma initial_state_link :
  link_inv startId (initial_state this startId goalId).
Proof.
  split; simpl.
  - intros e He. rewrite push_on_empty in He.
    apply list_elem_of_singleton in He as ->. by left.
  - intros n prev o Hn. by rewrite lookup_empty in Hn.
Qed.

(** Walking back along links that are options of the graph and never break
    before the start collects the steps of a walk from the start. *)
Lemma walk_back_route (cameFrom : gmap Z (Z * EdgeInfo.t)) fuel c acc steps :
  (forall n prev o, cameFrom !! n = Some (prev, o) ->
     traversable avoid o /\ EdgeInfo.to o = n /\
     (exists l, graph this !! prev = Some l /\ o ∈ l) /\
     (prev = startId \/ is_Some (cameFrom !! prev))) ->
  c = startId \/ is_Some (cameFrom !! c) ->
  walk_back fuel this cameFrom startId c acc = WalkDone steps ->
  exists os new,
    steps = acc ++ new /\
    walk (graph this) startId os c /\
    Forall (traversable avoid) os /\
    Forall2 (step_of_option this) (reverse new) os.
Proof.
  intros Hfrom. revert c acc.
  induction fuel as [|fuel IH]; intros c acc Hc; simpl; [done|].
  case_decide as Hstart.
  { intros [= <-]. exists [], []. subst c.
    split_and!; [by rewrite app_nil_r | constructor | constructor | constructor]. }
  destruct Hc as [? | [[prev o] Hprev]]; [done|]. rewrite Hprev.
  destruct (Hfrom c prev o Hprev) as (Ht & Hto & (l & Hl & Ho) & Hlink).
  destruct (nodesCache this !! c) as [node|] eqn:Hnode; [|done].
  intros Hwalk.
  destruct (IH prev _ Hlink Hwalk) as (os & new & -> & Hos & Hall & Hsteps).
  exists (os ++ [o]), (step_via node o :: new). split_and!.
  - by rewrite <- app_assoc.
  - rewrite <- Hto. by econstructor.
  - apply Forall_app. split; [done | by constructor].
  - rewrite reverse_cons. apply Forall2_app; [done|].
    constructor; [|constructor]. exists node. by rewrite Hto.
Qed.

(** A successful search returns the start step followed by the steps of a
    walk of traversable options from the start to the goal. *)
Lemma search_path_route r :
  search this startId goalId avoid = Success r ->
  exists startNode os rest,
    nodesCache this !! startId = Some startNode /\
    path r = step_start startNode :: rest /\
    walk (graph this) startId os goalId /\
    Forall (traversable avoid) os /\
    Forall2 (step_of_option this) rest os /\
    num_nodes r = S (length os) /\
    start r = Some (step_start startNode) /\
    goal r = last (path r).
Proof.
  unfold search.
  destruct (search_loop _ _ _ _ _) as [st| |] eqn:Hloop; [|done..].
  pose proof Hloop as Hloop'.
  apply search_loop_sound with (startId := startId) in Hloop
    as ([_ Hfrom] & _ & _); [|apply initial_state_inv].
  apply search_loop_link in Hloop' as [[_ Hprev] Hgoal];
    [|apply initial_state_link].
  unfold reconstructPath.
  destruct (walk_back _ _ _ _ _ _) as [steps| |] eqn:Hwalk; [|done..].
  destruct (nodesCache this !! startId) as [startNode|] eqn:Hnode; [|done].
  intros [= <-]. simpl.
  apply walk_back_route in Hwalk as (os & new & -> & Hos & Hall & Hsteps);
    [|intros n prev o Hn; destruct (Hfrom n prev o Hn) as (? & ? & ?);
      split_and!; [done | done | done | by eapply Hprev]
     |done].
  simpl in *. exists startNode, os, (reverse new).
  rewrite reverse_app, reverse_singleton. simpl.
  apply Forall2_length in Hsteps as Hlen.
  split_and!; try done. by rewrite Hlen.
Qed.

End path_route.

(** ** Under a consistent heuristic the cost found is the least *)

Lemma option_cost_app (os ps : list EdgeInfo.t) :
  option_cost (os ++ ps) == option_cost os + option_cost ps.
Proof.
  induction os as [|o os IH]; simpl; [lra|].
  unfold option_cost in *. simpl. rewrite IH. lra.
Qed.

Lemma option_cost_snoc (os : list EdgeInfo.t) (o : EdgeInfo.t) :
  option_cost (os ++ [o]) == option_cost os + EdgeInfo.distance o.
Proof. rewrite option_cost_app. unfold option_cost. simpl. lra. Qed.

Section optimal.
Variables (this : PathFinder) (startId goalId : Z) (avoid : bool).
Hypothesis Hcons : consistent_heuristic this goalId avoid.

Local Abbreviation h x := (heuristic this x goalId).

(** Along a walk of traversable options the estimate drops by at most
    the cost of the walk. *)
Lemma walk_estimate a os b :
  walk (graph this) a os b -> Forall (traversable avoid) os ->
  h a <= option_cost os + h b.
Proof.
  induction 1 as [|os b l o _ IH Hl Ho]; intros Hall.
  { unfold option_cost. simpl. lra. }
  apply Forall_app in Hall as [Hos Hlast]. rewrite Forall_singleton in Hlast.
  specialize (IH Hos). pose proof (Hcons b l o Hl Ho Hlast) as Hstep.
  rewrite option_cost_snoc. simpl in *. lra.
Qed.

(** Costs only go down. *)
Lemma relax_gScore_le c st o x gx :
  gScore st !! x = Some gx ->
  exists gx', gScore (relax this goalId avoid c st o) !! x = Some gx' /\
    gx' <= gx.
Proof.
  intros Hx. unfold relax.
  destruct (avoid && EdgeInfo.is_staircase o); [exists gx; split; [done|lra]|].
  destruct (improves _ _ _) eqn:Himp; [|exists gx; split; [done|lra]].
  simpl. destruct (decide (EdgeInfo.to o = x)) as [Heq|Hne].
  - rewrite Heq, lookup_insert_eq. eexists. split; [done|].
    unfold improves in Himp. rewrite Heq, Hx in Himp.
    apply ltb_true in Himp. lra.
  - rewrite lookup_insert_ne by done. exists gx. split; [done|lra].
Qed.

Lemma foldl_relax_gScore_le c ns st x gx :
  gScore st !! x = Some gx ->
  exists gx', gScore (foldl (relax this goalId avoid c) st ns) !! x = Some gx' /\
    gx' <= gx.
Proof.
  revert st gx. induction ns as [|o ns IH]; intros st gx Hx; simpl.
  { exists gx. split; [done|lra]. }
  destruct (relax_gScore_le c st o x gx Hx) as (g1 & Hg1 & Hle1).
  destruct (IH _ _ Hg1) as (g2 & Hg2 & Hle2). exists g2. split; [done|lra].
Qed.

(** After its relaxation the target of a traversable option costs at most
    the cost of the current node plus the distance of the option. *)
Lemma relax_target c gc st o :
  gScore st !! c = Some gc -> traversable avoid o ->
  exists gx, gScore (relax this goalId avoid c st o) !! EdgeInfo.to o = Some gx /\
    gx <= gc + EdgeInfo.distance o.
Proof.
  intros Hc Ht. unfold relax. unfold traversable in Ht. rewrite Ht.
  unfold gScore_get. rewrite Hc. simpl. unfold improves.
  destruct (gScore st !! EdgeInfo.to o) as [g|] eqn:Hg.
  - destruct (JS.ltb _ g) eqn:Hlt; simpl.
    + rewrite lookup_insert_eq. eexists. split; [done|lra].
    + apply ltb_false in Hlt. exists g. split; [done|lra].
  - simpl. rewrite lookup_insert_eq. eexists. split; [done|lra].
Qed.

Lemma relax_relaxed B c gc l D st o :
  astar_inv this goalId B st ->
  c ∈ visited st -> gScore st !! c = Some gc -> B <= gc + h c ->
  graph this !! c = Some l -> o ∈ l ->
  D ⊆ visited st -> relaxed_on this avoid D st ->
  relaxed_on this avoid D (relax this goalId avoid c st o).
Proof.
  intros Hinv Hc Hgc HB Hl Ho HD Hrel. unfold relax.
  destruct (avoid && EdgeInfo.is_staircase o) eqn:Hstairs; [done|].
  unfold gScore_get. rewrite Hgc. simpl.
  destruct (improves _ _ _) eqn:Himp; [|done].
  pose proof (improves_not_visited this goalId avoid Hcons B c gc st o l
                Hinv Hc Hgc HB Hl Ho Hstairs Himp) as Hn.
  intros v l' o' Hv Hl' Ho' Ht'. simpl.
  destruct (Hrel v l' o' Hv Hl' Ho' Ht') as (gv & gx & Hgv & Hgx & Hle).
  exists gv. rewrite lookup_insert_ne by (intros <-; set_solver).
  destruct (decide (EdgeInfo.to o = EdgeInfo.to o')) as [Heq|Hne].
  - rewrite Heq, lookup_insert_eq. eexists. split_and!; [done | done |].
    unfold improves in Himp. rewrite Heq, Hgx in Himp.
    apply ltb_true in Himp. lra.
  - rewrite lookup_insert_ne by done. exists gx. by split_and!.
Qed.

Lemma foldl_relax_relaxed B c gc l ns D st :
  ns ⊆ l ->
  astar_inv this goalId B st -> chain_inv startId st ->
  c ∈ visited st -> gScore st !! c = Some gc -> B <= gc + h c ->
  graph this !! c = Some l ->
  D ⊆ visited st -> relaxed_on this avoid D st ->
  let st' := foldl (relax this goalId avoid c) st ns in
  relaxed_on this avoid D st' /\
  gScore st' !! c = Some gc /\
  (forall o, o ∈ ns -> traversable avoid o ->
     exists gx, gScore st' !! EdgeInfo.to o = Some gx /\
       gx <= gc + EdgeInfo.distance o).
Proof.
  revert st. induction ns as [|o ns IH];
    intros st Hsub Hinv Hchain Hc Hgc HB Hl HD Hrel; simpl.
  { split_and!; [done | done |]. by intros o ?%not_elem_of_nil. }
  destruct (relax_costs this startId goalId avoid Hcons B c gc st o l
              Hinv Hchain Hc Hgc HB Hl) as (Hinv' & Hchain' & Hgc');
    [set_solver|].
  assert (relaxed_on this avoid D (relax this goalId avoid c st o)) as Hrel'.
  { eapply relax_relaxed; eauto. set_solver. }
  destruct (IH (relax this goalId avoid c st o)) as (Hrel2 & Hgc2 & Hns);
    try done; [set_solver | by rewrite relax_visited
              | by rewrite relax_visited |].
  split_and!; [done | done |].
  intros o' [-> | Ho']%elem_of_cons Ht; [|by apply Hns].
  destruct (relax_target c gc st o Hgc Ht) as (g1 & Hg1 & Hle1).
  destruct (foldl_relax_gScore_le c ns _ _ _ Hg1) as (g2 & Hg2 & Hle2).
  exists g2. split; [done|lra].
Qed.

(** Between iterations, a walk from the start ends at a finalized node
    whose cost is at most the cost of the walk, or passes a node that is
    not finalized whose estimated total is at most that of the walk. *)
Lemma frontier B st os x :
  astar_inv this goalId B st -> chain_inv startId st ->
  relaxed_on this avoid (visited st) st ->
  walk (graph this) startId os x -> Forall (traversable avoid) os ->
  (x ∈ visited st /\
   (exists gx, gScore st !! x = Some gx /\ gx <= option_cost os)) \/
  (exists y gy, (y ∉ visited st) /\ gScore st !! y = Some gy /\
     gy + h y <= option_cost os + h x).
Proof.
  intros Hinv (Hs0 & _ & Hsvis & _ & _) Hrel.
  induction 1 as [|os b l o _ IH Hl Ho]; intros Hall.
  { left. split; [done|]. exists 0. split; [done|].
    unfold option_cost. simpl. lra. }
  apply Forall_app in Hall as [Hos Hlast]. rewrite Forall_singleton in Hlast.
  pose proof (Hcons b l o Hl Ho Hlast) as Hstep. simpl in Hstep.
  pose proof (option_cost_snoc os o) as Hcost.
  destruct (IH Hos) as [[Hb (gb & Hgb & Hle)] | (y & gy & Hy & Hgy & Hle)].
  - destruct (Hrel b l o Hb Hl Ho Hlast) as (gv & gx & Hgv & Hgx & Hx).
    rewrite Hgb in Hgv. injection Hgv as <-.
    destruct (decide (EdgeInfo.to o ∈ visited st)) as [Hvis|Hnvis].
    + left. split; [done|]. exists gx. split; [done|]. lra.
    + right. exists (EdgeInfo.to o), gx. split_and!; [done | done | lra].
  - right. exists y, gy. split_and!; [done | done | lra].
Qed.

(** The node popped next has the least cost of all walks that reach it. *)
Lemma pop_optimal B st entry rest os :
  astar_inv this goalId B st -> chain_inv startId st ->
  relaxed_on this avoid (visited st) st ->
  pop (openSet st) = Some (entry, rest) -> value entry ∉ visited st ->
  walk (graph this) startId os (value entry) -> Forall (traversable avoid) os ->
  exists gc, gScore st !! value entry = Some gc /\ gc <= option_cost os.
Proof.
  intros Hinv Hchain Hrel Hpop Hv Hwalk Hall.
  destruct (frontier B st os _ Hinv Hchain Hrel Hwalk Hall)
    as [[? _] | (y & gy & Hy & Hgy & Hle)]; [done|].
  destruct Hinv as (Hheap & _ & _ & Hfresh & Hstale).
  apply pop_Permutation in Hpop as Hperm.
  pose proof (pop_min _ _ _ Hheap Hpop) as Hmin.
  destruct (Hstale entry) as (gc & Hgc & Hpc); [rewrite Hperm; by left|].
  exists gc. split; [done|].
  destruct (Hfresh y gy Hgy Hy) as (e & He & _ & Hp).
  rewrite Hperm in He. apply elem_of_cons in He as [-> | He]; [lra|].
  specialize (Hmin e He). lra.
Qed.

(** One iteration keeps the cost bookkeeping. *)
Lemma search_step_costs B st entry rest :
  astar_inv this goalId B st -> chain_inv startId st ->
  pop (openSet st) = Some (entry, rest) ->
  (value entry ∈ visited st ->
   astar_inv this goalId B
     {| openSet := rest; cameFrom := cameFrom st; gScore := gScore st;
        fScore := fScore st; visited := visited st |} /\
   chain_inv startId
     {| openSet := rest; cameFrom := cameFrom st; gScore := gScore st;
        fScore := fScore st; visited := visited st |}) /\
  (value entry ∉ visited st ->
   exists gc, gScore st !! value entry = Some gc /\
     priority entry <= gc + h (value entry) /\
     astar_inv this goalId (priority entry)
       {| openSet := rest; cameFrom := cameFrom st; gScore := gScore st;
          fScore := fScore st;
          visited := {[value entry]} ∪ visited st |} /\
     chain_inv startId
       {| openSet := rest; cameFrom := cameFrom st; gScore := gScore st;
          fScore := fScore st;
          visited := {[value entry]} ∪ visited st |}).
Proof.
  intros Hinv Hchain Hpop.
  apply pop_Permutation in Hpop as Hperm.
  destruct Hinv as (Hheap & Hlow & Hvis & Hfresh & Hstale).
  pose proof (pop_heap_ok _ _ _ Hheap Hpop) as Hheap'.
  pose proof (pop_min _ _ _ Hheap Hpop) as Hmin.
  assert (entry ∈ openSet st) as Hentry by (rewrite Hperm; by left).
  assert (forall e, e ∈ rest -> e ∈ openSet st) as Hrest
    by (intros e He; rewrite Hperm; by right).
  destruct Hchain as (Hs0 & Hsnone & Hsvis & Hlinked & Hsum).
  split.
  - intros Hv. split; [|by split_and!].
    split_and!; simpl; [done | by auto | done | | by auto].
    intros n g Hn Hnv. destruct (Hfresh n g Hn Hnv) as (e & He & Hval & Hp).
    exists e. split; [|done]. rewrite Hperm in He.
    apply elem_of_cons in He as [-> | He]; [|done].
    by rewrite Hval in Hv.
  - intros Hv. destruct (Hstale entry Hentry) as (gc & Hgc & Hpc).
    set (c := value entry) in *.
    assert (priority entry <= gc + h c) as Hpc'.
    { destruct (Hfresh c gc Hgc Hv) as (e & He & Hval & Hp).
      rewrite Hperm in He. apply elem_of_cons in He as [-> | He]; [done|].
      specialize (Hmin e He). lra. }
    exists gc. split_and!; [done | done | |].
    + split_and!; simpl; [done | done | | | by auto].
      * intros v [->%elem_of_singleton | Hvv]%elem_of_union.
        -- exists gc. split; [done | done].
        -- destruct (Hvis v Hvv) as (g & Hg & HgB). exists g. split; [done|].
           specialize (Hlow entry Hentry). lra.
      * intros n g Hn Hnv. destruct (Hfresh n g Hn) as (e & He & Hval & Hp);
          [set_solver|].
        exists e. split; [|done]. rewrite Hperm in He.
        apply elem_of_cons in He as [-> | He]; [|done]. set_solver.
    + split_and!; simpl; [done | done | set_solver | done |].
      intros n prev o Hn. destruct (Hsum n prev o Hn) as (? & ?).
      split; [set_solver | done].
Qed.

(** All options of the node just expanded are relaxed, and those of the
    nodes finalized before stay relaxed. *)
Lemma expand_relaxed B c gc st :
  astar_inv this goalId B st -> chain_inv startId st ->
  c ∈ visited st -> gScore st !! c = Some gc -> B <= gc + h c ->
  relaxed_on this avoid (visited st ∖ {[c]}) st ->
  let st' := foldl (relax this goalId avoid c) st
               (default [] (graph this !! c)) in
  astar_inv this goalId B st' /\ chain_inv startId st' /\
  relaxed_on this avoid (visited st') st'.
Proof.
  intros Hinv Hchain Hc Hgc HB Hrel.
  destruct (graph this !! c) as [l|] eqn:Hl; simpl.
  - destruct (foldl_relax_costs this startId goalId avoid Hcons B c gc l l st)
      as [Hinv' Hchain']; try done.
    destruct (foldl_relax_relaxed B c gc l l (visited st ∖ {[c]}) st)
      as (Hrel' & Hgc' & Hdone); try done; [set_solver|].
    split_and!; [done | done |].
    rewrite foldl_relax_visited. intros v l' o Hv Hl' Ho Ht.
    destruct (decide (v = c)) as [-> | Hne].
    + rewrite Hl in Hl'. injection Hl' as <-.
      destruct (Hdone o Ho Ht) as (gx & Hgx & Hle). by exists gc, gx.
    + apply (Hrel' v l' o); [set_solver | done | done | done].
  - split_and!; [done | done |]. intros v l' o Hv Hl' Ho Ht.
    destruct (decide (v = c)) as [-> | Hne]; [by rewrite Hl in Hl'|].
    apply (Hrel v l' o); [set_solver | done | done | done].
Qed.

Lemma search_loop_optimal fuel B st st' os :
  astar_inv this goalId B st -> chain_inv startId st ->
  relaxed_on this avoid (visited st) st ->
  search_loop fuel this goalId avoid st = GoalReached st' ->
  walk (graph this) startId os goalId -> Forall (traversable avoid) os ->
  exists g, gScore st' !! goalId = Some g /\ g <= option_cost os.
Proof.
  intros Hinv Hchain Hrel Hloop Hwalk Hall.
  revert B st Hinv Hchain Hrel Hloop.
  induction fuel as [|fuel IH]; intros B st Hinv Hchain Hrel; [done|].
  simpl. destruct (pop (openSet st)) as [[entry rest]|] eqn:Hpop; [|done].
  destruct (search_step_costs B st entry rest Hinv Hchain Hpop)
    as [Hskip Hnew].
  case_decide as Hv.
  { destruct (Hskip Hv) as [Hinv' Hchain']. by apply (IH B). }
  destruct (Hnew Hv) as (gc & Hgc & Hpc & Hinv1 & Hchain1).
  case_decide as Hgoal.
  { intros [= <-]. simpl. rewrite <- Hgoal in Hwalk.
    destruct (pop_optimal B st entry rest os Hinv Hchain Hrel Hpop Hv
                Hwalk Hall) as (g & Hg & Hle).
    exists g. by rewrite <- Hgoal. }
  set (st1 := {| openSet := rest; cameFrom := cameFrom st; gScore := gScore st;
                 fScore := fScore st;
                 visited := {[value entry]} ∪ visited st |}) in *.
  destruct (expand_relaxed (priority entry) (value entry) gc st1)
    as (Hinv2 & Hchain2 & Hrel2); try done.
  - simpl. set_solver.
  - intros v l o Hvv. apply (Hrel v l o). simpl in Hvv. set_solver.
  - by apply (IH (priority entry)).
Qed.

(** The cost of the goal when the loop returns is at most the cost of any
    walk of traversable options from the start to the goal. *)
Lemma search_loop_least st' os :
  search_loop (search_fuel this) this goalId avoid
    (initial_state this startId goalId) = GoalReached st' ->
  walk (graph this) startId os goalId -> Forall (traversable avoid) os ->
  exists g, gScore st' !! goalId = Some g /\ g <= option_cost os.
Proof.
  unfold search_fuel. cbn [Nat.add].
  rewrite (search_loop_first this startId goalId avoid Hcons).
  destruct (start_finalized_costs this startId goalId avoid Hcons)
    as [Hinv Hchain].
  case_decide as Hgoal.
  { intros [= <-] Hwalk Hall. exists 0. split.
    - rewrite <- Hgoal. simpl. by rewrite lookup_singleton_eq.
    - pose proof (walk_estimate _ _ _ Hwalk Hall) as Hest.
      rewrite Hgoal in Hest. simpl in Hest. lra. }
  intros Hloop Hwalk Hall.
  destruct (expand_relaxed (heuristic this startId goalId) startId 0
              (start_finalized this startId goalId))
    as (Hinv2 & Hchain2 & Hrel2); try done.
  - unfold start_finalized. simpl. set_solver.
  - unfold start_finalized. simpl. by rewrite lookup_singleton_eq.
  - lra.
  - intros v l o Hv. unfold start_finalized in Hv. simpl in Hv. set_solver.
  - exact (search_loop_optimal _ _ _ _ os Hinv2 Hchain2 Hrel2 Hloop Hwalk Hall).
Qed.

(** The steps of the returned path add up to the cost of the goal. *)
Lemma search_path_cost r :
  search this startId goalId avoid = Success r ->
  exists st g,
    search_loop (search_fuel this) this goalId avoid
      (initial_state this startId goalId) = GoalReached st /\
    gScore st !! goalId = Some g /\
    sum_distances (path r) == g.
Proof.
  unfold search.
  destruct (search_loop _ _ _ _ _) as [st| |] eqn:Hloop; [|done..].
  pose proof Hloop as Hloop'.
  apply (search_loop_chain this startId goalId avoid Hcons) in Hloop
    as [Hchain [g Hg]].
  unfold reconstructPath.
  destruct (walk_back _ _ _ _ _ _) as [steps| |] eqn:Hwalk; [|done..].
  destruct (nodesCache this !! startId) as [startNode|]; [|done].
  intros [= <-]. simpl. exists st, g. split_and!; [done | done |].
  rewrite sum_distances_reverse, sum_distances_app.
  rewrite (walk_back_sum this startId st _ _ g [] steps Hchain Hg Hwalk).
  unfold sum_distances. simpl. lra.
Qed.

(** Under a consistent heuristic no walk of traversable options from the
    start to the goal is shorter than the returned path. *)
Lemma search_shortest r os :
  search this startId goalId avoid = Success r ->
  walk (graph this) startId os goalId -> Forall (traversable avoid) os ->
  sum_distances (path r) <= option_cost os.
Proof.
  intros Hr Hwalk Hall.
  destruct (search_path_cost r Hr) as (st & g & Hloop & Hg & Hsum).
  destruct (search_loop_least st os Hloop Hwalk Hall) as (g' & Hg' & Hle).
  rewrite Hg in Hg'. injection Hg' as <-. lra.
Qed.

End optimal.

(** ** With distances from 0 up, the search returns *)

Section returns.
Variables (this : PathFinder) (startId goalId : Z) (avoid : bool).
Hypothesis Hnonneg : distances_nonneg this.

Lemma relax_rank stamp c gc l st o :
  rank_inv startId stamp st ->
  gScore st !! c = Some gc ->
  graph this !! c = Some l -> o ∈ l ->
  exists stamp',
    rank_inv startId stamp' (relax this goalId avoid c st o) /\
    gScore (relax this goalId avoid c st o) !! c = Some gc.
Proof.
  intros (Hs0 & Hsnone & Hpos & Hlinks) Hc Hl Ho.
  pose proof (Hnonneg c l o Hl Ho) as Hd.
  pose proof (Hpos c gc Hc) as Hgc.
  unfold relax.
  destruct (avoid && EdgeInfo.is_staircase o); [by exists stamp|].
  unfold gScore_get. rewrite Hc. simpl.
  destruct (improves _ _ _) eqn:Himp; [|by exists stamp].
  set (n := EdgeInfo.to o) in *.
  assert (n <> startId) as Hns.
  { intros Heq. unfold improves in Himp. rewrite Heq, Hs0 in Himp.
    apply ltb_true in Himp. lra. }
  assert (n <> c) as Hnc.
  { intros Heq. unfold improves in Himp. rewrite Heq, Hc in Himp.
    apply ltb_true in Himp. lra. }
  exists (fun x => if decide (x = n) then S (stamp c) else stamp x).
  split; [|simpl; by rewrite lookup_insert_ne]. split_and!; simpl.
  - by rewrite lookup_insert_ne.
  - by rewrite lookup_insert_ne.
  - intros k g Hk. apply lookup_insert_Some in Hk as [[_ <-] | [_ Hk]];
      [lra | by eapply Hpos].
  - intros k prev o' Hk.
    apply lookup_insert_Some in Hk as [[<- [= <- <-]] | [Hne Hk]].
    + exists (gc + EdgeInfo.distance o), gc.
      rewrite lookup_insert_eq, lookup_insert_ne by done.
      split_and!; [done | done | lra |]. right.
      repeat case_decide; try congruence. lia.
    + destruct (Hlinks k prev o' Hk) as (gk & gp & Hgk & Hgp & Hle & Hlt).
      rewrite (lookup_insert_ne _ n k) by done.
      destruct (decide (prev = n)) as [->|Hpn].
      * exists gk, (gc + EdgeInfo.distance o). rewrite lookup_insert_eq.
        unfold improves in Himp. rewrite Hgp in Himp. apply ltb_true in Himp.
        split_and!; [done | done | lra | left; lra].
      * exists gk, gp. rewrite lookup_insert_ne by done.
        split_and!; [done | done | done |].
        repeat case_decide; first [congruence | done].
Qed.

Lemma foldl_relax_rank c gc l ns st :
  ns ⊆ l -> graph this !! c = Some l ->
  gScore st !! c = Some gc ->
  (exists stamp, rank_inv startId stamp st) ->
  exists stamp, rank_inv startId stamp (foldl (relax this goalId avoid c) st ns).
Proof.
  intros Hsub Hl. revert st.
  induction ns as [|o ns IH]; intros st Hc [stamp Hrank]; simpl; [by eauto|].
  destruct (relax_rank stamp c gc l st o Hrank Hc Hl) as (stamp' & Hrank' & Hc').
  { apply Hsub. by left. }
  apply IH; [|done | by eauto].
  intros x Hx. apply Hsub. by right.
Qed.

Lemma search_loop_rank fuel st st' :
  search_inv this startId avoid st ->
  (exists stamp, rank_inv startId stamp st) ->
  search_loop fuel this goalId avoid st = GoalReached st' ->
  exists stamp, rank_inv startId stamp st'.
Proof.
  revert st. induction fuel as [|fuel IH]; intros st Hinv Hrank; [done|].
  simpl. destruct (pop (openSet st)) as [[entry rest]|] eqn:Hpop; [|done].
  apply pop_Permutation in Hpop as Hperm.
  destruct Hinv as [Hopen Hfrom].
  destruct (Hopen entry) as [Hroute [gc Hgc]]; [rewrite Hperm; by left|].
  assert (forall vis, search_inv this startId avoid
            {| openSet := rest; cameFrom := cameFrom st; gScore := gScore st;
               fScore := fScore st; visited := vis |}) as Hrest.
  { intros vis. split; simpl; [|done].
    intros e He. apply Hopen. rewrite Hperm. by right. }
  case_decide; [by apply IH|].
  case_decide as Hgoal; [by intros [= <-]|].
  destruct (graph this !! value entry) as [l|] eqn:Hl; simpl.
  - apply IH.
    + by apply (foldl_relax_inv this startId goalId avoid (value entry) l).
    + by apply (foldl_relax_rank (value entry) gc l).
  - by apply IH.
Qed.

Lemma initial_state_rank :
  rank_inv startId (fun _ => 0%nat) (initial_state this startId goalId).
Proof.
  split_and!; simpl.
  - by rewrite lookup_singleton_eq.
  - done.
  - intros n g Hn. apply lookup_singleton_Some in Hn as [_ <-]. lra.
  - intros n prev o Hn. by rewrite lookup_empty in Hn.
Qed.

(** Following the links from a node, costs and stamps go down. *)
Lemma chain_rank stamp st k x y :
  rank_inv startId stamp st ->
  walk_chain this (cameFrom st) startId (S k) x = Some y ->
  exists gx gy, gScore st !! x = Some gx /\ gScore st !! y = Some gy /\
    gy <= gx /\ (gy < gx \/ (stamp y < stamp x)%nat).
Proof.
  intros (_ & _ & _ & Hlinks). revert x.
  assert (forall x prev, walk_next this (cameFrom st) startId x = Some prev ->
            exists o, cameFrom st !! x = Some (prev, o)) as Hnext.
  { intros x prev. unfold walk_next. case_decide; [done|].
    destruct (cameFrom st !! x) as [[p o]|]; [|done].
    destruct (nodesCache this !! x); [|done]. intros [= <-]. by exists o. }
  induction k as [|k IH]; intros x; cbn [walk_chain].
  - destruct (walk_next _ _ _ x) as [prev|] eqn:Hn; [|done].
    intros [= <-]. destruct (Hnext _ _ Hn) as [o Ho].
    destruct (Hlinks _ _ _ Ho) as (gx & gp & ? & ? & ? & ?). by exists gx, gp.
  - destruct (walk_next _ _ _ x) as [prev|] eqn:Hn; [|done].
    intros Hy. destruct (Hnext _ _ Hn) as [o Ho].
    destruct (Hlinks _ _ _ Ho) as (gx & gp & Hgx & Hgp & Hle & Hlt).
    destruct (IH prev Hy) as (gp' & gy & Hgp' & Hgy & Hle' & Hlt').
    rewrite Hgp in Hgp'. injection Hgp' as <-.
    exists gx, gy. split_and!; [done | done | lra |].
    destruct Hlt as [?|?]; [left; lra|].
    destruct Hlt' as [?|?]; [left; lra | right; lia].
Qed.

Lemma chain_no_repeat stamp st c i j x :
  rank_inv startId stamp st -> (i < j)%nat ->
  walk_chain this (cameFrom st) startId i c = Some x ->
  walk_chain this (cameFrom st) startId j c = Some x -> False.
Proof.
  intros Hrank Hij Hi Hj.
  replace j with (i + S (j - i - 1))%nat in Hj by lia.
  rewrite chain_add, Hi in Hj. simpl in Hj.
  destruct (chain_rank stamp st _ x x Hrank Hj) as (g & g' & Hg & Hg' & _ & Hlt).
  rewrite Hg in Hg'. injection Hg' as <-. destruct Hlt; [lra | lia].
Qed.

(** The loop of [reconstructPath] ends. *)
Lemma walk_back_ends stamp st c acc :
  rank_inv startId stamp st ->
  walk_back (S (size (cameFrom st))) this (cameFrom st) startId c acc
    <> WalkDiverges.
Proof.
  intros Hrank Hdiv. apply walk_back_diverges in Hdiv.
  set (N := size (cameFrom st)) in *.
  assert (forall i, (i <= N)%nat ->
            exists x, walk_chain this (cameFrom st) startId i c = Some x)
    as Hdef.
  { intros i Hi. apply (chain_prefix _ _ _ i (S N)); [lia | done]. }
  set (L := (fun i => default 0%Z (walk_chain this (cameFrom st) startId i c))
              <$> seq 0 (S N)).
  assert (forall i x, L !! i = Some x ->
            (i <= N)%nat /\ walk_chain this (cameFrom st) startId i c = Some x)
    as HL.
  { intros i x. unfold L. rewrite list_lookup_fmap.
    destruct (seq 0 (S N) !! i) as [k|] eqn:Hk; [|done].
    apply lookup_seq in Hk as [-> Hlt]. simpl.
    destruct (Hdef i) as [y Hy]; [lia|]. rewrite Hy. simpl.
    intros [= <-]. split; [lia | done]. }
  assert (NoDup L) as Hnodup.
  { apply NoDup_alt. intros i j x Hi Hj.
    apply HL in Hi as [Hi Hci]. apply HL in Hj as [Hj Hcj].
    destruct (Nat.lt_total i j) as [Hlt | [-> | Hlt]]; [|done|];
      exfalso; eapply chain_no_repeat; eauto. }
  assert (list_to_set L ⊆ dom (cameFrom st)) as Hsub.
  { intros x Hx. apply elem_of_list_to_set in Hx.
    apply list_elem_of_lookup in Hx as [i Hi]. apply HL in Hi as [Hi Hci].
    apply elem_of_dom. apply (chain_in_dom this _ startId i c x Hci).
    apply (chain_prefix _ _ _ (S i) (S N)); [lia | done]. }
  apply subseteq_size in Hsub.
  rewrite size_list_to_set in Hsub by done.
  rewrite size_dom in Hsub. unfold L in Hsub.
  rewrite length_fmap, length_seq in Hsub. fold N in Hsub. lia.
Qed.

(** The loop of [reconstructPath] reads no node that is not cached. *)
Lemma walk_back_no_throw (cameFrom : gmap Z (Z * EdgeInfo.t)) fuel c acc :
  lists_cached this ->
  (forall n prev o, cameFrom !! n = Some (prev, o) ->
     is_Some (graph this !! prev)) ->
  is_Some (nodesCache this !! c) ->
  walk_back fuel this cameFrom startId c acc <> WalkThrows.
Proof.
  intros Hdom Hfrom. revert c acc.
  induction fuel as [|fuel IH]; intros c acc [node Hnode]; simpl; [done|].
  case_decide; [done|].
  destruct (cameFrom !! c) as [[prev o]|] eqn:Hprev; [|done].
  rewrite Hnode. apply IH, Hdom. by eapply Hfrom.
Qed.

(** With distances from 0 up, on a snapshot that caches the nodes of its
    adjacency lists, the search between two cached nodes returns a path or
    the no-path error. *)
Lemma search_returns :
  lists_cached this ->
  is_Some (nodesCache this !! startId) ->
  is_Some (nodesCache this !! goalId) ->
  (exists r, search this startId goalId avoid = Success r) \/
  search this startId goalId avoid = Error no_path_found.
Proof.
  intros Hdom [startNode Hstart] Hgoal. unfold search.
  destruct (search_loop _ _ _ _ _) as [st| |] eqn:Hloop.
  - left. pose proof Hloop as Hloop'.
    apply search_loop_sound with (startId := startId) in Hloop
      as ([_ Hfrom] & _ & _); [|apply initial_state_inv].
    apply search_loop_rank in Hloop' as [stamp Hrank];
      [|apply initial_state_inv | exists (fun _ => 0%nat); apply initial_state_rank].
    unfold reconstructPath.
    destruct (walk_back _ _ _ _ _ _) as [steps| |] eqn:Hwalk.
    + rewrite Hstart. by eexists.
    + exfalso. revert Hwalk. apply walk_back_no_throw; [done | | done].
      intros n prev o Hn. destruct (Hfrom n prev o Hn) as (_ & _ & l & Hl & _).
      by eexists.
    + exfalso. by eapply walk_back_ends.
  - by right.
  - exfalso. by eapply search_loop_total.
Qed.

End returns.

(** ** More on the priority queue *)

Lemma pop_length h e rest :
  pop h = Some (e, rest) -> length h = S (length rest).
Proof. intros Hpop%pop_Permutation. by rewrite Hpop. Qed.

Lemma drain_Permutation fuel (h : MinHeap) :
  (length h <= fuel)%nat -> drain fuel h ≡ₚ h.
Proof.
  revert h. induction fuel as [|fuel IH]; intros h Hlen; simpl.
  { by destruct h; [|simpl in Hlen; lia]. }
  destruct (pop h) as [[e rest]|] eqn:Hpop.
  - rewrite (pop_Permutation _ _ _ Hpop). f_equiv. apply IH.
    apply pop_length in Hpop. lia.
  - by apply pop_None in Hpop as ->.
Qed.

Lemma drain_sorted fuel (h : MinHeap) :
  (length h <= fuel)%nat -> heap_ok h -> by_priority (drain fuel h).
Proof.
  revert h. induction fuel as [|fuel IH]; intros h Hlen Hok; simpl;
    [constructor|].
  destruct (pop h) as [[e rest]|] eqn:Hpop; [|constructor].
  assert (length rest <= fuel)%nat as Hlen'
    by (apply pop_length in Hpop; lia).
  constructor.
  - apply IH; [done | by eapply pop_heap_ok].
  - rewrite (drain_Permutation _ _ Hlen'). apply Forall_forall.
    by eapply pop_min.
Qed.

Lemma run_ops_heap_ok ops : heap_ok (run_ops ops).
Proof. apply foldl_apply_op_heap_ok, heap_ok_nil. Qed.

Lemma foldl_apply_op_length ops (h : MinHeap) n :
  length h = n -> length (foldl apply_op h ops) = foldl count_op n ops.
Proof.
  revert h n. induction ops as [|o ops IH]; intros h n Hn; simpl; [done|].
  apply IH. destruct o as [p v|]; simpl.
  - by rewrite push_length, Hn.
  - destruct (pop h) as [[e rest]|] eqn:Hpop.
    + apply pop_length in Hpop. lia.
    + apply pop_None in Hpop as ->. by subst n.
Qed.

(** A new entry below every entry of the queue is the one popped next. *)
Lemma pop_push_least p v (h : MinHeap) :
  heap_ok h -> Forall (fun x => p < priority x) h ->
  exists rest, pop (push p v h) = Some (mkEntry p v, rest) /\
    rest ≡ₚ h /\ heap_ok rest.
Proof.
  intros Hok Hlow.
  destruct (pop (push p v h)) as [[e rest]|] eqn:Hpop.
  2:{ apply pop_None in Hpop. apply (f_equal length) in Hpop.
      rewrite push_length in Hpop. done. }
  pose proof (push_heap_ok p v h Hok) as Hok'.
  apply pop_Permutation in Hpop as Hperm.
  pose proof (pop_min _ _ _ Hok' Hpop) as Hmin.
  assert (e = mkEntry p v) as ->.
  { assert (e ∈ mkEntry p v :: h) as He
      by (rewrite <- push_Permutation, Hperm; by left).
    apply elem_of_cons in He as [-> | He]; [done|]. exfalso.
    rewrite Forall_forall in Hlow. specialize (Hlow e He).
    assert (mkEntry p v ∈ e :: rest) as Hnew
      by (rewrite <- Hperm, push_Permutation; by left).
    apply elem_of_cons in Hnew as [<- | Hnew]; [simpl in Hlow; lra|].
    specialize (Hmin _ Hnew). simpl in Hmin. lra. }
  exists rest. split_and!; [done | | by eapply pop_heap_ok].
  rewrite push_Permutation in Hperm. by apply (inj (cons _)) in Hperm.
Qed.

Lemma drain_fuel fuel (h : MinHeap) :
  (length h <= fuel)%nat -> drain fuel h = drain (length h) h.
Proof.
  revert h. induction fuel as [|fuel IH]; intros h Hlen.
  { by destruct h; [|simpl in Hlen; lia]. }
  destruct h as [|e0 h0] eqn:Hh; [done|]. rewrite <- Hh in *.
  assert (length h = S (length h0)) as Hl by (by rewrite Hh).
  rewrite Hl. cbn [drain].
  destruct (pop h) as [[e rest]|] eqn:Hpop; [|done].
  apply pop_length in Hpop. f_equal.
  assert (length rest = length h0) as Hr by lia.
  rewrite <- Hr. apply IH. lia.
Qed.

(** ** Snapshots fresh from the data layer *)

Lemma ensure_built_fresh this db :
  initialized this = false -> ensure_built this db = buildGraph this db.
Proof. intros Hinit. unfold ensure_built. by rewrite Hinit. Qed.

Lemma Nodes_findOne_Some db code n :
  Nodes_findOne db code = Some n ->
  n ∈ nodes_table db /\ Nodes.node_code n = code /\
  Nodes.node_id n ∈ node_ids db.
Proof.
  unfold Nodes_findOne. intros [Hin Hcode]%find_some.
  apply bool_decide_eq_true in Hcode. apply list_elem_of_In in Hin.
  split_and!; [done | done |]. unfold node_ids. by apply list_elem_of_fmap_2.
Qed.

Lemma buildGraph_lists_cached this db : lists_cached (buildGraph this db).
Proof.
  intros k. by rewrite buildGraph_graph_is_Some, buildGraph_cache_is_Some.
Qed.

Lemma buildGraph_distances_nonneg this db :
  edges_nonneg db -> distances_nonneg (buildGraph this db).
Proof.
  intros Hdb v l o Hl Ho.
  destruct (buildGraph_option_inv this db v l o Hl Ho)
    as (edge & Hin & Hact & [[_ ->] | [_ ->]]); simpl; by apply Hdb.
Qed.

Lemma buildGraph_two_way this db : two_way (buildGraph this db).
Proof.
  intros v l o Hl Ho Hto.
  destruct (buildGraph_option_inv this db v l o Hl Ho)
    as (edge & Hin & Hact & [[-> ->] | [-> ->]]).
  - apply (proj1 (buildGraph_graph_is_Some this db _)) in Hto.
    destruct (buildGraph_reverse this db edge Hin Hact Hto) as (l' & Hl' & Ho').
    exists l', (reverse_option edge). by split_and!.
  - apply (proj1 (buildGraph_graph_is_Some this db _)) in Hto.
    destruct (buildGraph_forward this db edge Hin Hact Hto) as (l' & Hl' & Ho').
    exists l', (forward_option edge). by split_and!.
Qed.

(** ** Walking a walk backwards *)

Lemma walk_app g a os b ps c :
  walk g a os b -> walk g b ps c -> walk g a (os ++ ps) c.
Proof.
  intros Hos. induction 1 as [|ps c l o _ IH Hl Ho].
  - by rewrite app_nil_r.
  - rewrite app_assoc. by econstructor.
Qed.

Lemma walk_one g a l o :
  g !! a = Some l -> o ∈ l -> walk g a [o] (EdgeInfo.to o).
Proof.
  intros Hl Ho. change [o] with ([] ++ [o]).
  eapply walk_snoc; [constructor | done | done].
Qed.

Lemma walk_reverse this avoid a os b :
  two_way this ->
  walk (graph this) a os b -> is_Some (graph this !! b) ->
  exists os', walk (graph this) b os' a /\
    option_cost os' == option_cost os /\
    (Forall (traversable avoid) os -> Forall (traversable avoid) os').
Proof.
  intros Htwo. induction 1 as [|os b l o _ IH Hl Ho]; intros Hb.
  { exists []. split_and!; [constructor | reflexivity | done]. }
  destruct (Htwo b l o Hl Ho Hb) as (l' & o' & Hl' & Ho' & Hto & Hd & Hs).
  destruct IH as (os' & Hwalk & Hcost & Hall); [by eexists|].
  exists ([o'] ++ os'). split_and!.
  - eapply walk_app; [|done]. rewrite <- Hto. by eapply walk_one.
  - rewrite option_cost_app, option_cost_snoc, Hcost.
    unfold option_cost at 1. simpl. rewrite Hd. lra.
  - intros Hos. apply Forall_app in Hos as [Hos Hlast].
    rewrite Forall_singleton in Hlast. apply Forall_app. split; [|by apply Hall].
    apply Forall_singleton. unfold traversable in *. by rewrite Hs.
Qed.

(** ** Steps and the options they were taken through *)

Lemma steps_cost this rest os :
  Forall2 (step_of_option this) rest os ->
  sum_distances rest == option_cost os.
Proof.
  induction 1 as [|s o rest os (node & _ & ->) _ IH].
  { reflexivity. }
  unfold sum_distances, option_cost in *. simpl. rewrite IH. reflexivity.
Qed.

Lemma search_path_walk_cost this startId goalId avoid r :
  search this startId goalId avoid = Success r ->
  exists os, walk (graph this) startId os goalId /\
    Forall (traversable avoid) os /\
    sum_distances (path r) == option_cost os.
Proof.
  intros Hr.
  destruct (search_path_route this startId goalId avoid r Hr)
    as (startNode & os & rest & _ & Hpath & Hwalk & Hall & Hsteps & _).
  exists os. split_and!; [done | done |]. rewrite Hpath.
  apply steps_cost in Hsteps. unfold sum_distances in *. simpl.
  rewrite Hsteps. lra.
Qed.

(** A route is a walk of traversable options and conversely, so reaching
    goes both ways on a two-way snapshot. *)
Lemma route_reverse this avoid a b :
  two_way this -> is_Some (graph this !! b) ->
  route (graph this) avoid a b -> route (graph this) avoid b a.
Proof.
  intros Htwo Hb Hroute. apply route_walk in Hroute as (os & Hwalk & Hall).
  destruct (walk_reverse this avoid a os b Htwo Hwalk Hb)
    as (os' & Hwalk' & _ & Hall').
  eapply walk_route; [done | by apply Hall'].
Qed.

(** The outcome of the search on a snapshot fresh from a data layer whose
    active edges have distances from 0 up, between two nodes of the node
    table. *)
Lemma fresh_search_outcome this db avoid startId goalId :
  edges_nonneg db -> startId ∈ node_ids db -> goalId ∈ node_ids db ->
  let snapshot := buildGraph this db in
  (route (graph snapshot) avoid startId goalId /\
   exists r, search snapshot startId goalId avoid = Success r) \/
  (~ route (graph snapshot) avoid startId goalId /\
   search snapshot startId goalId avoid = Error no_path_found).
Proof.
  intros Hdb Hs Hg snapshot.
  destruct (search_returns snapshot startId goalId avoid)
    as [[r Hr] | Hnone].
  - by apply buildGraph_distances_nonneg.
  - apply buildGraph_lists_cached.
  - by apply buildGraph_cache_is_Some.
  - by apply buildGraph_cache_is_Some.
  - left. split; [|by eexists].
    destruct (search_path_route snapshot startId goalId avoid r Hr)
      as (_ & os & _ & _ & _ & Hwalk & Hall & _).
    by eapply walk_route.
  - right. split; [|done]. by apply search_no_path_iff.
Qed.

(** The same for [findPath] on an engine that has no snapshot yet. *)
Lemma findPath_fresh_outcome this db startCode goalCode avoid :
  initialized this = false -> edges_nonneg db ->
  match Nodes_findOne db startCode, Nodes_findOne db goalCode with
  | None, _ =>
      (findPath this db startCode goalCode avoid).2 =
        Error ("Start node not found: " +:+ startCode)
  | Some _, None =>
      (findPath this db startCode goalCode avoid).2 =
        Error ("Goal node not found: " +:+ goalCode)
  | Some startNode, Some goalNode =>
      (route (graph (buildGraph this db)) avoid
         (Nodes.node_id startNode) (Nodes.node_id goalNode) /\
       exists r, (findPath this db startCode goalCode avoid).2 = Success r) \/
      (~ route (graph (buildGraph this db)) avoid
           (Nodes.node_id startNode) (Nodes.node_id goalNode) /\
       (findPath this db startCode goalCode avoid).2 = Error no_path_found)
  end.
Proof.
  intros Hinit Hdb. unfold findPath. rewrite (ensure_built_fresh this db Hinit).
  destruct (Nodes_findOne db startCode) as [startNode|] eqn:Hs; [|done].
  destruct (Nodes_findOne db goalCode) as [goalNode|] eqn:Hg; [|done].
  cbn [snd].
  apply Nodes_findOne_Some in Hs as (_ & _ & Hs).
  apply Nodes_findOne_Some in Hg as (_ & _ & Hg).
  by apply fresh_search_outcome.
Qed.

(** ** Whole distances *)

Lemma walk_options g a os b :
  walk g a os b ->
  Forall (fun o => exists v l, g !! v = Some l /\ o ∈ l) os.
Proof.
  induction 1 as [|os b l o _ IH Hl Ho]; [constructor|].
  apply Forall_app. split; [done|]. apply Forall_singleton. by eauto.
Qed.

Lemma option_cost_whole (os : list EdgeInfo.t) :
  Forall (fun o => exists n : Z, EdgeInfo.distance o == inject_Z n) os ->
  exists n : Z, option_cost os == inject_Z n.
Proof.
  induction 1 as [|o os [n Hn] _ [ns Hns]].
  - by exists 0%Z.
  - exists (n + ns)%Z. unfold option_cost in *. simpl.
    rewrite Hn, Hns, inject_Z_plus. reflexivity.
Qed.

(** With whole distances the cost of a returned path is a whole number. *)
Lemma search_path_cost_whole this startId goalId avoid r :
  whole_metres this ->
  search this startId goalId avoid = Success r ->
  exists n : Z, sum_distances (path r) == inject_Z n.
Proof.
  intros (_ & Hwhole & _) Hr.
  destruct (search_path_walk_cost this startId goalId avoid r Hr)
    as (os & Hwalk & _ & Hcost).
  destruct (option_cost_whole os) as [n Hn].
  { eapply Forall_impl; [by eapply walk_options|].
    intros o (v & l & Hl & Ho). simpl.
    destruct (Hwhole v l o Hl Ho) as (n & Hn & _). by exists n. }
  exists n. by rewrite Hcost.
Qed.

(** ** More on [buildGraph]: the adjacency lists, exactly *)

Lemma add_edge_lookup g edge k :
  add_edge g edge !! k = (fun l => l ++ options_of_edge k edge) <$> (g !! k).
Proof.
  rewrite add_edge_eq. cbv zeta. unfold options_of_edge.
  set (g1 := if decide (is_Some (g !! Edges.from_node_id edge)) then _ else g).
  assert (g1 !! k = (fun l => l ++
            (if decide (Edges.from_node_id edge = k)
             then [forward_option edge] else [])) <$> (g !! k)) as H1.
  { subst g1.
    destruct (decide (is_Some (g !! Edges.from_node_id edge))) as [Hfrom|Hfrom];
      destruct (decide (Edges.from_node_id edge = k)) as [Heq|Hne].
    - rewrite Heq. by rewrite lookup_alter_eq.
    - rewrite lookup_alter_ne by done.
      destruct (g !! k); simpl; [|done]. by rewrite app_nil_r.
    - apply eq_None_not_Some in Hfrom. rewrite Heq in Hfrom. by rewrite Hfrom.
    - destruct (g !! k); simpl; [|done]. by rewrite app_nil_r. }
  destruct (decide (is_Some (g1 !! Edges.to_node_id edge))) as [Hto|Hto];
    destruct (decide (Edges.to_node_id edge = k)) as [Heq|Hne].
  - rewrite Heq. rewrite lookup_alter_eq, H1.
    destruct (g !! k); simpl; [|done]. by rewrite <- app_assoc.
  - rewrite lookup_alter_ne by done. rewrite H1.
    destruct (g !! k); simpl; [|done]. by rewrite !app_nil_r.
  - apply eq_None_not_Some in Hto. rewrite Heq in Hto. rewrite Hto.
    rewrite H1 in Hto. by destruct (g !! k).
  - rewrite H1. destruct (g !! k); simpl; [|done]. by rewrite !app_nil_r.
Qed.

Lemma foldl_add_edge_lookup g edges k :
  foldl add_edge g edges !! k = (fun l => l ++ options_of k edges) <$> (g !! k).
Proof.
  revert g. induction edges as [|e edges IH]; intros g; simpl.
  { destruct (g !! k); simpl; [|done]. by rewrite app_nil_r. }
  rewrite IH, add_edge_lookup. destruct (g !! k); simpl; [|done].
  by rewrite <- app_assoc.
Qed.

Lemma buildGraph_lookup this db k :
  graph (buildGraph this db) !! k =
    if decide (k ∈ node_ids db)
    then Some (options_of k (Edges_findAll_active db)) else None.
Proof.
  unfold buildGraph. cbn [graph]. rewrite foldl_add_edge_lookup.
  rewrite foldl_cache_node_graph. unfold node_ids, Nodes_findAll. simpl.
  case_decide; [done|]. by rewrite lookup_empty.
Qed.

Lemma options_of_isolated db k :
  isolated db k -> options_of k (Edges_findAll_active db) = [].
Proof.
  intros Hiso. unfold options_of.
  assert (forall e, e ∈ Edges_findAll_active db ->
            Edges.from_node_id e <> k /\ Edges.to_node_id e <> k) as H.
  { intros e [He Ha]%elem_of_active. by apply Hiso. }
  induction (Edges_findAll_active db) as [|e es IH]; simpl; [done|].
  rewrite IH by (intros e' He'; apply H; by right).
  destruct (H e) as [Hf Ht]; [by left|]. unfold options_of_edge.
  by rewrite !decide_False.
Qed.

(** ** Counting the options of a snapshot *)

Lemma pending_alter_snoc g k l (x : EdgeInfo.t) :
  g !! k = Some l ->
  pending (alter (fun l => l ++ [x]) k g) ∅ = S (pending g ∅).
Proof.
  intros Hk. rewrite <- (insert_delete_id g k l Hk) at 2.
  rewrite <- (insert_delete_id g k l Hk) at 1.
  rewrite alter_insert_eq.
  rewrite !pending_insert by apply lookup_delete_eq.
  rewrite !decide_True by set_solver. rewrite length_app. simpl. lia.
Qed.

Lemma sum_list_with_ext {A} (f f' : A -> nat) (l : list A) :
  (forall x, f x = f' x) -> sum_list_with f l = sum_list_with f' l.
Proof. intros Hf. induction l as [|x l IH]; simpl; [done|]. by rewrite Hf, IH. Qed.

Lemma add_edge_pending g edge :
  pending (add_edge g edge) ∅ =
    (pending g ∅ +
     ((if decide (is_Some (g !! Edges.from_node_id edge)) then 1 else 0) +
      (if decide (is_Some (g !! Edges.to_node_id edge)) then 1 else 0)))%nat.
Proof.
  rewrite add_edge_eq. cbv zeta.
  destruct (decide (is_Some (g !! Edges.from_node_id edge))) as [[l Hl]|Hf].
  - destruct (decide (is_Some (g !! Edges.to_node_id edge))) as [Ht|Ht].
    + rewrite decide_True by (by apply alter_snoc_is_Some).
      apply (alter_snoc_is_Some g (Edges.from_node_id edge)
               (forward_option edge)) in Ht as [l' Hl'].
      rewrite (pending_alter_snoc _ _ _ _ Hl').
      rewrite (pending_alter_snoc _ _ _ _ Hl). lia.
    + rewrite decide_False by (by rewrite alter_snoc_is_Some).
      rewrite (pending_alter_snoc _ _ _ _ Hl). lia.
  - destruct (decide (is_Some (g !! Edges.to_node_id edge))) as [[l Hl]|Ht].
    + rewrite (pending_alter_snoc _ _ _ _ Hl). lia.
    + lia.
Qed.

Lemma foldl_add_edge_pending g edges :
  pending (foldl add_edge g edges) ∅ =
    (pending g ∅ +
     sum_list_with (fun edge =>
       (if decide (is_Some (g !! Edges.from_node_id edge)) then 1 else 0) +
       (if decide (is_Some (g !! Edges.to_node_id edge)) then 1 else 0))
       edges)%nat.
Proof.
  revert g. induction edges as [|e edges IH]; intros g; simpl; [lia|].
  rewrite IH, add_edge_pending. rewrite <- Nat.add_assoc. f_equal. f_equal.
  apply sum_list_with_ext. intros e'.
  f_equal; apply decide_ext, add_edge_is_Some.
Qed.

Lemma pending_all_empty (g : gmap Z (list EdgeInfo.t)) vis :
  (forall k l, g !! k = Some l -> l = []) -> pending g vis = 0%nat.
Proof.
  induction g as [|k l g Hk _ IH] using map_first_key_ind; intros Hall.
  { apply pending_empty. }
  rewrite pending_insert by done.
  rewrite (Hall k l) by apply lookup_insert_eq.
  rewrite IH; [by case_decide|].
  intros k' l' Hk'. apply (Hall k'). rewrite lookup_insert_ne; [done|].
  intros ->. congruence.
Qed.

Lemma buildGraph_num_options this db :
  num_options (buildGraph this db) =
    sum_list_with (known_ends db) (Edges_findAll_active db).
Proof.
  unfold num_options, buildGraph. cbn [graph].
  rewrite foldl_add_edge_pending. rewrite pending_all_empty.
  2:{ intros k l. rewrite foldl_cache_node_graph. simpl.
      case_decide; [congruence | by rewrite lookup_empty]. }
  simpl. apply sum_list_with_ext. intros e. unfold known_ends.
  f_equal; apply decide_ext; rewrite foldl_cache_node_graph; simpl;
    unfold node_ids, Nodes_findAll; case_decide;
    rewrite ?lookup_empty; split; try done; by intros [].
Qed.

Lemma known_ends_le db edge : (known_ends db edge <= 2)%nat.
Proof. unfold known_ends. repeat case_decide; lia. Qed.

Lemma sum_list_with_le {A} (f : A -> nat) (b : nat) (l : list A) :
  (forall x, f x <= b)%nat -> (sum_list_with f l <= b * length l)%nat.
Proof.
  intros Hb. induction l as [|x l IH]; simpl; [lia|].
  specialize (Hb x). lia.
Qed.

(** ** Routes leave their first node *)

Lemma route_starts g avoid a b :
  route g avoid a b ->
  a = b \/ exists l o, g !! a = Some l /\ o ∈ l.
Proof.
  induction 1 as [|b l o Hr IH Hb Ho Htr]; [by left|]. right.
  destruct IH as [-> | IH]; eauto.
Qed.

(** ** The lines of [getDirections] *)

Lemma direction_lines_length toFixed show i path :
  length (direction_lines toFixed show i path) = length path.
Proof.
  revert i. induction path as [|step rest IH]; intros i; simpl; [done|].
  by rewrite IH.
Qed.

Lemma direction_lines_lookup toFixed show i path k step :
  path !! k = Some step ->
  direction_lines toFixed show i path !! k =
    Some (match (i + k)%nat with
          | O => start_line show step
          | S _ => go_line toFixed step
          end).
Proof.
  revert i k. induction path as [|s rest IH]; intros i k; [done|].
  destruct k as [|k]; simpl.
  - intros [= ->]. by rewrite Nat.add_0_r.
  - intros Hk. rewrite (IH (S i) k Hk). by rewrite Nat.add_succ_r.
Qed.

Lemma direction_lines_lookup_inv toFixed show i path k line :
  direction_lines toFixed show i path !! k = Some line ->
  exists step, path !! k = Some step /\
    line = match (i + k)%nat with
           | O => start_line show step
           | S _ => go_line toFixed step
           end.
Proof.
  intros Hline.
  destruct (path !! k) as [step|] eqn:Hstep.
  - rewrite (direction_lines_lookup toFixed show i path k step Hstep) in Hline.
    injection Hline as <-. by exists step.
  - apply lookup_ge_None in Hstep.
    apply lookup_lt_Some in Hline. rewrite direction_lines_length in Hline. lia.
Qed.

Lemma findPath_num_nodes this db startCode goalCode avoid r :
  (findPath this db startCode goalCode avoid).2 = Success r ->
  num_nodes r = length (path r).
Proof.
  unfold findPath.
  destruct (Nodes_findOne db startCode) as [startNode|]; [|done].
  destruct (Nodes_findOne db goalCode) as [goalNode|]; [|done].
  cbn [snd]. unfold search.
  destruct (search_loop _ _ _ _ _) as [st| |]; [|done..].
  unfold reconstructPath. destruct (walk_back _ _ _ _ _ _); [|done..].
  destruct (nodesCache _ !! _); [|done]. by intros [= <-].
Qed.

Lemma getDirections_snd toFixed show this db startCode goalCode avoid :
  (getDirections toFixed show this db startCode goalCode avoid).2 =
    match (findPath this db startCode goalCode avoid).2 with
    | Success r =>
        WithDirections r (direction_lines toFixed show 0 (path r))
    | Error msg => DirectionsError msg
    | Throws => DirectionsThrows
    | Diverges => DirectionsDiverges
    end.
Proof.
  unfold getDirections.
  destruct (findPath this db startCode goalCode avoid) as [this' result].
  by destruct result.
Qed.

Lemma getDirections_fst toFixed show this db startCode goalCode avoid :
  (getDirections toFixed show this db startCode goalCode avoid).1 =
    (findPath this db startCode goalCode avoid).1.
Proof.
  unfold getDirections.
  destruct (findPath this db startCode goalCode avoid) as [this' result].
  by destruct result.
Qed.

(** The steps after the first come from options: they carry an angle, and
    no staircase flag when the options are not staircases. *)
Lemma steps_of_options this avoid rest os i step :
  Forall2 (step_of_option this) rest os ->
  Forall (traversable avoid) os ->
  rest !! i = Some step ->
  is_Some (Step.compass_angle step) /\
  (avoid = true -> Step.is_staircase step = false).
Proof.
  intros Hsteps Hall Hi.
  destruct (Forall2_lookup_l _ _ _ _ _ Hsteps Hi) as (o & Ho & node & _ & ->).
  split; [by eexists|]. intros ->.
  rewrite Forall_forall in Hall.
  assert (o ∈ os) as Hin by (by eapply list_elem_of_lookup_2).
  apply Hall in Hin. unfold traversable in Hin. simpl in *. done.
Qed.

(** ** Floors of quotients *)

Lemma Qfloor_unique (x : Q) (m : Z) :
  inject_Z m <= x -> x < inject_Z m + 1 -> Qfloor x = m.
Proof.
  intros Hle Hlt.
  pose proof (Qfloor_le x) as H1. pose proof (Qlt_floor x) as H2.
  rewrite inject_Z_plus in H2. change (inject_Z 1) with 1 in H2.
  assert (inject_Z m < inject_Z (Qfloor x + 1)) as Ha
    by (rewrite inject_Z_plus; change (inject_Z 1) with 1; lra).
  assert (inject_Z (Qfloor x) < inject_Z (m + 1)) as Hb
    by (rewrite inject_Z_plus; change (inject_Z 1) with 1; lra).
  rewrite <- Zlt_Qlt in Ha, Hb. lia.
Qed.

Lemma Qfloor_bounds (x : Q) :
  inject_Z (Qfloor x) <= x /\ x < inject_Z (Qfloor x) + 1.
Proof.
  split; [apply Qfloor_le|].
  pose proof (Qlt_floor x) as H. rewrite inject_Z_plus in H.
  by change (inject_Z 1) with 1 in H.
Qed.

Lemma Qfloor_div_unique (x d : Q) (m : Z) :
  0 < d -> inject_Z m * d <= x -> x < (inject_Z m + 1) * d ->
  Qfloor (x / d) = m.
Proof.
  intros Hd Hle Hlt. apply Qfloor_unique.
  - by apply Qle_shift_div_l.
  - by apply Qlt_shift_div_r.
Qed.

Lemma Qfloor_div_bounds (x d : Q) :
  0 < d ->
  inject_Z (Qfloor (x / d)) * d <= x /\
  x < (inject_Z (Qfloor (x / d)) + 1) * d.
Proof.
  intros Hd. destruct (Qfloor_bounds (x / d)) as [H1 H2].
  assert (x == x / d * d) as Hx by (field; lra).
  split.
  - rewrite Hx at 2. apply Qmult_le_compat_r; [done | lra].
  - rewrite Hx at 1. apply Qmult_lt_compat_r; [done | done].
Qed.

Lemma inject_Z_minus (m n : Z) : inject_Z (m - n) == inject_Z m - inject_Z n.
Proof. unfold Z.sub. rewrite inject_Z_plus, inject_Z_opp. lra. Qed.

Lemma Z_lt_of_Q (m n : Z) : inject_Z m < inject_Z n -> (m < n)%Z.
Proof. by rewrite <- Zlt_Qlt. Qed.

(** ** The reverse heading *)

Lemma reverseAngle_floor (angle : Q) :
  0 <= angle ->
  let k := Qfloor ((angle + 180) / 360) in
  reverseAngle angle == angle + 180 - 360 * inject_Z k /\
  0 <= reverseAngle angle /\ reverseAngle angle < 360.
Proof.
  intros Hangle k. rewrite (reverseAngle_spec_mod angle Hangle).
  unfold spec_mod. fold k.
  destruct (Qfloor_div_bounds (angle + 180) 360) as [H1 H2]; [reflexivity|].
  fold k in H1, H2. split; [reflexivity|]. split; lra.
Qed.

Lemma reverseAngle_twice (angle : Q) :
  0 <= angle -> reverseAngle (reverseAngle angle) == spec_mod angle 360.
Proof.
  intros Hangle.
  destruct (reverseAngle_floor angle Hangle) as (Hr & Hr0 & Hr1).
  destruct (reverseAngle_floor _ Hr0) as (Hrr & Hrr0 & Hrr1).
  cbv zeta in Hr, Hrr.
  set (k := Qfloor ((angle + 180) / 360)) in *.
  set (k' := Qfloor ((reverseAngle angle + 180) / 360)) in *.
  unfold spec_mod.
  assert (Qfloor (angle / 360) = (k + k' - 1)%Z) as ->.
  { apply Qfloor_div_unique; [reflexivity | |];
      rewrite inject_Z_minus, inject_Z_plus; change (inject_Z 1) with 1; lra. }
  rewrite inject_Z_minus, inject_Z_plus. change (inject_Z 1) with 1. lra.
Qed.

Lemma spec_mod_small (x d : Q) : 0 <= x -> x < d -> spec_mod x d == x.
Proof.
  intros H0 Hd. unfold spec_mod.
  rewrite (Qfloor_div_unique x d 0); [change (inject_Z 0) with 0; lra | lra | |];
    change (inject_Z 0) with 0; lra.
Qed.

(** ** Compass sectors *)

Lemma compass_index_sector (angle : Q) (n : Z) :
  inject_Z n * (225 # 10) - (1125 # 100) <= angle ->
  angle < inject_Z n * (225 # 10) + (1125 # 100) ->
  compass_index angle = Z.rem n 16.
Proof.
  intros Hlo Hhi. unfold compass_index, JS.Math_floor.
  rewrite (Qfloor_div_unique _ _ n); [done | reflexivity | lra | lra].
Qed.

Lemma compass_index_reverse (angle : Q) :
  0 <= angle ->
  compass_index (reverseAngle angle) = ((compass_index angle + 8) mod 16)%Z.
Proof.
  intros Hangle.
  destruct (reverseAngle_floor angle Hangle) as (Hr & Hr0 & Hr1).
  cbv zeta in Hr. set (k := Qfloor ((angle + 180) / 360)) in *.
  pose proof (compass_quotient_nonneg angle Hangle) as Hq.
  pose proof (compass_quotient_nonneg _ Hr0) as Hq'.
  unfold compass_index, JS.Math_floor.
  destruct (Qfloor_div_bounds (angle + (1125 # 100)) (225 # 10)) as [H1 H2];
    [reflexivity|].
  set (q := Qfloor ((angle + (1125 # 100)) / (225 # 10))) in *.
  assert (Qfloor ((reverseAngle angle + (1125 # 100)) / (225 # 10))
          = (q + 8 - 16 * k)%Z) as Hfl.
  { apply Qfloor_div_unique; [reflexivity | |];
      rewrite inject_Z_minus, inject_Z_plus, inject_Z_mult;
      change (inject_Z 8) with 8; change (inject_Z 16) with 16; lra. }
  rewrite Hfl in Hq' |- *.
  rewrite !Z.rem_mod_nonneg by lia.
  rewrite Zplus_mod_idemp_l.
  replace (q + 8 - 16 * k)%Z with (q + 8 + (- k) * 16)%Z by lia.
  apply Z_mod_plus_full.
Qed.

(** ** The floor heuristic *)

Lemma heuristic_nonneg this a b : 0 <= heuristic this a b.
Proof.
  unfold heuristic.
  destruct (nodesCache this !! a) as [na|]; [|lra].
  destruct (nodesCache this !! b) as [nb|]; [|lra].
  cbv zeta.
  assert (0 <= inject_Z (Z.abs (Nodes.floor_level na - Nodes.floor_level nb)))
    by (change 0 with (inject_Z 0); rewrite <- Zle_Qle; lia).
  lra.
Qed.

Lemma heuristic_sym this a b : heuristic this a b = heuristic this b a.
Proof.
  unfold heuristic.
  destruct (nodesCache this !! a) as [na|], (nodesCache this !! b) as [nb|];
    try done.
  cbv zeta. by rewrite <- Z.abs_opp, Z.opp_sub_distr, Z.add_comm, Z.add_opp_r.
Qed.

Lemma heuristic_triangle this a b c :
  is_Some (nodesCache this !! b) ->
  heuristic this a c <= heuristic this a b + heuristic this b c.
Proof.
  intros [nb Hb]. unfold heuristic. rewrite Hb.
  destruct (nodesCache this !! a) as [na|].
  2:{ destruct (nodesCache this !! c) as [nc|]; [|lra]. cbv zeta.
      assert (0 <= inject_Z (Z.abs (Nodes.floor_level nb - Nodes.floor_level nc)))
        by (change 0 with (inject_Z 0); rewrite <- Zle_Qle; lia).
      lra. }
  destruct (nodesCache this !! c) as [nc|]; cbv zeta.
  2:{ assert (0 <= inject_Z (Z.abs (Nodes.floor_level na - Nodes.floor_level nb)))
        by (change 0 with (inject_Z 0); rewrite <- Zle_Qle; lia).
      lra. }
  assert (inject_Z (Z.abs (Nodes.floor_level na - Nodes.floor_level nc)) <=
          inject_Z (Z.abs (Nodes.floor_level na - Nodes.floor_level nb) +
                    Z.abs (Nodes.floor_level nb - Nodes.floor_level nc))) as H
    by (rewrite <- Zle_Qle; lia).
  rewrite inject_Z_plus in H. lra.
Qed.

(** ** Rounding to cents *)

(** A whole number is its own rounding. *)
Lemma round2_whole (n : Z) : round2 (inject_Z n) == inject_Z n.
Proof.
  unfold round2, JS.Math_round.
  rewrite (Qfloor_unique (inject_Z n * 100 + (1 # 2)) (n * 100)).
  - rewrite inject_Z_mult. change (inject_Z 100) with 100. field.
  - rewrite inject_Z_mult. change (inject_Z 100) with 100. lra.
  - rewrite inject_Z_mult. change (inject_Z 100) with 100. lra.
Qed.

(** ** Quarter degrees *)

Lemma reverseAngle_quarter (angle : Q) :
  0 <= angle -> quarter_degrees angle -> quarter_degrees (reverseAngle angle).
Proof.
  intros Hangle [m Hm].
  destruct (reverseAngle_floor angle Hangle) as (Hr & _ & _). cbv zeta in Hr.
  set (k := Qfloor ((angle + 180) / 360)) in *.
  exists (m + 720 - 1440 * k)%Z. rewrite Hr, Hm.
  rewrite inject_Z_minus, inject_Z_plus, inject_Z_mult.
  change (inject_Z 720) with 720. change (inject_Z 1440) with 1440. lra.
Qed.

Lemma sector_index_nonneg (angle : Q) (n : Z) :
  0 <= angle -> angle < inject_Z n * (225 # 10) + (1125 # 100) -> (0 <= n)%Z.
Proof.
  intros H0 Hhi.
  assert (inject_Z (-1) < inject_Z n) as H
    by (change (inject_Z (-1)) with (-(1)); lra).
  rewrite <- Zlt_Qlt in H. lia.
Qed.

(** ** The handlers *)

Lemma truthy_Some (s : option string) :
  truthy s = true <-> exists code, s = Some code /\ code <> "".
Proof.
  destruct s as [[|a code]|]; simpl; split; try done.
  - by intros (code & [= <-] & ?).
  - intros _. by eexists.
  - by intros (code & ? & _).
Qed.

Lemma buildUrl_is_Some trim req (path : option string) :
  is_Some (buildUrl trim req path) <->
  truthy path && truthy (trim <$> path) = true.
Proof.
  unfold buildUrl.
  destruct (truthy path) eqn:Hp; simpl; [|split; [by intros [] | done]].
  destruct (truthy (trim <$> path)) eqn:Ht; simpl; [|split; [by intros [] | done]].
  destruct path as [p|]; [|done].
  split; [done|]. intros _. by destruct (_ || _).
Qed.

Lemma buildUrl_Some trim req (path : option string) url :
  buildUrl trim req path = Some url ->
  exists stored, path = Some stored /\
    ((String.prefix "http://" stored || String.prefix "https://" stored = true
      /\ url = stored) \/
     (String.prefix "http://" stored || String.prefix "https://" stored = false
      /\ url = MobileRequest.protocol req +:+ "://" +:+
               MobileRequest.host req +:+ "/media/" +:+ stored)).
Proof.
  unfold buildUrl. destruct (_ || _); [done|].
  destruct path as [stored|]; [|done].
  destruct (String.prefix "http://" stored || String.prefix "https://" stored)
    eqn:Hp; intros [= <-]; exists stored; (split; [done|]); [left | right]; done.
Qed.

(** The mobile handler on a request with both codes. *)
Lemma mobile_find_path_present trim toFixed show slot db req startCode goalCode :
  MobileRequest.start_code req = Some startCode -> startCode <> "" ->
  MobileRequest.goal_code req = Some goalCode -> goalCode <> "" ->
  let pathfinder := (getPathfinder slot).1 in
  let avoid := default false (MobileRequest.avoid_stairs req) in
  mobile_find_path trim toFixed show slot db req =
    (Some (ensure_built pathfinder db),
     match (findPath pathfinder db startCode goalCode avoid).2 with
     | Success r =>
         MobileFound
           {| mobile_path := decorate trim req <$> path r;
              mobile_total_distance := total_distance r;
              mobile_num_nodes := num_nodes r;
              mobile_start := head (decorate trim req <$> path r);
              mobile_goal := last (decorate trim req <$> path r);
              mobile_directions := direction_lines toFixed show 0 (path r) |}
     | Error error => MobileFailure 404 error
     | Throws => MobileCaught
     | Diverges => MobileNoResponse
     end).
Proof.
  intros Hs Hsne Hg Hgne pathfinder avoid.
  unfold mobile_find_path. rewrite Hs, Hg.
  assert (truthy (Some startCode) = true) as ->
    by (apply truthy_Some; by exists startCode).
  assert (truthy (Some goalCode) = true) as ->
    by (apply truthy_Some; by exists goalCode).
  cbn [negb orb]. change (default "" (Some startCode)) with startCode.
  change (default "" (Some goalCode)) with goalCode. fold avoid.
  assert (getPathfinder slot = (pathfinder, Some pathfinder)) as ->
    by (subst pathfinder; by destruct slot).
  pose proof (getDirections_fst toFixed show pathfinder db
                startCode goalCode avoid) as Hfst.
  pose proof (getDirections_snd toFixed show pathfinder db
                startCode goalCode avoid) as Hsnd.
  rewrite findPath_fst in Hfst.
  destruct (getDirections toFixed show pathfinder db startCode goalCode avoid)
    as [pathfinder' result].
  cbn [fst snd] in Hfst, Hsnd. subst pathfinder' result.
  by destruct (findPath pathfinder db startCode goalCode avoid).2.
Qed.

(** The mobile handler on a request that lacks a code. *)
Lemma mobile_find_path_missing trim toFixed show slot db req :
  truthy (MobileRequest.start_code req) = false \/
  truthy (MobileRequest.goal_code req) = false ->
  mobile_find_path trim toFixed show slot db req =
    (slot, MobileFailure 400 "start_code and goal_code are required").
Proof.
  intros Hmissing. unfold mobile_find_path.
  by destruct Hmissing as [-> | ->]; rewrite ?orb_true_r.
Qed.

(** The web handler on a request with both codes. *)
Lemma web_find_path_present toFixed show slot db req startCode goalCode :
  WebRequest.start req = Some startCode -> startCode <> "" ->
  WebRequest.goal req = Some goalCode -> goalCode <> "" ->
  let pathfinder := (getPathfinder slot).1 in
  let avoid := default false (WebRequest.avoid_stairs req) in
  web_find_path toFixed show slot db req =
    (Some (ensure_built pathfinder db),
     match (findPath pathfinder db startCode goalCode avoid).2 with
     | Success r => WebFound r (direction_lines toFixed show 0 (path r))
     | Error error => WebError 200 error
     | Throws => WebCaught
     | Diverges => WebNoResponse
     end).
Proof.
  intros Hs Hsne Hg Hgne pathfinder avoid.
  unfold web_find_path. rewrite Hs, Hg.
  assert (truthy (Some startCode) = true) as ->
    by (apply truthy_Some; by exists startCode).
  assert (truthy (Some goalCode) = true) as ->
    by (apply truthy_Some; by exists goalCode).
  cbn [negb orb]. change (default "" (Some startCode)) with startCode.
  change (default "" (Some goalCode)) with goalCode. fold avoid.
  assert (getPathfinder slot = (pathfinder, Some pathfinder)) as ->
    by (subst pathfinder; by destruct slot).
  pose proof (getDirections_fst toFixed show pathfinder db
                startCode goalCode avoid) as Hfst.
  pose proof (getDirections_snd toFixed show pathfinder db
                startCode goalCode avoid) as Hsnd.
  rewrite findPath_fst in Hfst.
  destruct (getDirections toFixed show pathfinder db startCode goalCode avoid)
    as [pathfinder' result].
  cbn [fst snd] in Hfst, Hsnd. subst pathfinder' result.
  by destruct (findPath pathfinder db startCode goalCode avoid).2.
Qed.

Lemma web_find_path_missing toFixed show slot db req :
  truthy (WebRequest.start req) = false \/
  truthy (WebRequest.goal req) = false ->
  web_find_path toFixed show slot db req =
    (slot, WebError 400 "Start and goal codes required").
Proof.
  intros Hmissing. unfold web_find_path.
  by destruct Hmissing as [-> | ->]; rewrite ?orb_true_r.
Qed.

Lemma decorate_image trim req node :
  let m := decorate trim req node in
  MobileStep.step m = node /\
  (MobileStep.has_360_image m = true <-> is_Some (MobileStep.image360 m)) /\
  forall url, MobileStep.image360 m = Some url ->
    exists stored, Step.image360 node = Some stored /\ stored <> "" /\
      ((String.prefix "http://" stored || String.prefix "https://" stored = true
        /\ url = stored) \/
       (String.prefix "http://" stored || String.prefix "https://" stored = false
        /\ url = MobileRequest.protocol req +:+ "://" +:+
                 MobileRequest.host req +:+ "/media/" +:+ stored)).
Proof.
  intros m. subst m. unfold decorate. cbn [MobileStep.step
    MobileStep.has_360_image MobileStep.image360]. split_and!.
  - done.
  - by rewrite buildUrl_is_Some.
  - intros url Hurl.
    assert (is_Some (buildUrl trim req (Step.image360 node))) as Hsome
      by (by eexists).
    apply buildUrl_is_Some in Hsome. apply andb_true_iff in Hsome as [Ht _].
    apply truthy_Some in Ht as (code & Hcode & Hne).
    apply buildUrl_Some in Hurl as (stored & Hstored & Hcase).
    exists stored. split_and!; [done | congruence | done].
Qed.

Lemma Nodes_findOne_nodes_table db db' code :
  nodes_table db' = nodes_table db ->
  Nodes_findOne db' code = Nodes_findOne db code.
Proof. intros Heq. unfold Nodes_findOne. by rewrite Heq. Qed.

(** An engine with a snapshot looks at the node table only. *)
Lemma findPath_initialized this db db' startCode goalCode avoid :
  initialized this = true -> nodes_table db' = nodes_table db ->
  findPath this db' startCode goalCode avoid =
    findPath this db startCode goalCode avoid /\
  (findPath this db startCode goalCode avoid).1 = this.
Proof.
  intros Hinit Hnodes. unfold findPath, ensure_built. rewrite Hinit.
  rewrite !(Nodes_findOne_nodes_table db db') by done.
  by destruct (Nodes_findOne db startCode), (Nodes_findOne db goalCode).
Qed.

(** ** The nodes along a returned path *)

(** A walk ends at the target of its last option. *)
Lemma walk_end g a os b :
  walk g a os b ->
  b = match last os with Some o => EdgeInfo.to o | None => a end.
Proof.
  destruct 1 as [|os b l o _ _ _]; [done|]. by rewrite last_snoc.
Qed.

(** Every option of a walk is on the adjacency list of the node the walk
    is at when it takes it: the start for the first option, the target of
    the option before for the others. *)
Lemma walk_lookup g a os b i o :
  walk g a os b -> os !! i = Some o ->
  exists l,
    g !! (match i with
          | O => a
          | S j => default a (EdgeInfo.to <$> os !! j)
          end) = Some l /\ o ∈ l.
Proof.
  intros Hwalk. revert i o.
  induction Hwalk as [|os b l o' Hwalk IH Hl Ho']; intros i o Hi; [done|].
  destruct (decide (i < length os)%nat) as [Hlt|Hge].
  - rewrite lookup_app_l in Hi by done.
    destruct (IH i o Hi) as (l' & Hl' & Ho). exists l'. split; [|done].
    destruct i as [|j]; [done|]. rewrite lookup_app_l by lia. done.
  - assert (i = length os) as ->.
    { apply lookup_lt_Some in Hi. rewrite length_app in Hi. simpl in Hi. lia. }
    rewrite list_lookup_middle in Hi by done. injection Hi as <-.
    exists l. split; [|done].
    apply walk_end in Hwalk.
    destruct os as [|o0 os0] eqn:Hos using rev_ind; [by subst b|].
    clear IHos0. rewrite last_snoc in Hwalk. subst b.
    rewrite length_app. simpl. rewrite Nat.add_1_r.
    rewrite lookup_app_l by (rewrite length_app; simpl; lia).
    by rewrite list_lookup_middle.
Qed.

Section path_nodes.
Variables (this : PathFinder) (startId : Z).
Hypothesis Hkeys : forall k n, nodesCache this !! k = Some n -> Nodes.node_id n = k.

(** The ids of the steps [reconstructPath] collects are the nodes its walk
    back goes through, one iteration each. *)
Lemma walk_back_ids (cameFrom : gmap Z (Z * EdgeInfo.t)) fuel c acc steps :
  (forall n prev o, cameFrom !! n = Some (prev, o) ->
     prev = startId \/ is_Some (cameFrom !! prev)) ->
  c = startId \/ is_Some (cameFrom !! c) ->
  walk_back fuel this cameFrom startId c acc = WalkDone steps ->
  exists ids,
    Step.node_id <$> steps = (Step.node_id <$> acc) ++ ids /\
    (forall i x, ids !! i = Some x ->
       walk_chain this cameFrom startId i c = Some x) /\
    walk_chain this cameFrom startId (length ids) c = Some startId.
Proof.
  intros Hlinks. revert c acc.
  induction fuel as [|fuel IH]; intros c acc Hc; simpl; [done|].
  case_decide as Hstart.
  { intros [= <-]. exists []. subst c.
    split_and!; [by rewrite app_nil_r | done | done]. }
  destruct Hc as [? | [[prev o] Hprev]]; [done|]. rewrite Hprev.
  destruct (nodesCache this !! c) as [node|] eqn:Hnode; [|done].
  intros Hwalk.
  destruct (IH prev _ (Hlinks _ _ _ Hprev) Hwalk) as (ids & Hids & Hchain & Hlast).
  assert (walk_next this cameFrom startId c = Some prev) as Hnext.
  { unfold walk_next. rewrite decide_False by done. by rewrite Hprev, Hnode. }
  exists (c :: ids). split_and!.
  - rewrite Hids, fmap_app, <- app_assoc. simpl. by rewrite (Hkeys c node Hnode).
  - intros [|i] x; simpl; [by intros [= <-]|]. intros Hi.
    rewrite Hnext. by apply Hchain.
  - simpl. by rewrite Hnext.
Qed.

End path_nodes.

(** With distances from 0 up, on a snapshot that caches every node under
    its own id, no node occurs twice on a returned path. *)
Lemma search_path_NoDup this startId goalId avoid r :
  distances_nonneg this ->
  (forall k n, nodesCache this !! k = Some n -> Nodes.node_id n = k) ->
  search this startId goalId avoid = Success r ->
  NoDup (Step.node_id <$> path r).
Proof.
  intros Hnonneg Hkeys. unfold search.
  destruct (search_loop _ _ _ _ _) as [st| |] eqn:Hloop; [|done..].
  pose proof Hloop as Hloop'. pose proof Hloop as Hloop''.
  apply search_loop_link with (startId := startId) in Hloop'
    as [[_ Hprev] Hgoal]; [|apply initial_state_link].
  apply (search_loop_rank this startId goalId avoid Hnonneg) in Hloop''
    as [stamp Hrank];
    [|apply initial_state_inv | exists (fun _ => 0%nat); apply initial_state_rank].
  unfold reconstructPath.
  destruct (walk_back _ _ _ _ _ _) as [steps| |] eqn:Hwalk; [|done..].
  destruct (nodesCache this !! startId) as [startNode|] eqn:Hnode; [|done].
  intros [= <-]. simpl.
  destruct (walk_back_ids this startId Hkeys (cameFrom st)
              (S (size (cameFrom st))) goalId [] steps)
    as (ids & Hids & Hchain & Hlast); [by eauto | done | done |].
  rewrite fmap_reverse, fmap_app, Hids. simpl.
  rewrite (Hkeys startId startNode Hnode).
  rewrite reverse_Permutation. apply NoDup_alt.
  assert (forall i x, (ids ++ [startId]) !! i = Some x ->
            walk_chain this (cameFrom st) startId i goalId = Some x) as Hall.
  { intros i x Hi. apply lookup_app_Some in Hi as [Hi | [Hge Hi]].
    - by apply Hchain.
    - apply list_lookup_singleton_Some in Hi as [Hi <-].
      by replace i with (length ids) by lia. }
  intros i j x Hi Hj. apply Hall in Hi. apply Hall in Hj.
  destruct (Nat.lt_total i j) as [Hlt | [-> | Hlt]]; [|done|]; exfalso.
  - by eapply (chain_no_repeat this startId stamp st goalId i j x).
  - by eapply (chain_no_repeat this startId stamp st goalId j i x).
Qed.

Lemma buildGraph_cache_keys this db k n :
  nodesCache (buildGraph this db) !! k = Some n -> Nodes.node_id n = k.
Proof. by intros [_ ?]%buildGraph_cache_row. Qed.

(** An option of a fresh snapshot is one direction of an active edge. *)
Lemma buildGraph_option_edge this db k l o :
  graph (buildGraph this db) !! k = Some l -> o ∈ l ->
  exists edge, edge ∈ edges_table db /\ Edges.is_active edge = true /\
    EdgeInfo.distance o = Edges.distance edge /\
    EdgeInfo.is_staircase o = Edges.is_staircase edge /\
    EdgeInfo.edge_id o = Edges.edge_id edge /\
    ((Edges.from_node_id edge = k /\ Edges.to_node_id edge = EdgeInfo.to o /\
      EdgeInfo.compass_angle o = Edges.compass_angle edge) \/
     (Edges.to_node_id edge = k /\ Edges.from_node_id edge = EdgeInfo.to o /\
      EdgeInfo.compass_angle o = reverseAngle (Edges.compass_angle edge))).
Proof.
  intros Hk Ho.
  destruct (buildGraph_option_inv this db k l o Hk Ho)
    as (edge & Hin & Hact & [[-> ->] | [-> ->]]);
    exists edge; split_and!; try done; [by left | by right].
Qed.

(** * Further properties *)

(** ** What [findPath] returns *)

Lemma scenario_edges_nonneg : edges_nonneg scenario_db.
Proof.
  intros edge Hin _.
  apply elem_of_cons in Hin as [-> | Hin]; [simpl; lra|].
  apply list_elem_of_singleton in Hin as ->. simpl. lra.
Qed.

Lemma scenario_whole_metres :
  whole_metres (ensure_built new_PathFinder scenario_db).
Proof.
  split_and!.
  - by vm_compute.
  - intros v l o Hl Ho.
    destruct (buildGraph_option_inv new_PathFinder scenario_db v l o Hl Ho)
      as (edge & Hin & _ & Hcase).
    apply elem_of_cons in Hin as [-> | Hin];
      [|apply list_elem_of_singleton in Hin as ->];
      destruct Hcase as [[_ ->] | [_ ->]]; simpl;
      first [ exists 10%Z; split; [reflexivity | lia]
            | exists 5%Z; split; [reflexivity | lia] ].
  - intros k node Hnode.
    apply (buildGraph_cache_row new_PathFinder scenario_db) in Hnode as [Hin _].
    repeat (apply elem_of_cons in Hin as [-> | Hin]; [simpl; lia|]).
    by apply not_elem_of_nil in Hin.
Qed.

Lemma scenario_walk_A_C :
  walk (graph (ensure_built new_PathFinder scenario_db)) 1
    [scenario_A_to_B; scenario_B_to_C] 3.
Proof.
  change [scenario_A_to_B; scenario_B_to_C]
    with ([scenario_A_to_B] ++ [scenario_B_to_C]).
  change 3%Z with (EdgeInfo.to scenario_B_to_C).
  eapply walk_snoc.
  - change 2%Z with (EdgeInfo.to scenario_A_to_B).
    eapply walk_one; [by vm_compute|]. by left.
  - by vm_compute.
  - right. by left.
Qed.

(** X1.  On a snapshot in which every option joins two cached nodes and is
    at least 4 units long per floor between them, and whose distances are
    whole numbers of moderate size (so that the sums of the search are the
    same in JavaScript's numbers as here), the path [findPath] returns is a
    shortest one: its step distances add up to no more than the distances
    along any walk of options from the start node to the goal node that the
    call may follow (none with a staircase when [avoidStairs] is set). *)
Theorem findPath_shortest (this : PathFinder) (db : DataLayer)
    (startCode goalCode : string) (avoid : bool)
    (startNode goalNode : Nodes.row) (r : PathResult) (os : list EdgeInfo.t) :
  Nodes_findOne db startCode = Some startNode ->
  Nodes_findOne db goalCode = Some goalNode ->
  floors_respected (ensure_built this db) ->
  whole_metres (ensure_built this db) ->
  (findPath this db startCode goalCode avoid).2 = Success r ->
  walk (graph (ensure_built this db)) (Nodes.node_id startNode) os
    (Nodes.node_id goalNode) ->
  Forall (traversable avoid) os ->
  sum_distances (path r) <= option_cost os.
Proof.
  intros Hs Hg Hfloors _. unfold findPath. rewrite Hs, Hg. cbn [snd].
  intros Hr Hwalk Hall.
  eapply search_shortest; [|done..]. by apply floors_respected_consistent.
Qed.

Lemma findPath_shortest_witness :
  exists r,
    (findPath new_PathFinder scenario_db "A" "C" false).2 = Success r /\
    sum_distances (path r) <= option_cost [scenario_A_to_B; scenario_B_to_C].
Proof.
  eexists. split; [by vm_compute|].
  apply (findPath_shortest new_PathFinder scenario_db "A" "C" false
           (plain_node 1 "A" 0) (plain_node 3 "C" 1)).
  - reflexivity.
  - reflexivity.
  - apply scenario_floors_respected.
  - apply scenario_whole_metres.
  - by vm_compute.
  - apply scenario_walk_A_C.
  - repeat constructor.
Defined.

(** X2.  A path returned by [findPath] follows the snapshot: both codes
    resolve, the first step is the cached start node with distance 0 and no
    angle, and the steps after it are, in order, the nodes reached through
    the options of a walk from the start node to the goal node, each with
    the distance, angle and staircase flag of its option; the call may
    follow every option of that walk; [num_nodes] is the number of steps
    and [start] and [goal] are the first and the last step. *)
Theorem findPath_path_is_walk (this : PathFinder) (db : DataLayer)
    (startCode goalCode : string) (avoid : bool) (r : PathResult) :
  (findPath this db startCode goalCode avoid).2 = Success r ->
  exists startNode goalNode cached os rest,
    Nodes_findOne db startCode = Some startNode /\
    Nodes_findOne db goalCode = Some goalNode /\
    nodesCache (ensure_built this db) !! Nodes.node_id startNode = Some cached /\
    path r = step_start cached :: rest /\
    walk (graph (ensure_built this db)) (Nodes.node_id startNode) os
      (Nodes.node_id goalNode) /\
    Forall (traversable avoid) os /\
    Forall2 (step_of_option (ensure_built this db)) rest os /\
    num_nodes r = length (path r) /\
    start r = head (path r) /\
    goal r = last (path r).
Proof.
  unfold findPath.
  destruct (Nodes_findOne db startCode) as [startNode|] eqn:Hs; [|done].
  destruct (Nodes_findOne db goalCode) as [goalNode|] eqn:Hg; [|done].
  cbn [snd]. intros Hr.
  destruct (search_path_route _ _ _ _ r Hr)
    as (cached & os & rest & Hc & Hpath & Hwalk & Hall & Hsteps & Hnum & Hst & Hgoal).
  exists startNode, goalNode, cached, os, rest.
  split_and!; try done.
  - rewrite Hnum, Hpath. simpl. by rewrite (Forall2_length _ _ _ Hsteps).
  - by rewrite Hst, Hpath.
Qed.

Lemma findPath_path_is_walk_witness :
  exists r,
    (findPath new_PathFinder scenario_db "A" "C" false).2 = Success r /\
    exists startNode goalNode cached os rest,
      Nodes_findOne scenario_db "A" = Some startNode /\
      Nodes_findOne scenario_db "C" = Some goalNode /\
      nodesCache (ensure_built new_PathFinder scenario_db)
        !! Nodes.node_id startNode = Some cached /\
      path r = step_start cached :: rest /\
      walk (graph (ensure_built new_PathFinder scenario_db))
        (Nodes.node_id startNode) os (Nodes.node_id goalNode) /\
      Forall (traversable false) os /\
      Forall2 (step_of_option (ensure_built new_PathFinder scenario_db)) rest os /\
      num_nodes r = length (path r) /\
      start r = head (path r) /\
      goal r = last (path r).
Proof.
  eexists. split; [by vm_compute|].
  apply (findPath_path_is_walk new_PathFinder scenario_db "A" "C" false).
  by vm_compute.
Defined.

(** X3.  On an engine that has no snapshot yet, over a data layer whose
    active edges have distances from 0 up, [findPath] always returns, and
    what it returns is settled by the data layer: the start error if the
    start code does not resolve, else the goal error if the goal code does
    not resolve, else a path if the snapshot built from the data layer has
    a route from the start node to the goal node that the call may follow,
    and the no-path error if it has none. *)
Theorem findPath_outcome (this : PathFinder) (db : DataLayer)
    (startCode goalCode : string) (avoid : bool) :
  initialized this = false -> edges_nonneg db ->
  match Nodes_findOne db startCode, Nodes_findOne db goalCode with
  | None, _ =>
      (findPath this db startCode goalCode avoid).2 =
        Error ("Start node not found: " +:+ startCode)
  | Some _, None =>
      (findPath this db startCode goalCode avoid).2 =
        Error ("Goal node not found: " +:+ goalCode)
  | Some startNode, Some goalNode =>
      (route (graph (buildGraph this db)) avoid
         (Nodes.node_id startNode) (Nodes.node_id goalNode) /\
       exists r, (findPath this db startCode goalCode avoid).2 = Success r) \/
      (~ route (graph (buildGraph this db)) avoid
           (Nodes.node_id startNode) (Nodes.node_id goalNode) /\
       (findPath this db startCode goalCode avoid).2 = Error no_path_found)
  end.
Proof. apply findPath_fresh_outcome. Qed.

Lemma findPath_outcome_witness :
  (route (graph (buildGraph new_PathFinder scenario_db)) true 1 3 /\
   exists r, (findPath new_PathFinder scenario_db "A" "C" true).2 = Success r) \/
  (~ route (graph (buildGraph new_PathFinder scenario_db)) true 1 3 /\
   (findPath new_PathFinder scenario_db "A" "C" true).2 = Error no_path_found).
Proof.
  apply (findPath_outcome new_PathFinder scenario_db "A" "C" true).
  - reflexivity.
  - apply scenario_edges_nonneg.
Defined.

(** X4.  When both codes resolve, [findPath] returns the no-path error
    exactly when the snapshot it works on has no route from the start node
    to the goal node that the call may follow. *)
Theorem findPath_no_path_iff (this : PathFinder) (db : DataLayer)
    (startCode goalCode : string) (avoid : bool)
    (startNode goalNode : Nodes.row) :
  Nodes_findOne db startCode = Some startNode ->
  Nodes_findOne db goalCode = Some goalNode ->
  (findPath this db startCode goalCode avoid).2 = Error no_path_found <->
  ~ route (graph (ensure_built this db)) avoid
      (Nodes.node_id startNode) (Nodes.node_id goalNode).
Proof.
  intros Hs Hg. unfold findPath. rewrite Hs, Hg. cbn [snd].
  apply search_no_path_iff.
Qed.

Lemma findPath_no_path_iff_witness :
  (findPath new_PathFinder scenario_db "A" "C" true).2 = Error no_path_found <->
  ~ route (graph (ensure_built new_PathFinder scenario_db)) true 1 3.
Proof.
  apply (findPath_no_path_iff new_PathFinder scenario_db "A" "C" true
           (plain_node 1 "A" 0) (plain_node 3 "C" 1)); reflexivity.
Defined.

(** X5.  On a snapshot in which every option joins two cached nodes and is
    at least 4 units long per floor between them, and whose distances are
    whole numbers of moderate size, [total_distance] of a returned path is
    the sum of its step distances. *)
Theorem findPath_total_distance_whole (this : PathFinder) (db : DataLayer)
    (startCode goalCode : string) (avoid : bool) (r : PathResult) :
  floors_respected (ensure_built this db) ->
  whole_metres (ensure_built this db) ->
  (findPath this db startCode goalCode avoid).2 = Success r ->
  total_distance r == sum_distances (path r).
Proof.
  intros Hfloors Hwhole. unfold findPath.
  destruct (Nodes_findOne db startCode) as [startNode|]; [|done].
  destruct (Nodes_findOne db goalCode) as [goalNode|]; [|done].
  cbn [snd]. intros Hr.
  destruct (search_path_cost_whole _ _ _ _ r Hwhole Hr) as [n Hn].
  rewrite (search_total_distance _ _ _ _
             (floors_respected_consistent _ _ _ Hfloors) r Hr).
  rewrite (round2_comp _ _ Hn), Hn. apply round2_whole.
Qed.

Lemma findPath_total_distance_whole_witness :
  exists r,
    (findPath new_PathFinder scenario_db "A" "C" false).2 = Success r /\
    total_distance r == sum_distances (path r).
Proof.
  eexists. split; [by vm_compute|].
  apply (findPath_total_distance_whole new_PathFinder scenario_db "A" "C" false).
  - apply scenario_floors_respected.
  - apply scenario_whole_metres.
  - by vm_compute.
Defined.

(** X6.  On an engine that has no snapshot yet, a node that no active edge
    touches is cut off: between it and any other node, in either order,
    [findPath] returns the no-path error. *)
Theorem findPath_isolated (this : PathFinder) (db : DataLayer)
    (startCode goalCode : string) (avoid : bool)
    (startNode goalNode : Nodes.row) :
  initialized this = false ->
  Nodes_findOne db startCode = Some startNode ->
  Nodes_findOne db goalCode = Some goalNode ->
  Nodes.node_id startNode <> Nodes.node_id goalNode ->
  isolated db (Nodes.node_id startNode) \/ isolated db (Nodes.node_id goalNode) ->
  (findPath this db startCode goalCode avoid).2 = Error no_path_found.
Proof.
  intros Hinit Hs Hg Hne Hiso. unfold findPath. rewrite Hs, Hg. cbn [snd].
  rewrite (ensure_built_fresh this db Hinit).
  apply search_no_route. intros Hroute. destruct Hiso as [Hiso | Hiso].
  - apply route_starts in Hroute as [? | (l & o & Hl & Ho)]; [done|].
    rewrite buildGraph_lookup in Hl. case_decide; [|done].
    rewrite (options_of_isolated db _ Hiso) in Hl. injection Hl as <-.
    by apply not_elem_of_nil in Ho.
  - apply route_ends in Hroute as [? | [_ (k & l & o & Hk & Ho & Hto)]];
      [done|].
    destruct (buildGraph_option_inv this db k l o Hk Ho)
      as (edge & Hin & Hact & Hcase).
    destruct (Hiso edge Hin Hact) as [Hfrom Hto'].
    destruct Hcase as [[_ ->] | [_ ->]]; simpl in Hto; congruence.
Qed.

Lemma lonely_db_isolated : isolated lonely_db 4.
Proof.
  intros edge Hin _. apply list_elem_of_singleton in Hin as ->. done.
Qed.

Lemma findPath_isolated_witness :
  (findPath new_PathFinder lonely_db "A" "D" false).2 = Error no_path_found /\
  (findPath new_PathFinder lonely_db "D" "B" true).2 = Error no_path_found.
Proof.
  split.
  - apply (findPath_isolated new_PathFinder lonely_db "A" "D" false
             (plain_node 1 "A" 0) (plain_node 4 "D" 0));
      [reflexivity | reflexivity | reflexivity | done |].
    right. apply lonely_db_isolated.
  - apply (findPath_isolated new_PathFinder lonely_db "D" "B" true
             (plain_node 4 "D" 0) (plain_node 2 "B" 0));
      [reflexivity | reflexivity | reflexivity | done |].
    left. apply lonely_db_isolated.
Defined.

(** X7.  On an engine that has no snapshot yet, over a data layer whose
    active edges have distances from 0 up, there is a way back wherever
    there is a way: [findPath] returns a path from one code to another
    exactly when it returns a path from the other to the one, with the same
    [avoidStairs]. *)
Theorem findPath_both_ways (this : PathFinder) (db : DataLayer)
    (codeA codeB : string) (avoid : bool) :
  initialized this = false -> edges_nonneg db ->
  (exists r, (findPath this db codeA codeB avoid).2 = Success r) <->
  (exists r, (findPath this db codeB codeA avoid).2 = Success r).
Proof.
  intros Hinit Hdb.
  assert (forall a b,
            (exists r, (findPath this db a b avoid).2 = Success r) ->
            exists r, (findPath this db b a avoid).2 = Success r) as Hhalf.
  { intros a b [r Hr]. revert Hr. unfold findPath.
    rewrite (ensure_built_fresh this db Hinit).
    destruct (Nodes_findOne db a) as [nodeA|] eqn:Ha; [|done].
    destruct (Nodes_findOne db b) as [nodeB|] eqn:Hb; [|done].
    cbn [snd]. intros Hr.
    apply Nodes_findOne_Some in Ha as (_ & _ & Ha).
    apply Nodes_findOne_Some in Hb as (_ & _ & Hb).
    destruct (search_path_route _ _ _ _ r Hr)
      as (_ & os & _ & _ & _ & Hwalk & Hall & _).
    assert (route (graph (buildGraph this db)) avoid
              (Nodes.node_id nodeB) (Nodes.node_id nodeA)) as Hback.
    { apply route_reverse.
      - apply buildGraph_two_way.
      - by apply buildGraph_graph_is_Some.
      - by eapply walk_route. }
    destruct (fresh_search_outcome this db avoid
                (Nodes.node_id nodeB) (Nodes.node_id nodeA) Hdb Hb Ha)
      as [[_ Hsome] | [Hno _]]; [done | by destruct Hno]. }
  split; apply Hhalf.
Qed.

Lemma findPath_both_ways_witness :
  (exists r, (findPath new_PathFinder scenario_db "A" "C" false).2 = Success r) <->
  (exists r, (findPath new_PathFinder scenario_db "C" "A" false).2 = Success r).
Proof.
  apply (findPath_both_ways new_PathFinder scenario_db "A" "C" false).
  - reflexivity.
  - apply scenario_edges_nonneg.
Defined.

(** X8.  On an engine that has no snapshot yet, when every option of the
    snapshot built from the data layer joins two cached nodes and is at
    least 4 units long per floor between them, and the distances are whole
    numbers of moderate size, the way back is as long as the way: the
    paths [findPath] returns in the two directions have the same sum of
    step distances and the same [total_distance]. *)
Theorem findPath_both_ways_distance (this : PathFinder) (db : DataLayer)
    (codeA codeB : string) (avoid : bool) (r r' : PathResult) :
  initialized this = false ->
  floors_respected (buildGraph this db) ->
  whole_metres (buildGraph this db) ->
  (findPath this db codeA codeB avoid).2 = Success r ->
  (findPath this db codeB codeA avoid).2 = Success r' ->
  sum_distances (path r) == sum_distances (path r') /\
  total_distance r == total_distance r'.
Proof.
  intros Hinit Hfloors _.
  assert (forall a b s s',
            (findPath this db a b avoid).2 = Success s ->
            (findPath this db b a avoid).2 = Success s' ->
            sum_distances (path s') <= sum_distances (path s) /\
            total_distance s == round2 (sum_distances (path s))) as Hhalf.
  { intros a b s s'. unfold findPath.
    rewrite (ensure_built_fresh this db Hinit).
    destruct (Nodes_findOne db a) as [nodeA|] eqn:Ha; [|done].
    destruct (Nodes_findOne db b) as [nodeB|] eqn:Hb; [|done].
    cbn [snd]. intros Hs Hs'.
    apply Nodes_findOne_Some in Hb as (_ & _ & Hb).
    split.
    - destruct (search_path_walk_cost _ _ _ _ s Hs) as (os & Hwalk & Hall & Hcost).
      destruct (walk_reverse (buildGraph this db) avoid _ os _
                  (buildGraph_two_way this db) Hwalk)
        as (os' & Hwalk' & Hcost' & Hall').
      { by apply buildGraph_graph_is_Some. }
      rewrite Hcost, <- Hcost'.
      eapply search_shortest; [|done | done | by apply Hall'].
      by apply floors_respected_consistent.
    - eapply search_total_distance; [|done].
      by apply floors_respected_consistent. }
  intros Hr Hr'.
  destruct (Hhalf _ _ _ _ Hr Hr') as [Hle Htot].
  destruct (Hhalf _ _ _ _ Hr' Hr) as [Hle' Htot'].
  assert (sum_distances (path r) == sum_distances (path r')) as Heq
    by (by apply Qle_antisym).
  split; [done|]. rewrite Htot, Htot'. by apply round2_comp.
Qed.

Lemma findPath_both_ways_distance_witness :
  exists r r',
    (findPath new_PathFinder scenario_db "A" "C" false).2 = Success r /\
    (findPath new_PathFinder scenario_db "C" "A" false).2 = Success r' /\
    sum_distances (path r) == sum_distances (path r') /\
    total_distance r == total_distance r'.
Proof.
  eexists _, _. split; [by vm_compute|]. split; [by vm_compute|].
  apply (findPath_both_ways_distance new_PathFinder scenario_db "A" "C" false).
  - reflexivity.
  - apply scenario_floors_respected.
  - apply scenario_whole_metres.
  - by vm_compute.
  - by vm_compute.
Defined.

(** X25.  On an engine that has no snapshot yet, over a data layer whose
    active edges have distances from 0 up, a returned path passes no node
    twice. *)
Theorem findPath_path_simple (this : PathFinder) (db : DataLayer)
    (startCode goalCode : string) (avoid : bool) (r : PathResult) :
  initialized this = false -> edges_nonneg db ->
  (findPath this db startCode goalCode avoid).2 = Success r ->
  NoDup (Step.node_id <$> path r).
Proof.
  intros Hinit Hdb. unfold findPath. rewrite (ensure_built_fresh this db Hinit).
  destruct (Nodes_findOne db startCode) as [startNode|]; [|done].
  destruct (Nodes_findOne db goalCode) as [goalNode|]; [|done].
  cbn [snd]. apply search_path_NoDup.
  - by apply buildGraph_distances_nonneg.
  - apply buildGraph_cache_keys.
Qed.

Lemma findPath_path_simple_witness :
  exists r,
    (findPath new_PathFinder scenario_db "A" "C" false).2 = Success r /\
    NoDup (Step.node_id <$> path r).
Proof.
  eexists. split; [by vm_compute|].
  apply (findPath_path_simple new_PathFinder scenario_db "A" "C" false).
  - reflexivity.
  - apply scenario_edges_nonneg.
  - by vm_compute.
Defined.

(** X26.  On an engine that has no snapshot yet, every leg of a returned
    path is an active edge row of the data layer between the two nodes of
    the leg, taken in its own direction or against it: the step carries the
    distance and the staircase flag of the row, and the angle of the row
    when the leg follows the row, the reverse of that angle when it goes
    against it.  An inactive row is never taken. *)
Theorem findPath_legs_are_active_edges (this : PathFinder) (db : DataLayer)
    (startCode goalCode : string) (avoid : bool) (r : PathResult)
    (i : nat) (a b : Step.t) :
  initialized this = false ->
  (findPath this db startCode goalCode avoid).2 = Success r ->
  path r !! i = Some a -> path r !! S i = Some b ->
  exists edge,
    edge ∈ edges_table db /\ Edges.is_active edge = true /\
    Step.distance_from_prev b = Edges.distance edge /\
    Step.is_staircase b = Edges.is_staircase edge /\
    ((Edges.from_node_id edge = Step.node_id a /\
      Edges.to_node_id edge = Step.node_id b /\
      Step.compass_angle b = Some (Edges.compass_angle edge)) \/
     (Edges.to_node_id edge = Step.node_id a /\
      Edges.from_node_id edge = Step.node_id b /\
      Step.compass_angle b = Some (reverseAngle (Edges.compass_angle edge)))).
Proof.
  intros Hinit. unfold findPath. rewrite (ensure_built_fresh this db Hinit).
  destruct (Nodes_findOne db startCode) as [startNode|]; [|done].
  destruct (Nodes_findOne db goalCode) as [goalNode|]; [|done].
  cbn [snd]. intros Hr Ha Hb.
  destruct (search_path_route _ _ _ _ r Hr)
    as (cached & os & rest & Hc & Hpath & Hwalk & _ & Hsteps & _).
  rewrite Hpath in Ha, Hb. simpl in Hb.
  destruct (Forall2_lookup_l _ _ _ _ _ Hsteps Hb) as (o & Ho & node & Hnode & ->).
  destruct (walk_lookup _ _ _ _ i o Hwalk Ho) as (l & Hl & Hin).
  assert (match i with
          | O => Nodes.node_id startNode
          | S j => default (Nodes.node_id startNode) (EdgeInfo.to <$> os !! j)
          end = Step.node_id a) as Hsource.
  { destruct i as [|j]; simpl in Ha.
    - injection Ha as <-. simpl. symmetry. by eapply buildGraph_cache_keys.
    - destruct (Forall2_lookup_l _ _ _ _ _ Hsteps Ha)
        as (o' & Ho' & node' & Hnode' & ->).
      rewrite Ho'. simpl. symmetry. by eapply buildGraph_cache_keys. }
  rewrite Hsource in Hl.
  destruct (buildGraph_option_edge this db _ l o Hl Hin)
    as (edge & Hedge & Hact & Hd & Hs & _ & Hcase).
  apply buildGraph_cache_keys in Hnode.
  exists edge. simpl. rewrite Hnode.
  split_and!; [done | done | done | done |].
  destruct Hcase as [(? & ? & ->) | (? & ? & ->)]; [left | right]; done.
Qed.

Lemma findPath_legs_are_active_edges_witness :
  exists r a b,
    (findPath new_PathFinder scenario_db "C" "A" false).2 = Success r /\
    path r !! 0%nat = Some a /\ path r !! 1%nat = Some b /\
    exists edge,
      edge ∈ edges_table scenario_db /\ Edges.is_active edge = true /\
      Step.distance_from_prev b = Edges.distance edge /\
      Step.is_staircase b = Edges.is_staircase edge /\
      ((Edges.from_node_id edge = Step.node_id a /\
        Edges.to_node_id edge = Step.node_id b /\
        Step.compass_angle b = Some (Edges.compass_angle edge)) \/
       (Edges.to_node_id edge = Step.node_id a /\
        Edges.from_node_id edge = Step.node_id b /\
        Step.compass_angle b = Some (reverseAngle (Edges.compass_angle edge)))).
Proof.
  eexists _, _, _. split; [by vm_compute|].
  split; [by vm_compute|]. split; [by vm_compute|].
  eapply (findPath_legs_are_active_edges new_PathFinder scenario_db "C" "A" false
            _ 0%nat); by vm_compute.
Defined.

(** ** The priority queue as its clients see it *)

(** X9.  After any sequence of [push] and [pop] calls on a new queue,
    popping until the queue is empty hands out every entry of the queue
    exactly once, in non-decreasing order of priority; as many pops as the
    queue has entries empty it. *)
Theorem MinHeap_drain_sorted (ops : list HeapOp) :
  let h := run_ops ops in
  drain (length h) h ≡ₚ h /\
  by_priority (drain (length h) h) /\
  forall fuel, (length h <= fuel)%nat -> drain fuel h = drain (length h) h.
Proof.
  intros h. split_and!.
  - by apply drain_Permutation.
  - apply drain_sorted; [done | apply run_ops_heap_ok].
  - intros fuel Hfuel. by apply drain_fuel.
Qed.

(** X10.  [push] adds the new entry and nothing else, whatever the array
    holds; and after any sequence of [push] and [pop] calls on a new queue
    the number of entries is the number of pushes less the pops that found
    the queue non-empty, [isEmpty] answering whether that number is 0. *)
Theorem MinHeap_size (ops : list HeapOp) :
  (forall p v (h : MinHeap),
     push p v h ≡ₚ mkEntry p v :: h /\ length (push p v h) = S (length h)) /\
  length (run_ops ops) = foldl count_op 0%nat ops /\
  (isEmpty (run_ops ops) = true <-> foldl count_op 0%nat ops = 0%nat).
Proof.
  assert (length (run_ops ops) = foldl count_op 0%nat ops) as Hlen
    by (by apply foldl_apply_op_length).
  split_and!.
  - intros p v h. split; [apply push_Permutation | apply push_length].
  - done.
  - rewrite <- Hlen. unfold isEmpty. destruct (run_ops ops); simpl; split;
      intros; done || lia.
Qed.

(** X11.  On a heap-ordered queue, an entry pushed with a priority below
    that of every entry in the queue is the one the next [pop] returns, and
    the entries that were there before are the ones that remain, heap
    ordered. *)
Theorem MinHeap_push_below_all (p : Q) (v : Z) (h : MinHeap) :
  heap_ok h -> Forall (fun x => p < priority x) h ->
  exists rest,
    pop (push p v h) = Some (mkEntry p v, rest) /\ rest ≡ₚ h /\ heap_ok rest.
Proof. apply pop_push_least. Qed.

Lemma MinHeap_push_below_all_witness :
  exists rest,
    pop (push 1 7 (push 5 8 (push 3 9 []))) = Some (mkEntry 1 7, rest) /\
    rest ≡ₚ push 5 8 (push 3 9 []) /\ heap_ok rest.
Proof.
  apply (MinHeap_push_below_all 1 7 (push 5 8 (push 3 9 []))).
  - apply push_heap_ok, push_heap_ok, heap_ok_nil.
  - vm_compute. repeat constructor.
Defined.

(** ** The snapshot [buildGraph] leaves *)

(** X12.  [buildGraph] leaves an adjacency list for exactly the ids of the
    node rows, and the list of a node is put together from the active edge
    rows in their order: for each row its forward option if the row
    leaves the node, then its reverse option if the row arrives at the
    node.  Inactive rows leave nothing, and nothing else is on a list. *)
Theorem buildGraph_adjacency_lists (this : PathFinder) (db : DataLayer) (k : Z) :
  graph (buildGraph this db) !! k =
    if decide (k ∈ node_ids db)
    then Some (options_of k (Edges_findAll_active db))
    else None.
Proof. apply buildGraph_lookup. Qed.

(** X13.  The snapshot holds one option for every end of an active edge
    row that is a node row: never more than twice the number of active
    edge rows, and exactly twice that number when every end is a node row.
    The loop of [findPath] on that snapshot, from any start to any goal,
    is over within two more iterations than that. *)
Theorem buildGraph_option_count (this : PathFinder) (db : DataLayer) :
  let snapshot := buildGraph this db in
  let active := Edges_findAll_active db in
  num_options snapshot = sum_list_with (known_ends db) active /\
  (num_options snapshot <= 2 * length active)%nat /\
  ((forall edge, edge ∈ active ->
      Edges.from_node_id edge ∈ node_ids db /\
      Edges.to_node_id edge ∈ node_ids db) ->
   num_options snapshot = (2 * length active)%nat) /\
  forall startId goalId avoid,
    search_loop (2 + 2 * length active) snapshot goalId avoid
      (initial_state snapshot startId goalId) <> OutOfFuel.
Proof.
  intros snapshot active.
  pose proof (buildGraph_num_options this db) as Hnum.
  fold snapshot active in Hnum.
  assert (num_options snapshot <= 2 * length active)%nat as Hle.
  { rewrite Hnum. apply sum_list_with_le, known_ends_le. }
  split_and!; [done | done | |].
  - intros Hends. rewrite Hnum. clear Hnum Hle.
    induction active as [|e es IH]; simpl; [done|].
    rewrite IH by (intros e' He'; apply Hends; by right).
    destruct (Hends e) as [Hf Ht]; [by left|].
    unfold known_ends. rewrite !decide_True by done. lia.
  - intros startId goalId avoid. apply search_loop_ends.
    unfold initial_state. cbn [openSet visited]. rewrite push_length.
    unfold num_options in Hle. cbn [length]. lia.
Qed.

Lemma buildGraph_option_count_witness :
  num_options (buildGraph new_PathFinder scenario_db) =
    (2 * length (Edges_findAll_active scenario_db))%nat.
Proof.
  apply (proj1 (proj2 (proj2 (buildGraph_option_count new_PathFinder scenario_db)))).
  intros edge Hin.
  apply elem_of_cons in Hin as [-> | Hin];
    [|apply list_elem_of_singleton in Hin as ->];
    split; vm_compute; repeat constructor.
Defined.

(** ** Numbers: the heuristic and headings *)

(** X14.  The floor heuristic is never negative, is the same in both
    directions, is 0 from a node to itself, and obeys the triangle
    inequality through every cached node. *)
Theorem heuristic_triangle_inequality (this : PathFinder) (a b c : Z) :
  is_Some (nodesCache this !! b) ->
  0 <= heuristic this a c /\
  heuristic this a c = heuristic this c a /\
  heuristic this a a == 0 /\
  heuristic this a c <= heuristic this a b + heuristic this b c.
Proof.
  intros Hb. split_and!.
  - apply heuristic_nonneg.
  - apply heuristic_sym.
  - unfold heuristic. destruct (nodesCache this !! a); [|reflexivity].
    cbv zeta. rewrite Z.sub_diag. reflexivity.
  - by apply heuristic_triangle.
Qed.

Lemma heuristic_triangle_inequality_witness :
  0 <= heuristic (buildGraph new_PathFinder scenario_db) 1 3 /\
  heuristic (buildGraph new_PathFinder scenario_db) 1 3 =
    heuristic (buildGraph new_PathFinder scenario_db) 3 1 /\
  heuristic (buildGraph new_PathFinder scenario_db) 1 1 == 0 /\
  heuristic (buildGraph new_PathFinder scenario_db) 1 3 <=
    heuristic (buildGraph new_PathFinder scenario_db) 1 2 +
    heuristic (buildGraph new_PathFinder scenario_db) 2 3.
Proof.
  apply (heuristic_triangle_inequality (buildGraph new_PathFinder scenario_db) 1 2 3).
  vm_compute. by eexists.
Defined.

(** X16.  For a heading from 0 up to, but not at, 360 that is a multiple
    of a quarter of a degree (so that the sum with 180 is the same in
    JavaScript's numbers as here), the reverse heading is again such a
    heading, and reversing it gives the heading back. *)
Theorem reverseAngle_turns_back (angle : Q) :
  quarter_degrees angle -> 0 <= angle -> angle < 360 ->
  (0 <= reverseAngle angle /\ reverseAngle angle < 360) /\
  quarter_degrees (reverseAngle angle) /\
  reverseAngle (reverseAngle angle) == angle.
Proof.
  intros Hquarter Hangle Hlt.
  destruct (reverseAngle_floor angle Hangle) as (_ & H0 & H1).
  split_and!; [done | done | by apply reverseAngle_quarter |].
  rewrite reverseAngle_twice by done. by apply spec_mod_small.
Qed.

Lemma reverseAngle_turns_back_witness :
  (0 <= reverseAngle (1125 # 4) /\ reverseAngle (1125 # 4) < 360) /\
  quarter_degrees (reverseAngle (1125 # 4)) /\
  reverseAngle (reverseAngle (1125 # 4)) == 1125 # 4.
Proof.
  apply (reverseAngle_turns_back (1125 # 4)).
  - by exists 1125%Z.
  - by vm_compute.
  - by vm_compute.
Defined.

(** X17.  The sixteen words divide the circle into sectors of 22.5
    degrees centred on their headings: a heading from 0 up to, but not at,
    360 that is a multiple of a quarter of a degree (so that the sum and
    the quotient are rounded to the same whole number in JavaScript as
    here) and lies from 11.25 below [22.5 * n] up to, but not at, 11.25
    above it gets the word at index [n mod 16].  So 11 is North, 11.25 is
    North-Northeast, and from 348.75 on North again. *)
Theorem compassToDirection_sector (angle : Q) (n : Z) :
  quarter_degrees angle -> 0 <= angle -> angle < 360 ->
  inject_Z n * (225 # 10) - (1125 # 100) <= angle ->
  angle < inject_Z n * (225 # 10) + (1125 # 100) ->
  compassToDirection angle = directions !! Z.to_nat (n mod 16) /\
  is_Some (compassToDirection angle).
Proof.
  intros _ Hangle _ Hlo Hhi.
  pose proof (sector_index_nonneg angle n Hangle Hhi) as Hn.
  assert (compassToDirection angle = directions !! Z.to_nat (n mod 16)) as Heq.
  { unfold compassToDirection. rewrite (compass_index_sector angle n Hlo Hhi).
    rewrite Z.rem_mod_nonneg by lia. unfold array_get.
    assert (0 <= n mod 16 < 16)%Z as Hi by (apply Z.mod_pos_bound; lia).
    destruct (Z.ltb_spec (n mod 16) 0); [lia | done]. }
  split; [done|]. rewrite Heq. apply lookup_lt_is_Some_2.
  assert (0 <= n mod 16 < 16)%Z as Hi by (apply Z.mod_pos_bound; lia).
  change (length directions) with 16%nat. lia.
Qed.

Lemma compassToDirection_sector_witness :
  compassToDirection (11 # 1) = Some "North" /\
  compassToDirection (45 # 4) = Some "North-Northeast" /\
  compassToDirection (1395 # 4) = Some "North".
Proof.
  split_and!.
  - destruct (compassToDirection_sector (11 # 1) 0) as [H _];
      [by exists 44%Z | by vm_compute.. | exact H].
  - destruct (compassToDirection_sector (45 # 4) 1) as [H _];
      [by exists 45%Z | by vm_compute.. | exact H].
  - destruct (compassToDirection_sector (1395 # 4) 16) as [H _];
      [by exists 1395%Z | by vm_compute.. | exact H].
Defined.



(** X19.  For a heading from 0 up to, but not at, 360 that is a multiple
    of a quarter of a degree, the word of the reverse heading is the
    opposite point of the rose: the one eight places further round. *)
Theorem compassToDirection_opposite (angle : Q) :
  quarter_degrees angle -> 0 <= angle -> angle < 360 ->
  compass_index (reverseAngle angle) = ((compass_index angle + 8) mod 16)%Z /\
  compassToDirection (reverseAngle angle) =
    directions !! Z.to_nat ((compass_index angle + 8) mod 16).
Proof.
  intros _ Hangle _.
  pose proof (compass_index_reverse angle Hangle) as Hidx.
  split; [done|]. unfold compassToDirection. rewrite Hidx. unfold array_get.
  assert (0 <= (compass_index angle + 8) mod 16 < 16)%Z as Hi
    by (apply Z.mod_pos_bound; lia).
  by destruct (Z.ltb_spec ((compass_index angle + 8) mod 16) 0); [lia|].
Qed.

Lemma compassToDirection_opposite_witness :
  compass_index (reverseAngle 90) = ((compass_index 90 + 8) mod 16)%Z /\
  compassToDirection (reverseAngle 90) =
    directions !! Z.to_nat ((compass_index 90 + 8) mod 16).
Proof.
  apply (compassToDirection_opposite 90).
  - by exists 360%Z.
  - by vm_compute.
  - by vm_compute.
Defined.

(** ** Directions *)

(** X20.  [getDirections] leaves the engine as [findPath] does and hands
    on what [findPath] does: its error object as it is, and its result
    object with one line per step of the path added, the line of the first
    step being the start line and the line of every other step a go
    line. *)
Theorem getDirections_result (toFixed : Q -> nat -> string) (show : Z -> string)
    (this : PathFinder) (db : DataLayer) (startCode goalCode : string)
    (avoid : bool) :
  (getDirections toFixed show this db startCode goalCode avoid).1 =
    ensure_built this db /\
  match (findPath this db startCode goalCode avoid).2 with
  | Success r =>
      exists lines,
        (getDirections toFixed show this db startCode goalCode avoid).2 =
          WithDirections r lines /\
        length lines = num_nodes r /\
        forall i step, path r !! i = Some step ->
          lines !! i = Some (match i with
                             | O => start_line show step
                             | S _ => go_line toFixed step
                             end)
  | Error msg =>
      (getDirections toFixed show this db startCode goalCode avoid).2 =
        DirectionsError msg
  | Throws =>
      (getDirections toFixed show this db startCode goalCode avoid).2 =
        DirectionsThrows
  | Diverges =>
      (getDirections toFixed show this db startCode goalCode avoid).2 =
        DirectionsDiverges
  end.
Proof.
  split; [by rewrite getDirections_fst, findPath_fst|].
  rewrite getDirections_snd.
  destruct (findPath this db startCode goalCode avoid).2 as [r|msg| |] eqn:Hr;
    try done.
  eexists. split_and!; [done | |].
  - rewrite direction_lines_length. symmetry. by eapply findPath_num_nodes.
  - intros i step Hi.
    by rewrite (direction_lines_lookup toFixed show 0 (path r) i step Hi).
Qed.

(** X21.  When [getDirections] returns directions, the first line is
    ["Start at <name> (<building>, Floor <floor>)"] of the cached row of
    the start node, and every later line is the go line of a step that
    carries an angle, so that its compass word is never ["forward"]; with
    [avoidStairs] set, none of these steps is a staircase, so that no line
    says [" via stairs"]. *)
Theorem getDirections_lines (toFixed : Q -> nat -> string) (show : Z -> string)
    (this : PathFinder) (db : DataLayer) (startCode goalCode : string)
    (avoid : bool) (r : PathResult) (lines : list string) :
  (getDirections toFixed show this db startCode goalCode avoid).2 =
    WithDirections r lines ->
  exists startNode cached,
    Nodes_findOne db startCode = Some startNode /\
    nodesCache (ensure_built this db) !! Nodes.node_id startNode = Some cached /\
    head lines =
      Some ("Start at " +:+ Nodes.name cached +:+ " (" +:+
            Nodes.building cached +:+ ", Floor " +:+
            show (Nodes.floor_level cached) +:+ ")") /\
    forall i line, lines !! S i = Some line ->
      exists step,
        path r !! S i = Some step /\
        line = go_line toFixed step /\
        is_Some (Step.compass_angle step) /\
        (avoid = true -> Step.is_staircase step = false).
Proof.
  rewrite getDirections_snd.
  destruct (findPath this db startCode goalCode avoid).2 as [r'|msg| |] eqn:Hr;
    try done.
  intros [= -> <-]. revert Hr. unfold findPath.
  destruct (Nodes_findOne db startCode) as [startNode|] eqn:Hs; [|done].
  destruct (Nodes_findOne db goalCode) as [goalNode|] eqn:Hg; [|done].
  cbn [snd]. intros Hr.
  destruct (search_path_route _ _ _ _ r Hr)
    as (cached & os & rest & Hc & Hpath & _ & Hall & Hsteps & _).
  exists startNode, cached. split_and!; [done | done | by rewrite Hpath |].
  intros i line Hline.
  apply direction_lines_lookup_inv in Hline as (step & Hstep & ->).
  exists step. split_and!; [done | done | |];
    rewrite Hpath in Hstep; simpl in Hstep;
    by destruct (steps_of_options _ _ _ _ _ _ Hsteps Hall Hstep).
Qed.

Lemma getDirections_lines_witness :
  exists r,
    (getDirections decimal_toFixed decimal_show new_PathFinder scenario_db
       "A" "C" false).2 =
      WithDirections r
        ["Start at A (Main, Floor 0)"; "Go East (90°) for 10.0m to B";
         "Go North (0°) for 5.0m via stairs to C"] /\
    exists startNode cached,
      Nodes_findOne scenario_db "A" = Some startNode /\
      nodesCache (ensure_built new_PathFinder scenario_db)
        !! Nodes.node_id startNode = Some cached /\
      head ["Start at A (Main, Floor 0)"; "Go East (90°) for 10.0m to B";
            "Go North (0°) for 5.0m via stairs to C"] =
        Some ("Start at " +:+ Nodes.name cached +:+ " (" +:+
              Nodes.building cached +:+ ", Floor " +:+
              decimal_show (Nodes.floor_level cached) +:+ ")") /\
      forall i line,
        ["Start at A (Main, Floor 0)"; "Go East (90°) for 10.0m to B";
         "Go North (0°) for 5.0m via stairs to C"] !! S i = Some line ->
        exists step,
          path r !! S i = Some step /\
          line = go_line decimal_toFixed step /\
          is_Some (Step.compass_angle step) /\
          (false = true -> Step.is_staircase step = false).
Proof.
  eexists. split; [by vm_compute|].
  apply (getDirections_lines decimal_toFixed decimal_show new_PathFinder
           scenario_db "A" "C" false).
  by vm_compute.
Defined.

(** ** The [POST /find-path] handlers *)

(** X22.  The mobile handler on an engine module that holds no instance,
    over a data layer whose active edges have distances from 0 up.  A
    request without a non-empty start code or goal code is answered with
    status 400 and no instance is made.  Any other request leaves the
    instance with the snapshot built from the data layer and is answered
    with status 404 and the message of [findPath] if a code does not
    resolve or no route joins the two nodes, and with status 200 and a
    result if a route joins them; the [catch] block is never reached. *)
Theorem mobile_find_path_answer (trim : string -> string)
    (toFixed : Q -> nat -> string) (show : Z -> string)
    (db : DataLayer) (req : MobileRequest.t) :
  edges_nonneg db ->
  let answer := mobile_find_path trim toFixed show None db req in
  let avoid := default false (MobileRequest.avoid_stairs req) in
  (truthy (MobileRequest.start_code req) = false \/
   truthy (MobileRequest.goal_code req) = false ->
   answer = (None, MobileFailure 400 "start_code and goal_code are required")) /\
  (forall startCode goalCode,
     MobileRequest.start_code req = Some startCode -> startCode <> "" ->
     MobileRequest.goal_code req = Some goalCode -> goalCode <> "" ->
     answer.1 = Some (buildGraph new_PathFinder db) /\
     match Nodes_findOne db startCode, Nodes_findOne db goalCode with
     | None, _ =>
         answer.2 = MobileFailure 404 ("Start node not found: " +:+ startCode)
     | Some _, None =>
         answer.2 = MobileFailure 404 ("Goal node not found: " +:+ goalCode)
     | Some startNode, Some goalNode =>
         (route (graph (buildGraph new_PathFinder db)) avoid
            (Nodes.node_id startNode) (Nodes.node_id goalNode) /\
          exists m, answer.2 = MobileFound m) \/
         (~ route (graph (buildGraph new_PathFinder db)) avoid
              (Nodes.node_id startNode) (Nodes.node_id goalNode) /\
          answer.2 = MobileFailure 404 no_path_found)
     end).
Proof.
  intros Hdb answer avoid. split.
  - apply mobile_find_path_missing.
  - intros startCode goalCode Hs Hsne Hg Hgne. subst answer.
    rewrite (mobile_find_path_present trim toFixed show None db req
               startCode goalCode Hs Hsne Hg Hgne).
    cbn [fst snd getPathfinder]. fold avoid. split; [done|].
    pose proof (findPath_fresh_outcome new_PathFinder db startCode goalCode avoid
                  eq_refl Hdb) as Hout.
    destruct (Nodes_findOne db startCode) as [startNode|];
      [|by rewrite Hout].
    destruct (Nodes_findOne db goalCode) as [goalNode|];
      [|by rewrite Hout].
    destruct Hout as [[Hroute [r Hr]] | [Hno Hr]]; rewrite Hr.
    + left. split; [done|]. by eexists.
    + by right.
Qed.

Lemma mobile_find_path_answer_witness :
  (mobile_find_path id decimal_toFixed decimal_show None scenario_db
     scenario_mobile_request).1 =
    Some (buildGraph new_PathFinder scenario_db) /\
  ((route (graph (buildGraph new_PathFinder scenario_db)) false 1 3 /\
    exists m,
      (mobile_find_path id decimal_toFixed decimal_show None scenario_db
         scenario_mobile_request).2 = MobileFound m) \/
   (~ route (graph (buildGraph new_PathFinder scenario_db)) false 1 3 /\
    (mobile_find_path id decimal_toFixed decimal_show None scenario_db
       scenario_mobile_request).2 = MobileFailure 404 no_path_found)).
Proof.
  apply (proj2 (mobile_find_path_answer id decimal_toFixed decimal_show
                  scenario_db scenario_mobile_request scenario_edges_nonneg)
           "A" "C"); done.
Defined.

(** X23.  A result the mobile handler sends is the result of [findPath]
    on the module's engine for the two codes of the request: the same
    steps in the same order, the same total, one line of directions per
    step; [start] and [goal] are its first and last step as sent; a step
    has [has_360_image] set exactly when its [image360] is not [null], and
    then [image360] is the stored value if that starts with [http://] or
    [https://], and else the stored value behind the protocol and host of
    the request and [/media/]. *)
Theorem mobile_find_path_found (trim : string -> string)
    (toFixed : Q -> nat -> string) (show : Z -> string)
    (slot : option PathFinder) (db : DataLayer) (req : MobileRequest.t)
    (m : MobileResult) :
  (mobile_find_path trim toFixed show slot db req).2 = MobileFound m ->
  exists startCode goalCode r,
    MobileRequest.start_code req = Some startCode /\
    MobileRequest.goal_code req = Some goalCode /\
    (findPath (getPathfinder slot).1 db startCode goalCode
       (default false (MobileRequest.avoid_stairs req))).2 = Success r /\
    MobileStep.step <$> mobile_path m = path r /\
    mobile_total_distance m = total_distance r /\
    mobile_num_nodes m = length (mobile_path m) /\
    length (mobile_directions m) = length (mobile_path m) /\
    mobile_start m = head (mobile_path m) /\
    mobile_goal m = last (mobile_path m) /\
    Forall (fun node =>
      (MobileStep.has_360_image node = true <->
       is_Some (MobileStep.image360 node)) /\
      forall url, MobileStep.image360 node = Some url ->
        exists stored,
          Step.image360 (MobileStep.step node) = Some stored /\ stored <> "" /\
          ((String.prefix "http://" stored || String.prefix "https://" stored
              = true /\ url = stored) \/
           (String.prefix "http://" stored || String.prefix "https://" stored
              = false /\
            url = MobileRequest.protocol req +:+ "://" +:+
                  MobileRequest.host req +:+ "/media/" +:+ stored)))
      (mobile_path m).
Proof.
  destruct (truthy (MobileRequest.start_code req)) eqn:Hs.
  2:{ rewrite mobile_find_path_missing by (by left). done. }
  destruct (truthy (MobileRequest.goal_code req)) eqn:Hg.
  2:{ rewrite mobile_find_path_missing by (by right). done. }
  apply truthy_Some in Hs as (startCode & Hs & Hsne).
  apply truthy_Some in Hg as (goalCode & Hg & Hgne).
  rewrite (mobile_find_path_present trim toFixed show slot db req
             startCode goalCode Hs Hsne Hg Hgne). cbn [snd].
  destruct (findPath _ db startCode goalCode _).2 as [r|msg| |] eqn:Hr;
    try done.
  intros [= <-]. exists startCode, goalCode, r. simpl.
  assert (MobileStep.step <$> (decorate trim req <$> path r) = path r) as Hsteps.
  { rewrite <- list_fmap_compose. apply list_fmap_id. }
  split_and!; try done.
  - rewrite length_fmap. by eapply findPath_num_nodes.
  - by rewrite direction_lines_length, length_fmap.
  - apply Forall_fmap, Forall_forall. intros node _. cbv beta.
    destruct (decorate_image trim req node) as (Hstep & Himg & Hurl).
    cbv zeta in Hstep, Himg, Hurl. unfold compose.
    split; [done|]. intros url Hu. rewrite Hstep. by apply Hurl.
Qed.

Lemma mobile_find_path_found_witness :
  exists m,
    (mobile_find_path id decimal_toFixed decimal_show None scenario_db
       scenario_mobile_request).2 = MobileFound m /\
    mobile_num_nodes m = length (mobile_path m) /\
    mobile_directions m =
      ["Start at A (Main, Floor 0)"; "Go East (90°) for 10.0m to B";
       "Go North (0°) for 5.0m via stairs to C"].
Proof.
  eexists. split; [by vm_compute|].
  destruct (mobile_find_path_found id decimal_toFixed decimal_show None
              scenario_db scenario_mobile_request _ eq_refl)
    as (s & g & r & _ & _ & _ & _ & _ & Hnum & _).
  split; [exact Hnum | by vm_compute].
Defined.

(** X24.  The two handlers, given the same codes and the same
    [avoid_stairs] on the same engine and data layer, leave the engine
    module in the same state and answer alike, but for the status of an
    error of [findPath]: the mobile handler sends it with status 404, the
    web handler sends the same message with status 200. *)
Theorem find_path_handlers_agree (trim : string -> string)
    (toFixed : Q -> nat -> string) (show : Z -> string)
    (slot : option PathFinder) (db : DataLayer)
    (mobile : MobileRequest.t) (web : WebRequest.t) :
  WebRequest.start web = MobileRequest.start_code mobile ->
  WebRequest.goal web = MobileRequest.goal_code mobile ->
  WebRequest.avoid_stairs web = MobileRequest.avoid_stairs mobile ->
  (web_find_path toFixed show slot db web).1 =
    (mobile_find_path trim toFixed show slot db mobile).1 /\
  same_answer trim mobile
    (web_find_path toFixed show slot db web).2
    (mobile_find_path trim toFixed show slot db mobile).2.
Proof.
  intros Hstart Hgoal Havoid.
  destruct (truthy (MobileRequest.start_code mobile)) eqn:Hs.
  2:{ rewrite mobile_find_path_missing by (by left).
      rewrite web_find_path_missing by (left; by rewrite Hstart).
      split; [done|]. by left. }
  destruct (truthy (MobileRequest.goal_code mobile)) eqn:Hg.
  2:{ rewrite mobile_find_path_missing by (by right).
      rewrite web_find_path_missing by (right; by rewrite Hgoal).
      split; [done|]. by left. }
  apply truthy_Some in Hs as (startCode & Hs & Hsne).
  apply truthy_Some in Hg as (goalCode & Hg & Hgne).
  rewrite (mobile_find_path_present trim toFixed show slot db mobile
             startCode goalCode Hs Hsne Hg Hgne).
  rewrite (web_find_path_present toFixed show slot db web startCode goalCode)
    by congruence.
  rewrite Havoid. split; [done|]. cbn [snd].
  destruct (findPath _ db startCode goalCode _).2 as [r|msg| |]; simpl;
    [done | right; done | done | done].
Qed.

Lemma find_path_handlers_agree_witness :
  (web_find_path decimal_toFixed decimal_show None scenario_db
     scenario_web_request).1 =
    (mobile_find_path id decimal_toFixed decimal_show None scenario_db
       scenario_mobile_request).1 /\
  same_answer id scenario_mobile_request
    (web_find_path decimal_toFixed decimal_show None scenario_db
       scenario_web_request).2
    (mobile_find_path id decimal_toFixed decimal_show None scenario_db
       scenario_mobile_request).2.
Proof.
  apply (find_path_handlers_agree id decimal_toFixed decimal_show None
           scenario_db scenario_mobile_request scenario_web_request);
    reflexivity.
Defined.

(** X27.  The snapshot the first request builds serves the later ones:
    after a request on an engine module that held no instance, the same
    request gets the same answer and leaves the module as it is, whatever
    has become of the edge rows in between, as long as the node rows are
    the same; only after [resetPathfinder()] is the request answered as on
    a module that holds no instance, from the data layer as it is then. *)
Theorem mobile_find_path_stale_until_reset (trim : string -> string)
    (toFixed : Q -> nat -> string) (show : Z -> string)
    (db db' : DataLayer) (req : MobileRequest.t) :
  nodes_table db' = nodes_table db ->
  let first := mobile_find_path trim toFixed show None db req in
  mobile_find_path trim toFixed show first.1 db' req = first /\
  mobile_find_path trim toFixed show (resetPathfinder first.1) db' req =
    mobile_find_path trim toFixed show None db' req.
Proof.
  intros Hnodes first. split; [|done]. subst first.
  destruct (truthy (MobileRequest.start_code req)) eqn:Hs.
  2:{ by rewrite !mobile_find_path_missing by (by left). }
  destruct (truthy (MobileRequest.goal_code req)) eqn:Hg.
  2:{ by rewrite !mobile_find_path_missing by (by right). }
  apply truthy_Some in Hs as (startCode & Hs & Hsne).
  apply truthy_Some in Hg as (goalCode & Hg & Hgne).
  rewrite !(mobile_find_path_present trim toFixed show _ _ req
              startCode goalCode Hs Hsne Hg Hgne).
  cbn [fst snd getPathfinder ensure_built initialized new_PathFinder buildGraph].
  set (avoid := default false (MobileRequest.avoid_stairs req)).
  set (snapshot := buildGraph new_PathFinder db).
  assert (findPath snapshot db' startCode goalCode avoid =
          findPath snapshot db startCode goalCode avoid) as Hstale
    by (by apply findPath_initialized).
  assert ((findPath snapshot db startCode goalCode avoid).2 =
          (findPath new_PathFinder db startCode goalCode avoid).2) as Hsame.
  { unfold findPath. by destruct (Nodes_findOne db startCode),
      (Nodes_findOne db goalCode). }
  fold snapshot. by rewrite Hstale, Hsame.
Qed.

Lemma mobile_find_path_stale_until_reset_witness :
  mobile_find_path id decimal_toFixed decimal_show
    (mobile_find_path id decimal_toFixed decimal_show None scenario_db
       scenario_mobile_request).1
    {| nodes_table := nodes_table scenario_db; edges_table := [] |}
    scenario_mobile_request =
  mobile_find_path id decimal_toFixed decimal_show None scenario_db
    scenario_mobile_request.
Proof.
  apply (proj1 (mobile_find_path_stale_until_reset id decimal_toFixed
                  decimal_show scenario_db
                  {| nodes_table := nodes_table scenario_db; edges_table := [] |}
                  scenario_mobile_request eq_refl)).
Defined.
